(** * The ruleguard checker of go-critic: [checkers/ruleguard_checker.go]

    A shallow embedding of the checker's control logic (failure policy,
    rule-file resolution, per-file walk and ordering of the reports) and the
    properties of it that the specification states.

    Go strings are byte strings: [string] (a list of 8-bit [ascii]).  Go's
    multiple return values [(v, err)] are pairs [(v, option goError)], [nil]
    being [None].  The rule engine, the file system and the host linter are
    not part of the file: they are the fields of the record [World]. *)

From Stdlib Require Import String Ascii List ZArith Lia.
From stdpp Require Import gmap strings list fin_maps sorting.

Open Scope string_scope.
Open Scope list_scope.

(** ** Strings: the functions of package [strings] and [fmt] the checker uses *)

Module GoStrings.

(** [strings.Split(s, ",")]: the pieces of [s] between commas; a string
    without comma is its only piece, the empty string included. *)
Fixpoint Split_comma (s : string) : list string :=
  match s with
  | EmptyString => [EmptyString]
  | String c s' =>
      if Ascii.eqb c ","%char then EmptyString :: Split_comma s'
      else match Split_comma s' with
           | piece :: pieces => String c piece :: pieces
           | [] => [String c EmptyString]
           end
  end.

(** [strings.Join(elems, sep)]. *)
Fixpoint Join (elems : list string) (sep : string) : string :=
  match elems with
  | [] => EmptyString
  | [x] => x
  | x :: (_ :: _) as xs => x +:+ sep +:+ Join xs sep
  end.

(** [strings.Contains(s, substr)]. *)
Fixpoint Contains (s substr : string) : bool :=
  String.prefix substr s ||
  match s with
  | EmptyString => false
  | String _ s' => Contains s' substr
  end.

(** [a < b] on Go strings: byte-wise lexicographic order. *)
Definition lt (a b : string) : bool := String.ltb a b.

End GoStrings.

(** ** Errors

    A Go [error] value that is not [nil].  The checker looks at an error in
    two ways only: its text ([Error()], what [%v] and [%+v] print) and whether
    [errors.As] finds a [*ruleguard.ImportError] in its [Unwrap] chain. *)

Inductive goError : Type :=
| errorString (s : string)                  (* errors.New, fmt.Errorf without %w *)
| ImportError (msg : string) (err : goError) (* *ruleguard.ImportError{msg, err} *)
| wrapError (msg : string) (err : goError).  (* fmt.Errorf with %w *)

Definition Error (e : goError) : string :=
  match e with
  | errorString s => s
  | ImportError msg _ => msg
  | wrapError msg _ => msg
  end.

(** [var e *ruleguard.ImportError; errors.As(err, &e)] *)
Fixpoint errors_As_ImportError (err : goError) : bool :=
  match err with
  | errorString _ => false
  | ImportError _ _ => true
  | wrapError _ inner => errors_As_ImportError inner
  end.

(** [fmt.Errorf(format, ...)] without [%w]: an error that carries the text. *)
Definition fmt_Errorf (text : string) : goError := errorString text.

(** ** The failure policy: [parseErrorHandler] *)

Record parseErrorHandler : Type := {
  failureConditions : gmap string (goError -> bool)
}.

(** The three predicates of [newErrorHandler]. *)
Definition failOnErrorPredicates : gmap string (goError -> bool) :=
  <["dsl" := fun err => negb (errors_As_ImportError err)]>
  (<["import" := fun err => errors_As_ImportError err]>
  (<["all" := fun _ => true]> ∅)).

(** The loop of [failOnParseError] over the predicates in the order [range]
    yields them: the first predicate that holds returns [true]. *)
Fixpoint failOnParseError_loop
    (conds : list (string * (goError -> bool))) (parseError : goError) : bool :=
  match conds with
  | [] => false
  | (_, p) :: rest =>
      if p parseError then true else failOnParseError_loop rest parseError
  end.

Definition initErrorInvalidFlag (k : string) (supportedValues : list string) : goError :=
  fmt_Errorf ("ruleguard init error: 'failOnError' flag '" +:+ k +:+
              "' is invalid. It must be a comma-separated list and supported values are '" +:+
              GoStrings.Join supportedValues "," +:+ "'").

Section MapRange.

(** Go does not specify the order in which [range] visits a map.  [range]
    is that order: any enumeration of the map's entries. *)
Variable range : forall A : Type, gmap string A -> list (string * A).

Definition failOnParseError (e : parseErrorHandler) (parseError : goError) : bool :=
  failOnParseError_loop (range _ (failureConditions e)) parseError.

(** The loop of [newErrorHandler] over the pieces of the flag. *)
Fixpoint newErrorHandler_loop (ks : list string) (h : parseErrorHandler)
  : parseErrorHandler + goError :=
  match ks with
  | [] => inl h
  | k :: rest =>
      if String.eqb k "" then newErrorHandler_loop rest h
      else match failOnErrorPredicates !! k with
           | Some p =>
               newErrorHandler_loop rest
                 {| failureConditions := <[k := p]> (failureConditions h) |}
           | None =>
               let supportedValues := (range _ failOnErrorPredicates).*1 in
               inr (initErrorInvalidFlag k supportedValues)
           end
  end.

Definition newErrorHandler (failOnErrorFlag : string) : parseErrorHandler + goError :=
  newErrorHandler_loop (GoStrings.Split_comma failOnErrorFlag)
                       {| failureConditions := ∅ |}.

End MapRange.

(** A [range] order is any permutation of the map's entries. *)
Definition range_ok (range : forall A : Type, gmap string A -> list (string * A)) : Prop :=
  forall (A : Type) (m : gmap string A), range A m ≡ₚ map_to_list m.

(** ** The world outside the file

    The rule engine ([ruleguard]), the file system ([filepath.Glob],
    [ioutil.ReadFile]), [strings.TrimSpace], the order of [range] over a map
    and the host's syntax trees.  [Load] and [Run] are the engine's methods:
    [Load] returns the engine as the call leaves it; [Run] returns the
    callbacks the engine makes through the [RunContext], in the order it
    makes them, and its error. *)

Record ruleguard_RunContext (Package TypesInfo Sizes FileSet : Type) : Type := {
  Debug : string;
  Pkg : Package;
  Types : TypesInfo;
  Sizes_ : Sizes;
  Fset : FileSet
}.
Arguments Debug {_ _ _ _} _.
Arguments Pkg {_ _ _ _} _.
Arguments Types {_ _ _ _} _.
Arguments Sizes_ {_ _ _ _} _.
Arguments Fset {_ _ _ _} _.

(** A call the engine makes during [Run]: to [ctx.Report] or to
    [ctx.DebugPrint]. *)
Inductive Callback (GoRuleInfo Node Suggestion : Type) : Type :=
| CallReport (info : GoRuleInfo) (n : Node) (msg : string) (sugg : option Suggestion)
| CallDebugPrint (s : string).
Arguments CallReport {_ _ _} _ _ _ _.
Arguments CallDebugPrint {_ _ _} _.

Record World : Type := {
  (* package strings and the Go runtime *)
  TrimSpace : string -> string;
  range : forall A : Type, gmap string A -> list (string * A);
  (* the file system *)
  Glob : string -> list string * option goError;
  ReadFile : string -> string * option goError;
  (* the rule engine *)
  Engine : Type;
  NewEngine : Engine;
  Load : Engine -> string -> string -> Engine * option goError;
  GoRuleInfo : Type;
  Suggestion : Type;
  (* the host: syntax trees and the data of linter.CheckerContext *)
  Node : Type;
  File : Type;
  fileNode : File -> Node;
  Package : Type;
  TypesInfo : Type;
  Sizes : Type;
  FileSet : Type;
  Run : Engine -> ruleguard_RunContext Package TypesInfo Sizes FileSet -> File ->
        list (Callback GoRuleInfo Node Suggestion) * option goError
}.

(** Go's [int] (64 bits): [loaded++] wraps around. *)
Definition int_wrap (z : Z) : Z := ((z + 2 ^ 63) mod 2 ^ 64 - 2 ^ 63)%Z.

(** What construction does to the outside, in the order it does it. *)
Inductive Event : Type :=
| EvGlob (pattern : string)
| EvReadFile (filename : string)
| EvLoad (filename : string) (data : string)
| EvLog (line : string).

(** [linter.CheckerContext], as far as the checker reads it. *)
Record CheckerContext (w : World) : Type := {
  ctx_Pkg : Package w;
  ctx_TypesInfo : TypesInfo w;
  ctx_SizesInfo : Sizes w;
  ctx_FileSet : FileSet w
}.
Arguments ctx_Pkg {w} _.
Arguments ctx_TypesInfo {w} _.
Arguments ctx_SizesInfo {w} _.
Arguments ctx_FileSet {w} _.

(** The three parameters [init] registers, as [info.Params.String] reads
    them. *)
Record CheckerParams : Type := {
  rules : string;
  debug : string;
  failOnError : string
}.

Record ruleguardChecker (w : World) : Type := {
  ctx : CheckerContext w;
  debugGroup : string;
  engine : option (Engine w)    (* [None] is the nil pointer *)
}.
Arguments ctx {w} _.
Arguments debugGroup {w} _.
Arguments engine {w} _.

(** ** Construction: [newRuleguardChecker]

    The loops run in a small state-and-exit monad: the state is the engine
    under construction, the counter [loaded] and the events so far; a
    [return nil, err] in the middle of a loop is [Return err]. *)

Inductive outcome (A : Type) : Type :=
| Continue (a : A)
| Return (err : goError).
Arguments Continue {A} a.
Arguments Return {A} err.

Record initState (w : World) : Type := {
  st_engine : Engine w;
  st_loaded : Z;
  st_events : list Event
}.
Arguments st_engine {w} _.
Arguments st_loaded {w} _.
Arguments st_events {w} _.

Definition Init (w : World) (A : Type) : Type := initState w -> outcome A * initState w.

Definition ret {w A} (a : A) : Init w A := fun st => (Continue a, st).

Definition bind {w A B} (m : Init w A) (k : A -> Init w B) : Init w B :=
  fun st =>
    match m st with
    | (Continue a, st') => k a st'
    | (Return err, st') => (Return err, st')
    end.

Definition exit {w A} (err : goError) : Init w A := fun st => (Return err, st).

Definition emit {w} (ev : Event) : Init w unit :=
  fun st => (Continue tt, {| st_engine := st_engine st;
                             st_loaded := st_loaded st;
                             st_events := st_events st ++ [ev] |}).

Notation "'do' x <- m 'in' k" := (bind m (fun x => k))
  (at level 10, x pattern, m at level 100, k at level 200).
Notation "'do_' m 'in' k" := (bind m (fun _ => k))
  (at level 10, m at level 100, k at level 200).

(** [for _, x := range xs { body }] over a slice. *)
Fixpoint forEach {w A} (body : A -> Init w unit) (xs : list A) : Init w unit :=
  match xs with
  | [] => ret tt
  | x :: rest => do_ body x in forEach body rest
  end.

Section Construction.

Context (w : World).

Definition log_Printf (line : string) : Init w unit := emit (EvLog line).

Definition filepath_Glob (pattern : string) : Init w (list string * option goError) :=
  do_ emit (EvGlob pattern) in ret (Glob w pattern).

Definition ioutil_ReadFile (filename : string) : Init w (string * option goError) :=
  do_ emit (EvReadFile filename) in ret (ReadFile w filename).

(** [engine.Load(parseContext, filename, bytes.NewReader(data))] *)
Definition engine_Load (filename data : string) : Init w (option goError) :=
  fun st =>
    let '(e', err) := Load w (st_engine st) filename data in
    (Continue err, {| st_engine := e';
                      st_loaded := st_loaded st;
                      st_events := st_events st ++ [EvLoad filename data] |}).

(** [loaded++] *)
Definition loaded_incr : Init w unit :=
  fun st => (Continue tt, {| st_engine := st_engine st;
                             st_loaded := int_wrap (st_loaded st + 1);
                             st_events := st_events st |}).

(** The two identical [if err != nil { ... }] blocks of the inner loop. *)
Definition onLoadError (h : parseErrorHandler) (filename : string)
    (err : option goError) : Init w unit :=
  match err with
  | Some e =>
      if failOnParseError (range w) h e
      then exit (fmt_Errorf ("ruleguard init error: " +:+ Error e))
      else log_Printf ("ruleguard init error, skip " +:+ filename +:+ ": " +:+ Error e)
  | None => ret tt
  end.

(** Body of [for _, filename := range filenames]. *)
Definition loadFile (h : parseErrorHandler) (filename : string) : Init w unit :=
  do (data, err) <- ioutil_ReadFile filename in
  do_ onLoadError h filename err in
  do err' <- engine_Load filename data in
  do_ onLoadError h filename err' in
  loaded_incr.

(** Body of [for _, filePattern := range filePatterns]. *)
Definition loadPattern (h : parseErrorHandler) (filePattern : string) : Init w unit :=
  do (filenames, err) <- filepath_Glob (TrimSpace w filePattern) in
  match err with
  | Some e =>
      (* the only possible error is ErrBadPattern *)
      log_Printf ("ruleguard init error: " +:+ Error e)   (* continue *)
  | None =>
      if Nat.eqb (length filenames) 0
      then exit (fmt_Errorf ("ruleguard init error: no file matching '" +:+
                             TrimSpace w filePattern +:+ "'"))
      else forEach (loadFile h) filenames
  end.

Definition loadPatterns (h : parseErrorHandler) (filePatterns : list string) : Init w unit :=
  forEach (loadPattern h) filePatterns.

Definition initialState : initState w :=
  {| st_engine := NewEngine w; st_loaded := 0; st_events := [] |}.

(** [newRuleguardChecker(info, ctx)]: the checker or the error, and the
    events of the construction. *)
Definition newRuleguardChecker (params : CheckerParams) (ctx0 : CheckerContext w)
  : outcome (ruleguardChecker w) * list Event :=
  let c := {| ctx := ctx0; debugGroup := debug params; engine := None |} in
  let rulesFlag := rules params in
  if String.eqb rulesFlag "" then (Continue c, [])
  else
    match newErrorHandler (range w) (failOnError params) with
    | inr err => (Return err, [])
    | inl h =>
        let filePatterns := GoStrings.Split_comma rulesFlag in
        match loadPatterns h filePatterns initialState with
        | (Return err, st) => (Return err, st_events st)
        | (Continue _, st) =>
            if negb (Z.eqb (st_loaded st) 0)
            then (Continue {| ctx := ctx0; debugGroup := debug params;
                              engine := Some (st_engine st) |}, st_events st)
            else (Continue c, st_events st)
        end
    end.

End Construction.

(** ** The walk over one file: [WalkFile] *)

(** The local type [ruleguardReport] of [WalkFile]. *)
Record ruleguardReport (w : World) : Type := {
  node : Node w;
  message : string
}.
Arguments node {w} _.
Arguments message {w} _.

(** What [WalkFile] does to the outside: calls of [c.ctx.Warn(node, format,
    args...)] and lines written to [os.Stderr]. *)
Inductive Effect (w : World) : Type :=
| Warn (n : Node w) (format : string) (args : list string)
| Fprintln_Stderr (s : string).
Arguments Warn {w} _ _ _.
Arguments Fprintln_Stderr {w} _.

(** The comparison handed to [sort.Slice]:
    [reports[i].message < reports[j].message]. *)
Definition report_less {w : World} (x y : ruleguardReport w) : bool :=
  GoStrings.lt (message x) (message y).

Section Walk.

Context (w : World).

(** [sort.Slice(x, less)] of the Go library in use: the slice as the call
    leaves it.  [less] is given on the elements ([less(i, j)] of the source
    reads the elements at [i] and [j] of the slice as it is then). *)
Variable sort_Slice : forall A : Type, list A -> (A -> A -> bool) -> list A.

(** The callbacks of one [Run], in order: [Report] appends to [reports],
    [DebugPrint] writes a line to [os.Stderr]. *)
Fixpoint runCallbacks (calls : list (Callback (GoRuleInfo w) (Node w) (Suggestion w)))
    (reports : list (ruleguardReport w)) (effects : list (Effect w))
  : list (ruleguardReport w) * list (Effect w) :=
  match calls with
  | [] => (reports, effects)
  | CallReport _ n msg _ :: rest =>
      runCallbacks rest (reports ++ [{| node := n; message := msg |}]) effects
  | CallDebugPrint s :: rest =>
      runCallbacks rest reports (effects ++ [Fprintln_Stderr s])
  end.

(** Lines 199-201, the diagnostic ordering: [sort.Slice] of the reports
    by message. *)
Definition order (reports : list (ruleguardReport w)) : list (ruleguardReport w) :=
  sort_Slice _ reports report_less.

(** The [ruleguard.RunContext] of lines 173-190; its fields [DebugPrint]
    and [Report] are the two callbacks. *)
Definition runContext (c : ruleguardChecker w)
  : ruleguard_RunContext (Package w) (TypesInfo w) (Sizes w) (FileSet w) :=
  {| Debug := debugGroup c;
     Pkg := ctx_Pkg (ctx c);
     Types := ctx_TypesInfo (ctx c);
     Sizes_ := ctx_SizesInfo (ctx c);
     Fset := ctx_FileSet (ctx c) |}.

Definition WalkFile (c : ruleguardChecker w) (f : File w) : list (Effect w) :=
  match engine c with
  | None => []
  | Some e =>
      let ctx0 := runContext c in
      let '(calls, err) := Run w e ctx0 f in
      let '(reports, effects) := runCallbacks calls [] [] in
      let effects :=
        match err with
        | Some e => effects ++ [Warn (fileNode w f) "execution error: %v" [Error e]]
        | None => effects
        end in
      let reports := order reports in
      effects ++ map (fun report => Warn (node report) (message report) []) reports
  end.

End Walk.

(** ** [sort.Slice] of the Go library before release 1.19

    [sort.Slice] is not part of the repository.  Its documentation promises a
    slice sorted by [less] and says: "The sort is not guaranteed to be stable:
    equal elements may be reversed from their original order."  The
    implementation below is the one of package [sort] from the introduction of
    [sort.Slice] up to Go 1.18 ([zfuncversion.go]: quicksort with a median
    pivot, heapsort when the recursion gets too deep, and for at most 12
    elements one Shell pass with gap 6 followed by insertion sort); the
    releases since sort by pattern-defeating quicksort under the same
    documentation.

    The slice is a list; the indices are natural numbers (in the source they
    are [int]s between 0 and the length of the slice, and no subtraction goes
    below zero). *)

Module GoSort.

Local Open Scope nat_scope.

Section Sort.

Context {A : Type} (less : A -> A -> bool).

(** [data.Less(i, j)] *)
Definition Less (data : list A) (i j : nat) : bool :=
  match data !! i, data !! j with
  | Some x, Some y => less x y
  | _, _ => false
  end.

(** [data.Swap(i, j)] *)
Definition Swap (data : list A) (i j : nat) : list A :=
  match data !! i, data !! j with
  | Some x, Some y => <[j := x]> (<[i := y]> data)
  | _, _ => data
  end.

(** [for i := lo; i < lo+n; i++ { data = body(i, data) }] *)
Fixpoint for_up (n : nat) (lo : nat) (body : nat -> list A -> list A)
    (data : list A) : list A :=
  match n with
  | 0 => data
  | S n' => for_up n' (S lo) body (body lo data)
  end.

(** [for i := hi; i >= 0; i-- { data = body(i, data) }] *)
Fixpoint for_down (hi : nat) (body : nat -> list A -> list A)
    (data : list A) : list A :=
  match hi with
  | 0 => body 0 data
  | S hi' => for_down hi' body (body hi data)
  end.

(** Inner loop of [insertionSort_func]:
    [for j := i; j > a && data.Less(j, j-1); j-- { data.Swap(j, j-1) }] *)
Fixpoint insertionSort_inner (a j : nat) (data : list A) : list A :=
  match j with
  | 0 => data
  | S j' =>
      if (a <? j) && Less data j j'
      then insertionSort_inner a j' (Swap data j j')
      else data
  end.

Definition insertionSort_func (data : list A) (a b : nat) : list A :=
  for_up (b - (a + 1)) (a + 1) (insertionSort_inner a) data.

(** The loop of [siftDown_func]; [fuel] bounds the number of rounds
    ([root] at least doubles in each). *)
Fixpoint siftDown_loop (fuel : nat) (data : list A) (root hi first : nat) : list A :=
  match fuel with
  | 0 => data
  | S fuel' =>
      let child := 2 * root + 1 in
      if hi <=? child then data
      else
        let child :=
          if (child + 1 <? hi) && Less data (first + child) (first + child + 1)
          then child + 1 else child in
        if negb (Less data (first + root) (first + child)) then data
        else siftDown_loop fuel' (Swap data (first + root) (first + child))
                           child hi first
  end.

Definition siftDown_func (data : list A) (lo hi first : nat) : list A :=
  siftDown_loop hi data lo hi first.

Definition heapSort_func (data : list A) (a b : nat) : list A :=
  let first := a in
  let lo := 0 in
  let hi := b - a in
  let data := for_down ((hi - 1) / 2) (fun i data => siftDown_func data i hi first) data in
  match hi with
  | 0 => data
  | S hi1 =>
      for_down hi1 (fun i data => siftDown_func (Swap data first (first + i)) lo i first) data
  end.

Definition medianOfThree_func (data : list A) (m1 m0 m2 : nat) : list A :=
  let data := if Less data m1 m0 then Swap data m1 m0 else data in
  if Less data m2 m1 then
    let data := Swap data m2 m1 in
    if Less data m1 m0 then Swap data m1 m0 else data
  else data.

(** [for ; i < i+n && cond(i); i++ {}]: the index the loop stops at. *)
Fixpoint scan_up (n : nat) (i : nat) (cond : nat -> bool) : nat :=
  match n with
  | 0 => i
  | S n' => if cond i then scan_up n' (S i) cond else i
  end.

(** [for ; lo < i && cond(i-1); i-- {}] with [n = i - lo]. *)
Fixpoint scan_down (n : nat) (i : nat) (cond : nat -> bool) : nat :=
  match n with
  | 0 => i
  | S n' => if cond (i - 1) then scan_down n' (i - 1) cond else i
  end.

(** The partition loop of [doPivot_func]. *)
Fixpoint doPivot_partition (fuel : nat) (data : list A) (pivot b c : nat)
  : list A * nat * nat :=
  let b := scan_up (c - b) b (fun b => negb (Less data pivot b)) in
  let c := scan_down (c - b) c (fun c1 => Less data pivot c1) in
  if c <=? b then (data, b, c)
  else match fuel with
       | 0 => (data, b, c)
       | S fuel' => doPivot_partition fuel' (Swap data b (c - 1)) pivot (b + 1) (c - 1)
       end.

(** The loop under [if protect] of [doPivot_func]. *)
Fixpoint doPivot_protect (fuel : nat) (data : list A) (pivot a b : nat)
  : list A * nat * nat :=
  let b := scan_down (b - a) b (fun b1 => negb (Less data b1 pivot)) in
  let a := scan_up (b - a) a (fun a => Less data a pivot) in
  if b <=? a then (data, a, b)
  else match fuel with
       | 0 => (data, a, b)
       | S fuel' => doPivot_protect fuel' (Swap data a (b - 1)) pivot (a + 1) (b - 1)
       end.

Definition doPivot_func (data : list A) (lo hi : nat) : list A * nat * nat :=
  let m := (lo + hi) / 2 in
  let data :=
    if 40 <? hi - lo then
      let s := (hi - lo) / 8 in
      let data := medianOfThree_func data lo (lo + s) (lo + 2 * s) in
      let data := medianOfThree_func data m (m - s) (m + s) in
      medianOfThree_func data (hi - 1) (hi - 1 - s) (hi - 1 - 2 * s)
    else data in
  let data := medianOfThree_func data lo m (hi - 1) in
  let pivot := lo in
  let a := lo + 1 in
  let c := hi - 1 in
  let a := scan_up (c - a) a (fun a => Less data a pivot) in
  let b := a in
  let '(data, b, c) := doPivot_partition (c - b) data pivot b c in
  let protect := hi - c <? 5 in
  let '(data, b, c, protect) :=
    if negb protect && (hi - c <? (hi - lo) / 4) then
      let dups := 0 in
      let '(data, c, dups) :=
        if negb (Less data pivot (hi - 1))
        then (Swap data c (hi - 1), c + 1, dups + 1)
        else (data, c, dups) in
      let '(b, dups) :=
        if negb (Less data (b - 1) pivot) then (b - 1, dups + 1) else (b, dups) in
      let '(data, b, dups) :=
        if negb (Less data m pivot)
        then (Swap data m (b - 1), b - 1, dups + 1)
        else (data, b, dups) in
      (data, b, c, 1 <? dups)
    else (data, b, c, protect) in
  let '(data, a, b) :=
    if protect then doPivot_protect (b - a) data pivot a b else (data, a, b) in
  let data := Swap data pivot (b - 1) in
  (data, b - 1, c).

(** [quickSort_func]; the loop [for b-a > 12] continues on one side of
    the pivot and is the second recursive call here.  [None]: [fuel] was
    too small (the range shrinks at every level, so its length is
    enough). *)
Fixpoint quickSort_func (fuel : nat) (data : list A) (a b maxDepth : nat)
  : option (list A) :=
  if 12 <? b - a then
    match fuel with
    | 0 => None
    | S fuel' =>
        if maxDepth =? 0 then Some (heapSort_func data a b)
        else
          let maxDepth := maxDepth - 1 in
          let '(data, mlo, mhi) := doPivot_func data a b in
          if mlo - a <? b - mhi then
            match quickSort_func fuel' data a mlo maxDepth with
            | Some data => quickSort_func fuel' data mhi b maxDepth
            | None => None
            end
          else
            match quickSort_func fuel' data mhi b maxDepth with
            | Some data => quickSort_func fuel' data a mlo maxDepth
            | None => None
            end
    end
  else if 1 <? b - a then
    (* Shell pass with gap 6 *)
    let data :=
      for_up (b - (a + 6)) (a + 6)
             (fun i data => if Less data i (i - 6) then Swap data i (i - 6) else data)
             data in
    Some (insertionSort_func data a b)
  else Some data.

(** [maxDepth(n)]: [for i := n; i > 0; i >>= 1 { depth++ }]. *)
Fixpoint maxDepth_loop (fuel : nat) (i depth : nat) : nat :=
  match fuel with
  | 0 => depth
  | S fuel' => if 0 <? i then maxDepth_loop fuel' (i / 2) (depth + 1) else depth
  end.

Definition maxDepth (n : nat) : nat := maxDepth_loop n n 0 * 2.

(** [sort.Slice(x, less)] *)
Definition Slice (x : list A) : option (list A) :=
  let length := length x in
  quickSort_func length x 0 length (maxDepth length).

End Sort.

(** Insertion sort of the whole slice: what the library runs on a short
    slice once the Shell pass is over (and, since Go 1.19, all it runs on a
    slice of at most 12 elements). *)
Definition insertionSort (A : Type) (x : list A) (less : A -> A -> bool) : list A :=
  insertionSort_func less x 0 (length x).

(** [sort.Slice] as a function; the input stands if the fuel runs out
    (it does not: [Slice_sorts]). *)
Definition sort_Slice (A : Type) (x : list A) (less : A -> A -> bool) : list A :=
  match Slice less x with
  | Some x' => x'
  | None => x
  end.

End GoSort.

(** ** Vocabulary for the proof that the library's sort sorts *)

Module SortSpec.

Section Spec.

Context {A : Type} (less : A -> A -> bool).

Local Open Scope nat_scope.

(** [data'] holds the elements of [data], those outside of the range
    [a, b) where they were and those of the range within the range. *)
Definition rearranged (a b : nat) (data data' : list A) : Prop :=
  length data' = length data /\
  data' ≡ₚ data /\
  (forall i, i < a \/ b <= i -> data' !! i = data !! i) /\
  (forall i x, a <= i < b -> data' !! i = Some x ->
               exists j, a <= j < b /\ data !! j = Some x).

(** Every element of the range [a, b) satisfies [P]. *)
Definition rangeAll (P : A -> Prop) (a b : nat) (data : list A) : Prop :=
  forall i x, a <= i < b -> data !! i = Some x -> P x.

(** Ascending on the range [a, b): no element is less than one before
    it. *)
Definition sortedIn (a b : nat) (data : list A) : Prop :=
  forall i j x y, a <= i -> i < j -> j < b ->
    data !! i = Some x -> data !! j = Some y -> less y x = false.

(** The element at node [k] of the heap that starts at index [first] is
    not below its children, as far as they lie before [hi]. *)
Definition heapAt (data : list A) (first hi k : nat) : Prop :=
  forall c x y, c = 2 * k + 1 \/ c = 2 * k + 2 -> c < hi ->
    data !! (first + k) = Some x -> data !! (first + c) = Some y -> less x y = false.

(** What [insertionSort_func] computes, on lists.  Insertion of [x] into
    a sorted run given from its end: [x] moves down past every element it
    is less than. *)
Fixpoint insertBack (x : A) (before : list A) : list A :=
  match before with
  | [] => [x]
  | y :: before' => if less x y then y :: insertBack x before' else x :: y :: before'
  end.

(** The elements of [rest] inserted one after the other into [sorted]. *)
Fixpoint insertAll (sorted rest : list A) : list A :=
  match rest with
  | [] => sorted
  | x :: rest' => insertAll (rev (insertBack x (rev sorted))) rest'
  end.

End Spec.

End SortSpec.

(** ** What the claims speak of *)

(** The reports among the callbacks of a run, in the order of the calls. *)
Fixpoint reportsOf {w : World}
    (calls : list (Callback (GoRuleInfo w) (Node w) (Suggestion w)))
  : list (ruleguardReport w) :=
  match calls with
  | [] => []
  | CallReport _ n msg _ :: rest => {| node := n; message := msg |} :: reportsOf rest
  | CallDebugPrint _ :: rest => reportsOf rest
  end.

(** The lines the engine prints through [DebugPrint] during a run. *)
Fixpoint debugLinesOf {w : World}
    (calls : list (Callback (GoRuleInfo w) (Node w) (Suggestion w)))
  : list (Effect w) :=
  match calls with
  | [] => []
  | CallReport _ _ _ _ :: rest => debugLinesOf rest
  | CallDebugPrint s :: rest => Fprintln_Stderr s :: debugLinesOf rest
  end.

(** The loop of lines 202-204: one [Warn] per report. *)
Definition warnings {w : World} (reports : list (ruleguardReport w)) : list (Effect w) :=
  map (fun report => Warn (node report) (message report) []) reports.

(** The warning of line 196, if [Run] returned an error. *)
Definition executionWarning (w : World) (f : File w) (err : option goError) : list (Effect w) :=
  match err with
  | Some e => [Warn (fileNode w f) "execution error: %v" [Error e]]
  | None => []
  end.

(** A state of the construction after further events. *)
Definition after {w : World} (st : initState w) (events : list Event) : initState w :=
  {| st_engine := st_engine st;
     st_loaded := st_loaded st;
     st_events := st_events st ++ events |}.

(** [a <= b] on Go strings. *)
Definition string_le (a b : string) : Prop := String.leb a b = true.

(** Sorted under the comparison [WalkFile] hands to the sort: the test of
    [sort.SliceIsSorted], no element is less than the one before it.  That
    this is ascending order of the message texts ([ascendingByMessage] below)
    is a property of the comparison, proved as [sortedByMessage_ascending]. *)
Definition sortedByMessage {w : World} (reports : list (ruleguardReport w)) : Prop :=
  Sorted (fun x y => report_less y x = false) reports.

(** Ties in production order: the reports of every message text come out in
    the order they went in. *)
Definition tiesInProductionOrder {w : World}
    (emitted produced : list (ruleguardReport w)) : Prop :=
  forall msg : string,
    filter (fun r => message r = msg) emitted = filter (fun r => message r = msg) produced.

(** What the documentation of [sort.Slice] promises for the comparison of
    [WalkFile]: the same elements, sorted. *)
Definition sortsReports (sort_Slice : forall A : Type, list A -> (A -> A -> bool) -> list A)
  : Prop :=
  forall (w : World) (reports : list (ruleguardReport w)),
    sort_Slice _ reports report_less ≡ₚ reports /\
    sortedByMessage (sort_Slice _ reports report_less).

(** Ascending by message, on the message texts themselves: a report that
    comes earlier has a message that is [<=], in Go's order of strings, the
    message of every report that comes later. *)
Definition ascendingByMessage {w : World} (reports : list (ruleguardReport w)) : Prop :=
  forall (i j : nat) (x y : ruleguardReport w),
    (i < j)%nat -> reports !! i = Some x -> reports !! j = Some y ->
    String.leb (message x) (message y) = true.

(** The names of the failure policy. *)
Definition policyNames : list string := ["import"; "dsl"; "all"].

(** ** A small world to run the checker in *)

Module Example.

Definition isSpace (c : ascii) : bool :=
  let n := nat_of_ascii c in
  (n =? 32)%nat || ((9 <=? n)%nat && (n <=? 13)%nat).

Fixpoint trimLeft (s : string) : string :=
  match s with
  | EmptyString => EmptyString
  | String c s' => if isSpace c then trimLeft s' else s
  end.

(** [strings.TrimSpace] on ASCII text: blank, tab, line feed, vertical
    tab, form feed and carriage return are trimmed; the Unicode blanks
    beyond ASCII that the library also trims do not occur in this world. *)
Definition trimSpace (s : string) : string :=
  String.rev (trimLeft (String.rev (trimLeft s))).

(** Three rule files and a directory without [missing-*.txt]. *)
Definition glob (pattern : string) : list string * option goError :=
  if String.eqb pattern "rules-a.txt" then (["rules-a.txt"], None)
  else if String.eqb pattern "bad.go" then (["bad.go"], None)
  else if String.eqb pattern "unreadable.go" then (["unreadable.go"], None)
  else if String.eqb pattern "[" then ([], Some (errorString "syntax error in pattern"))
  else ([], None).

Definition readFile (filename : string) : string * option goError :=
  if String.eqb filename "rules-a.txt" then ("rule a", None)
  else if String.eqb filename "bad.go" then ("func {", None)
  else ("", Some (errorString ("open " +:+ filename +:+ ": permission denied"))).

(** An engine is the list of the files it has loaded; it loads what starts
    with [rule] and rejects everything else as a syntax error. *)
Definition load (e : list string) (filename data : string) : list string * option goError :=
  if String.prefix "rule" data then (e ++ [filename], None)
  else (e, Some (errorString (filename +:+ ": syntax error"))).

(** Nodes and files are numbers; the node of file [f] is [1000 + f]. *)
Definition call (n : nat) (msg : string) : Callback unit nat unit :=
  CallReport tt n msg None.

Definition scenarioE : list (Callback unit nat unit) :=
  [call 1 "b-msg"; call 2 "a-msg"; call 3 "a-msg"].

Definition sevenFindings : list (Callback unit nat unit) :=
  [call 1 "b-msg"; call 2 "b-msg"; call 3 "c-msg"; call 4 "c-msg";
   call 5 "c-msg"; call 6 "c-msg"; call 7 "a-msg"].

Definition thirteenFindings : list (Callback unit nat unit) :=
  [call 0 "a"; call 1 "a"; call 2 "a"; call 3 "a"; call 4 "a"; call 5 "a";
   call 6 "m"; call 7 "m";
   call 8 "z"; call 9 "z"; call 10 "z"; call 11 "z"; call 12 "z"].

(** File 0 is scenario E, file 1 yields seven findings, file 2 thirteen, and
    on every other file the engine fails after a debug line and two
    findings. *)
Definition run (e : list string) (ctx0 : ruleguard_RunContext unit unit unit unit)
    (f : nat) : list (Callback unit nat unit) * option goError :=
  match f with
  | 0 => (scenarioE, None)
  | 1 => (sevenFindings, None)
  | 2 => (thirteenFindings, None)
  | _ => ([CallDebugPrint "rule matched"; call 1 "b-msg"; call 2 "a-msg"],
          Some (errorString "engine failure"))
  end.

Definition world : World :=
  {| TrimSpace := trimSpace;
     range := fun A m => map_to_list m;
     Glob := glob;
     ReadFile := readFile;
     Engine := list string;
     NewEngine := [];
     Load := load;
     GoRuleInfo := unit;
     Suggestion := unit;
     Node := nat;
     File := nat;
     fileNode := fun f => 1000 + f;
     Package := unit;
     TypesInfo := unit;
     Sizes := unit;
     FileSet := unit;
     Run := run |}.

Definition context : CheckerContext world :=
  Build_CheckerContext world tt tt tt tt.

(** A checker bound to an engine that has loaded [rules-a.txt]. *)
Definition checker : ruleguardChecker world :=
  Build_ruleguardChecker world context "" (Some ["rules-a.txt"]).

Definition idle : ruleguardChecker world :=
  Build_ruleguardChecker world context "" None.

Definition report (n : nat) (msg : string) : ruleguardReport world :=
  Build_ruleguardReport world n msg.

(** The handler of the policy [import]. *)
Definition importOnly : parseErrorHandler :=
  {| failureConditions := <["import" := fun err => errors_As_ImportError err]> ∅ |}.

Definition importFailure : goError :=
  wrapError "load rules" (ImportError "cannot import" (errorString "no such package")).

End Example.

(** ** Reading the trace of a construction *)

Module Trace.

(** The patterns handed to [filepath.Glob], in order. *)
Definition globsOf (events : list Event) : list string :=
  omap (fun ev => match ev with EvGlob pattern => Some pattern | _ => None end) events.

(** The files handed to [ioutil.ReadFile], in order. *)
Definition readsOf (events : list Event) : list string :=
  omap (fun ev => match ev with EvReadFile filename => Some filename | _ => None end) events.

(** The calls of [engine.Load], in order: file name and data. *)
Definition loadsOf (events : list Event) : list (string * string) :=
  omap (fun ev => match ev with EvLoad filename data => Some (filename, data) | _ => None end)
       events.

(** The lines written with [log.Printf], in order. *)
Definition logsOf (events : list Event) : list string :=
  omap (fun ev => match ev with EvLog line => Some line | _ => None end) events.

(** The files [filepath.Glob] gives for a piece of the [rules] flag; a
    malformed pattern gives none. *)
Definition matched (w : World) (filePattern : string) : list string :=
  match Glob w (TrimSpace w filePattern) with
  | (filenames, None) => filenames
  | (_, Some _) => []
  end.

(** A file name with what [ioutil.ReadFile] returns as its data. *)
Definition readData (w : World) (filename : string) : string * string :=
  (filename, (ReadFile w filename).1).

(** The engine after one more [Load]. *)
Definition loadStep (w : World) (e : Engine w) (call : string * string) : Engine w :=
  (Load w e call.1 call.2).1.

(** The line logged for a pattern that [filepath.Glob] rejects. *)
Definition globErrorLine (w : World) (filePattern : string) : option string :=
  match (Glob w (TrimSpace w filePattern)).2 with
  | Some e => Some ("ruleguard init error: " +:+ Error e)
  | None => None
  end.

Definition initErrorText (s : string) : Prop :=
  String.prefix "ruleguard init error" s = true.

(** What a part of the construction did between two states, against the
    patterns [globs] and the files [files] it had to go through. *)
Definition accounted (w : World) (globs files : list string) (o : outcome unit)
    (st st' : initState w) (events : list Event) : Prop :=
  st_events st' = st_events st ++ events /\
  globsOf events `prefix_of` globs /\
  readsOf events `prefix_of` files /\
  loadsOf events `prefix_of` (readData w <$> readsOf events) /\
  Forall initErrorText (logsOf events) /\
  st_engine st' = fold_left (loadStep w) (loadsOf events) (st_engine st) /\
  match o with
  | Continue _ =>
      globsOf events = globs /\ readsOf events = files /\
      loadsOf events = readData w <$> files /\
      ((- 2 ^ 63 <= st_loaded st < 2 ^ 63)%Z ->
       st_loaded st' = int_wrap (st_loaded st + Z.of_nat (length files)))
  | Return err => initErrorText (Error err)
  end.

End Trace.

(** ** What [WalkFile] reads of a callback *)

(** A call of [Report] as [WalkFile] keeps it (the node and the message; the
    rule info and the suggestion are dropped), a call of [DebugPrint] with its
    line. *)
Definition keptOf {w : World} (call : Callback (GoRuleInfo w) (Node w) (Suggestion w))
  : Node w * string + string :=
  match call with
  | CallReport _ n msg _ => inl (n, msg)
  | CallDebugPrint s => inr s
  end.

(** ** Registration: [init] *)

Module Registration.

(** [linter.CheckerParam], with the string values this checker uses. *)
Record CheckerParam : Type := {
  Value : string;
  Usage : string
}.

(** [linter.CheckerInfo] *)
Record CheckerInfo : Type := {
  Name : string;
  Tags : list string;
  Params : gmap string CheckerParam;
  Summary : string;
  Details : string;
  Before : string;
  After : string;
  Note : string
}.

(** The [info] that [init] fills in, lines 21-46. *)
Definition info : CheckerInfo :=
  {| Name := "ruleguard";
     Tags := ["style"; "experimental"];
     Params :=
       <["rules" :=
           {| Value := "";
              Usage := "comma-separated list of gorule file paths. Glob patterns such as 'rules-*.go' may be specified" |}]>
       (<["debug" :=
           {| Value := "";
              Usage := "enable debug for the specified named rules group" |}]>
       (<["failOnError" :=
           {| Value := "";
              Usage := "Determines the behavior when an error occurs while parsing ruleguard files.
If flag is not set, log error and skip rule files that contain an error.
If flag is set, the value must be a comma-separated list of error conditions.
* 'import': rule refers to a package that cannot be loaded.
* 'dsl':    gorule file does not comply with the ruleguard DSL." |}]> ∅));
     Summary := "Runs user-defined rules using ruleguard linter";
     Details := "Reads a rules file and turns them into go-critic checkers.";
     Before := "N/A";
     After := "N/A";
     Note := "See https://github.com/quasilyte/go-ruleguard." |}.

(** [info.Params.String(key)], that is [params[key].Value.(string)]; on a
    key that is not registered the program panics ([None]). *)
Definition Params_String (i : CheckerInfo) (key : string) : option string :=
  Value <$> Params i !! key.

(** The constructor that [init] hands to [collection.AddChecker], lines
    48-50: [newRuleguardChecker] on the [info] as it is when the checker is
    made.  [debug] is read first, then [rules], and [failOnError] only for
    a [rules] that is not empty. *)
Definition constructor (w : World) (i : CheckerInfo) (ctx0 : CheckerContext w)
  : option (outcome (ruleguardChecker w) * list Event) :=
  match Params_String i "debug" with
  | None => None
  | Some debugGroup =>
      match Params_String i "rules" with
      | None => None
      | Some rulesFlag =>
          match (if String.eqb rulesFlag "" then Some ""
                 else Params_String i "failOnError") with
          | None => None
          | Some failOnErrorFlag =>
              Some (newRuleguardChecker w
                      {| rules := rulesFlag; debug := debugGroup;
                         failOnError := failOnErrorFlag |} ctx0)
          end
      end
  end.

(** The parameters [init] registers are there; the framework changes their
    values and nothing else. *)
Definition registered (i : CheckerInfo) : Prop :=
  forall key, is_Some (Params info !! key) -> is_Some (Params i !! key).

End Registration.

(** ** A world without read and load errors

    Its [range] visits a map in the reverse of the order of the small world
    above. *)

Module Quiet.

(** Every file reads as a rule file, and every load succeeds. *)
Definition readFile (filename : string) : string * option goError :=
  ("rule " +:+ filename, None).

Definition load (e : list string) (filename data : string) : list string * option goError :=
  (e ++ [filename], None).

(** A run reports one finding for each file the engine has loaded, in the
    order of the loads: the file name, at the node of the file walked, with
    a suggestion when a debug group is set. *)
Definition run (e : list string) (ctx0 : ruleguard_RunContext unit unit unit unit)
    (f : nat) : list (Callback unit nat unit) * option goError :=
  (map (fun name => CallReport tt f name
                      (if String.eqb (Debug ctx0) "" then None else Some tt)) e,
   None).

Definition world : World :=
  {| TrimSpace := Example.trimSpace;
     range := fun A m => reverse (map_to_list m);
     Glob := Example.glob;
     ReadFile := readFile;
     Engine := list string;
     NewEngine := [];
     Load := load;
     GoRuleInfo := unit;
     Suggestion := unit;
     Node := nat;
     File := nat;
     fileNode := fun f => 1000 + f;
     Package := unit;
     TypesInfo := unit;
     Sizes := unit;
     FileSet := unit;
     Run := run |}.

Definition context : CheckerContext world :=
  Build_CheckerContext world tt tt tt tt.

Definition checker (debugGroup0 : string) (e : list string) : ruleguardChecker world :=
  Build_ruleguardChecker world context debugGroup0 (Some e).

(** The handler of the policy [dsl,import]. *)
Definition dslAndImport : parseErrorHandler :=
  {| failureConditions :=
       <["import" := fun err => errors_As_ImportError err]>
         (<["dsl" := fun err => negb (errors_As_ImportError err)]> ∅) |}.

End Quiet.

(** ** Some configurations of the small world *)

Module Scenario.

(** A rule file, a malformed pattern and a file that does not load, with
    blanks around the first piece and no policy. *)
Definition lenient : CheckerParams :=
  {| rules := " rules-a.txt ,[,bad.go"; debug := "g"; failOnError := "" |}.

(** A rule file, a file that cannot be read and a file that does not load,
    under the policy [import]. *)
Definition importPolicy : CheckerParams :=
  {| rules := "rules-a.txt,unreadable.go,bad.go"; debug := ""; failOnError := "import" |}.

(** The file that does not load, between two rule files, under the policy
    [dsl]. *)
Definition dslPolicy : CheckerParams :=
  {| rules := "rules-a.txt,bad.go,rules-a.txt"; debug := ""; failOnError := "dsl" |}.

(** Malformed patterns only. *)
Definition malformedOnly : CheckerParams :=
  {| rules := "[, ["; debug := ""; failOnError := "all" |}.

(** A malformed pattern and a rule file under the two policies. *)
Definition strict : CheckerParams :=
  {| rules := "[,rules-a.txt"; debug := ""; failOnError := "dsl,import" |}.

(** A pattern without a matching file, and commas for a policy. *)
Definition missing : CheckerParams :=
  {| rules := "rules-a.txt,missing-*.txt"; debug := ""; failOnError := "," |}.

End Scenario.

(** * Properties *)


(** *** The failure policy *)

Lemma failOnParseError_loop_true conds parseError :
  failOnParseError_loop conds parseError = true <->
  exists k p, (k, p) ∈ conds /\ p parseError = true.
Proof.
  induction conds as [|[k p] rest IH]; simpl.
  - split; [discriminate|]. intros (k & p & Hin & _). inversion Hin.
  - destruct (p parseError) eqn:Hp.
    + split; [|reflexivity]. intros _. exists k, p. split; [left|assumption].
    + rewrite IH. split.
      * intros (k' & p' & Hin & Hp'). exists k', p'. split; [right|]; assumption.
      * intros (k' & p' & Hin & Hp'). inversion Hin; subst.
        -- congruence.
        -- exists k', p'. split; assumption.
Qed.

Lemma failOnParseError_true range (Hr : range_ok range) h parseError :
  failOnParseError range h parseError = true <->
  exists k p, failureConditions h !! k = Some p /\ p parseError = true.
Proof.
  unfold failOnParseError. rewrite failOnParseError_loop_true.
  split; intros (k & p & H & Hp); exists k, p; split; try assumption.
  - apply elem_of_map_to_list. rewrite <- (Hr _ (failureConditions h)). assumption.
  - rewrite (Hr _ (failureConditions h)). apply elem_of_map_to_list. assumption.
Qed.

Lemma failOnErrorPredicates_lookup k :
  failOnErrorPredicates !! k =
    if decide (k = "dsl") then Some (fun err => negb (errors_As_ImportError err))
    else if decide (k = "import") then Some (fun err => errors_As_ImportError err)
    else if decide (k = "all") then Some (fun _ => true)
    else None.
Proof.
  unfold failOnErrorPredicates. rewrite !lookup_insert, lookup_empty.
  repeat case_decide; subst; try reflexivity; congruence.
Qed.

Lemma newErrorHandler_loop_ok range ks h0 h :
  newErrorHandler_loop range ks h0 = inl h ->
  (forall k, k ∈ ks -> k = "" \/ is_Some (failOnErrorPredicates !! k)) /\
  forall k, failureConditions h !! k =
            if decide (k ∈ ks /\ k <> "")
            then failOnErrorPredicates !! k
            else failureConditions h0 !! k.
Proof.
  revert h0. induction ks as [|k0 rest IH]; intros h0; cbn [newErrorHandler_loop].
  - intros [= <-]. split.
    + intros k Hin. inversion Hin.
    + intros k. destruct (decide (k ∈ [] /\ k <> "")) as [[Hin _]|Hd]; [|reflexivity].
      inversion Hin.
  - destruct (String.eqb_spec k0 "") as [->|Hne].
    + intros Hl. destruct (IH _ Hl) as [Hrec Hlook]. split.
      * intros k [->|Hin]%elem_of_cons; [left; reflexivity | auto].
      * intros k. rewrite Hlook.
        destruct (decide (k ∈ rest /\ k <> "")) as [Hd|Hd];
          destruct (decide (k ∈ "" :: rest /\ k <> "")) as [Hd'|Hd']; try reflexivity.
        -- exfalso. apply Hd'. destruct Hd as [Hin Hk]. split; [right; assumption|assumption].
        -- exfalso. destruct Hd' as [[->|Hin]%elem_of_cons Hk]; [congruence|]. apply Hd. split; assumption.
    + destruct (failOnErrorPredicates !! k0) as [p|] eqn:Hp; [|discriminate].
      intros Hl. destruct (IH _ Hl) as [Hrec Hlook]. split.
      * intros k [->|Hin]%elem_of_cons; [right; rewrite Hp; eauto | auto].
      * intros k. rewrite Hlook. cbn [failureConditions].
        destruct (decide (k ∈ rest /\ k <> "")) as [Hd|Hd];
          destruct (decide (k ∈ k0 :: rest /\ k <> "")) as [Hd'|Hd']; try reflexivity.
        -- exfalso. apply Hd'. destruct Hd as [Hin Hk]. split; [right; assumption|assumption].
        -- destruct Hd' as [[->|Hin]%elem_of_cons Hk].
           ++ rewrite lookup_insert_eq. congruence.
           ++ exfalso. apply Hd. split; assumption.
        -- rewrite lookup_insert_ne; [reflexivity|].
           intros <-. apply Hd'. split; [left|assumption].
Qed.

Lemma newErrorHandler_loop_succeeds range ks h0 :
  (forall k, k ∈ ks -> k = "" \/ is_Some (failOnErrorPredicates !! k)) ->
  exists h, newErrorHandler_loop range ks h0 = inl h.
Proof.
  revert h0. induction ks as [|k0 rest IH]; intros h0 Hall; cbn [newErrorHandler_loop].
  - eauto.
  - destruct (String.eqb_spec k0 "") as [->|Hne].
    + apply IH. intros k Hin. apply Hall. right. assumption.
    + destruct (Hall k0) as [?|[p Hp]]; [left|congruence|].
      rewrite Hp. apply IH. intros k Hin. apply Hall. right. assumption.
Qed.

Lemma Split_comma_nonempty s : GoStrings.Split_comma s <> [].
Proof.
  induction s as [|c s IH]; simpl; [discriminate|].
  destruct (Ascii.eqb c ","); [discriminate|].
  destruct (GoStrings.Split_comma s); discriminate.
Qed.

Lemma policyNames_lookup k :
  is_Some (failOnErrorPredicates !! k) <-> k ∈ policyNames.
Proof.
  rewrite failOnErrorPredicates_lookup. unfold policyNames.
  rewrite !elem_of_cons, elem_of_nil.
  repeat case_decide; subst; split; intros Hx; eauto; try (destruct Hx as [? [=]]).
  destruct Hx as [?|[?|[?|[]]]]; congruence.
Qed.

(** Claim C3.  Under any order of [range], and for every value [P] of the
    flag [failOnError]: the handler is built exactly when every piece of [P]
    between commas is empty or one of [import], [dsl], [all]; and the handler
    built reports an error [E] fatal if and only if some predicate named in
    [P] holds of [E], that is, if [import] is named and [E] is an import
    error, or [dsl] is named and [E] is not an import error, or [all] is
    named.  When [P] names no policy (all its pieces are empty), no error is
    fatal. *)
Theorem C3_fatal_iff_some_named_predicate :
  forall range, range_ok range ->
  forall P : string,
    ((exists h, newErrorHandler range P = inl h) <->
     (forall k, k ∈ GoStrings.Split_comma P -> k = "" \/ k ∈ policyNames)) /\
    forall h, newErrorHandler range P = inl h ->
    forall E : goError,
      (failOnParseError range h E = true <->
       exists k p, k ∈ GoStrings.Split_comma P /\
                   failOnErrorPredicates !! k = Some p /\ p E = true) /\
      (failOnParseError range h E = true <->
       ("import" ∈ GoStrings.Split_comma P /\ errors_As_ImportError E = true) \/
       ("dsl" ∈ GoStrings.Split_comma P /\ errors_As_ImportError E = false) \/
       "all" ∈ GoStrings.Split_comma P) /\
      ((forall k, k ∈ GoStrings.Split_comma P -> k = "") ->
       failOnParseError range h E = false).
Proof.
  intros range Hr P. unfold newErrorHandler. split.
  - split.
    + intros [h Hh]. destruct (newErrorHandler_loop_ok _ _ _ _ Hh) as [Hall _].
      intros k Hk. destruct (Hall k Hk) as [?|?]; [left; assumption|].
      right. apply policyNames_lookup. assumption.
    + intros Hall. apply newErrorHandler_loop_succeeds.
      intros k Hk. destruct (Hall k Hk) as [?|?]; [left; assumption|].
      right. apply policyNames_lookup. assumption.
  - intros h Hh E. destruct (newErrorHandler_loop_ok _ _ _ _ Hh) as [_ Hlook].
    assert (Hnamed : failOnParseError range h E = true <->
       exists k p, k ∈ GoStrings.Split_comma P /\
                   failOnErrorPredicates !! k = Some p /\ p E = true).
    { rewrite (failOnParseError_true range Hr). split.
      - intros (k & p & Hk & Hp). rewrite Hlook in Hk.
        destruct (decide (k ∈ GoStrings.Split_comma P /\ k <> "")) as [[Hin _]|_].
        + exists k, p. auto.
        + cbn in Hk. rewrite lookup_empty in Hk. discriminate.
      - intros (k & p & Hin & Hk & Hp). exists k, p. split; [|assumption].
        rewrite Hlook.
        destruct (decide (k ∈ GoStrings.Split_comma P /\ k <> "")) as [_|Hn]; [assumption|].
        exfalso. apply Hn. split; [assumption|]. intros ->.
        rewrite failOnErrorPredicates_lookup in Hk. repeat case_decide; discriminate. }
    split; [exact Hnamed|]. split.
    + rewrite Hnamed. split.
      * intros (k & p & Hin & Hk & Hp). rewrite failOnErrorPredicates_lookup in Hk.
        repeat case_decide; subst; try discriminate; injection Hk as <-.
        -- right; left. split; [assumption|]. destruct (errors_As_ImportError E); [discriminate|reflexivity].
        -- left. auto.
        -- right; right. assumption.
      * intros [[Hin HE]|[[Hin HE]|Hin]].
        -- exists "import", (fun err => errors_As_ImportError err). auto.
        -- exists "dsl", (fun err => negb (errors_As_ImportError err)).
           split; [assumption|]. split; [reflexivity|]. rewrite HE. reflexivity.
        -- exists "all", (fun _ => true). auto.
    + intros Hempty. apply not_true_is_false. rewrite Hnamed.
      intros (k & p & Hin & Hk & _). rewrite (Hempty k Hin) in Hk.
      rewrite failOnErrorPredicates_lookup in Hk. repeat case_decide; discriminate.
Qed.

Lemma Example_range_ok : range_ok (range Example.world).
Proof. intros A m. reflexivity. Qed.

Lemma C3_witness :
  failOnParseError (range Example.world) Example.importOnly
                   Example.importFailure = true <->
  ("import" ∈ GoStrings.Split_comma "import" /\
     errors_As_ImportError Example.importFailure = true) \/
  ("dsl" ∈ GoStrings.Split_comma "import" /\
     errors_As_ImportError Example.importFailure = false) \/
  "all" ∈ GoStrings.Split_comma "import".
Proof.
  pose proof (C3_fatal_iff_some_named_predicate (range Example.world) Example_range_ok "import") as [_ H].
  specialize (H Example.importOnly). 
  assert (Heq : newErrorHandler (range Example.world) "import" = inl Example.importOnly) by (vm_compute; reflexivity).
  destruct (H Heq Example.importFailure) as (_ & H2 & _).
  exact H2.
Defined.

(** *** The construction *)

Lemma forEach_app {w A} (body : A -> Init w unit) xs ys st :
  forEach body (xs ++ ys) st =
    match forEach body xs st with
    | (Continue _, st') => forEach body ys st'
    | (Return err, st') => (Return err, st')
    end.
Proof.
  revert st. induction xs as [|x xs IH]; intros st; simpl.
  - reflexivity.
  - unfold bind. destruct (body x st) as [[[]|err] st']; [apply IH|reflexivity].
Qed.

Lemma after_after {w} (st : initState w) ev1 ev2 :
  after (after st ev1) ev2 = after st (ev1 ++ ev2).
Proof. unfold after; simpl. rewrite <- app_assoc. reflexivity. Qed.

Lemma loadPattern_bad_glob w h filePattern filenames e st :
  Glob w (TrimSpace w filePattern) = (filenames, Some e) ->
  loadPattern w h filePattern st =
    (Continue tt, after st [EvGlob (TrimSpace w filePattern);
                            EvLog ("ruleguard init error: " +:+ Error e)]).
Proof.
  intros HG. unfold loadPattern, filepath_Glob, bind, emit, ret, log_Printf, emit, after.
  simpl. rewrite HG. simpl. rewrite <- app_assoc. reflexivity.
Qed.

Lemma loadPattern_no_match w h filePattern st :
  Glob w (TrimSpace w filePattern) = ([], None) ->
  loadPattern w h filePattern st =
    (Return (fmt_Errorf ("ruleguard init error: no file matching '" +:+
                         TrimSpace w filePattern +:+ "'")),
     after st [EvGlob (TrimSpace w filePattern)]).
Proof.
  intros HG. unfold loadPattern, filepath_Glob, bind, emit, ret, exit, after.
  simpl. rewrite HG. reflexivity.
Qed.

(** Claim C9.  When [filepath.Glob] rejects a pattern as malformed, the body
    of the pattern loop writes one log line (the text of Glob's error) and
    does nothing else: no file is read, nothing is loaded, the counter and the
    engine stay as they are, and the loop goes on with the remaining patterns.
    This holds for every handler [h], so under every failure policy. *)
Theorem C9_malformed_glob_is_logged_and_skipped :
  forall (w : World) (h : parseErrorHandler) (filePattern : string)
         (filenames : list string) (e : goError) (st : initState w),
    Glob w (TrimSpace w filePattern) = (filenames, Some e) ->
    loadPattern w h filePattern st =
      (Continue tt, after st [EvGlob (TrimSpace w filePattern);
                              EvLog ("ruleguard init error: " +:+ Error e)]) /\
    forall rest : list string,
      loadPatterns w h (filePattern :: rest) st =
        loadPatterns w h rest
          (after st [EvGlob (TrimSpace w filePattern);
                     EvLog ("ruleguard init error: " +:+ Error e)]).
Proof.
  intros w h filePattern filenames e st HG.
  pose proof (loadPattern_bad_glob w h filePattern filenames e st HG) as Hp.
  split; [exact Hp|].
  intros rest. unfold loadPatterns. simpl. unfold bind. rewrite Hp. reflexivity.
Qed.

Lemma C9_witness :
  loadPatterns Example.world Example.importOnly ["["; "rules-a.txt"] (initialState Example.world) =
    loadPatterns Example.world Example.importOnly ["rules-a.txt"]
      (after (initialState Example.world)
         [EvGlob "["; EvLog "ruleguard init error: syntax error in pattern"]).
Proof.
  apply (C9_malformed_glob_is_logged_and_skipped Example.world Example.importOnly "["
           [] (errorString "syntax error in pattern") (initialState Example.world)).
  reflexivity.
Defined.

(** Claim C5.  A pattern that [filepath.Glob] expands without error to no
    file makes the resolution fail, for every handler [h] (every failure
    policy, the empty one included): the loop over the patterns returns an
    error wherever the pattern stands in the list, and the error is
    [no file matching '<pattern>'] with the pattern as passed to Glob as soon
    as the patterns before it got through.  For the constructor: with any
    accepted policy, a rules flag that contains such a pattern yields an
    error, and a rules flag that is this pattern alone yields the error that
    names it, after the one call to Glob. *)
Theorem C5_pattern_without_match_is_fatal :
  forall (w : World) (filePattern : string),
    Glob w (TrimSpace w filePattern) = ([], None) ->
    let noMatch := fmt_Errorf ("ruleguard init error: no file matching '" +:+
                               TrimSpace w filePattern +:+ "'") in
    (forall (h : parseErrorHandler) (st : initState w) (before rest : list string),
       (exists err st',
          loadPatterns w h (before ++ filePattern :: rest) st = (Return err, st')) /\
       (forall st1, loadPatterns w h before st = (Continue tt, st1) ->
          loadPatterns w h (before ++ filePattern :: rest) st =
            (Return noMatch, after st1 [EvGlob (TrimSpace w filePattern)]))) /\
    (forall (params : CheckerParams) (ctx0 : CheckerContext w) (h : parseErrorHandler),
       newErrorHandler (range w) (failOnError params) = inl h ->
       rules params <> "" ->
       (filePattern ∈ GoStrings.Split_comma (rules params) ->
        exists err, (newRuleguardChecker w params ctx0).1 = Return err) /\
       (GoStrings.Split_comma (rules params) = [filePattern] ->
        newRuleguardChecker w params ctx0 =
          (Return noMatch, [EvGlob (TrimSpace w filePattern)]))).
Proof.
  intros w filePattern HG noMatch.
  assert (Hlist : forall h st before rest,
    (exists err st',
       loadPatterns w h (before ++ filePattern :: rest) st = (Return err, st')) /\
    (forall st1, loadPatterns w h before st = (Continue tt, st1) ->
       loadPatterns w h (before ++ filePattern :: rest) st =
         (Return noMatch, after st1 [EvGlob (TrimSpace w filePattern)]))).
  { intros h st before rest. unfold loadPatterns. rewrite forEach_app.
    destruct (forEach (loadPattern w h) before st) as [[[]|err] st1] eqn:Hb.
    - assert (Hhere : forEach (loadPattern w h) (filePattern :: rest) st1 =
                      (Return noMatch, after st1 [EvGlob (TrimSpace w filePattern)])).
      { simpl. unfold bind. rewrite (loadPattern_no_match w h filePattern st1 HG). reflexivity. }
      split.
      + eauto.
      + intros st2 [= <-]. exact Hhere.
    - split; [eauto|]. intros st2 [=]. }
  split; [exact Hlist|].
  intros params ctx0 h Hh Hrules. unfold newRuleguardChecker.
  destruct (String.eqb_spec (rules params) "") as [?|_]; [contradiction|].
  rewrite Hh. split.
  - intros (before & rest & ->)%list_elem_of_split.
    destruct (Hlist h (initialState w) before rest) as [(err & st' & ->) _].
    simpl. eauto.
  - intros ->.
    destruct (Hlist h (initialState w) [] []) as [_ Hnamed].
    simpl app in Hnamed. rewrite (Hnamed (initialState w) eq_refl). reflexivity.
Qed.

Lemma C5_witness :
  newRuleguardChecker Example.world
    {| rules := "missing-*.txt"; debug := ""; failOnError := "" |} Example.context =
  (Return (fmt_Errorf "ruleguard init error: no file matching 'missing-*.txt'"),
   [EvGlob "missing-*.txt"]).
Proof.
  apply (C5_pattern_without_match_is_fatal Example.world "missing-*.txt" eq_refl)
    with (h := {| failureConditions := ∅ |}); [reflexivity | discriminate | reflexivity].
Defined.

(** Every file that gets through the body of the inner loop is counted,
    whatever [ReadFile] and [Load] returned. *)
Lemma loadFile_counts w h filename st st' :
  loadFile w h filename st = (Continue tt, st') ->
  st_loaded st' = int_wrap (st_loaded st + 1) /\
  exists events, st_events st' =
    st_events st ++ EvReadFile filename :: events /\
    EvLoad filename (ReadFile w filename).1 ∈ events.
Proof.
  unfold loadFile, ioutil_ReadFile, engine_Load, onLoadError, loaded_incr,
    log_Printf, bind, emit, ret, exit. simpl.
  destruct (ReadFile w filename) as [data err]. simpl.
  destruct err as [e|]; simpl.
  - destruct (failOnParseError (range w) h e); simpl; [discriminate|].
    destruct (Load w (st_engine st) filename data) as [e' err'] eqn:HL; simpl.
    destruct err' as [e2|]; simpl.
    + destruct (failOnParseError (range w) h e2); simpl; [discriminate|].
      intros [= <-]. simpl. split; [reflexivity|].
      eexists. rewrite <- !app_assoc. simpl. split; [reflexivity|].
      right. left.
    + intros [= <-]. simpl. split; [reflexivity|].
      eexists. rewrite <- !app_assoc. simpl. split; [reflexivity|].
      right. left.
  - destruct (Load w (st_engine st) filename data) as [e' err'] eqn:HL; simpl.
    destruct err' as [e2|]; simpl.
    + destruct (failOnParseError (range w) h e2); simpl; [discriminate|].
      intros [= <-]. simpl. split; [reflexivity|].
      eexists. rewrite <- !app_assoc. simpl. split; [reflexivity|].
      left.
    + intros [= <-]. simpl. split; [reflexivity|].
      eexists. rewrite <- !app_assoc. simpl. split; [reflexivity|].
      left.
Qed.

(** Claim C2 (the code departs from it).  One rule file [bad.go] whose
    content the engine rejects with a syntax error, under the policy
    [import]: the error is not fatal and the skip is logged, but the body of
    the loop goes on to [loaded++], so the counter is 1 and the checker is
    returned with an engine (one that has loaded nothing), where the claim has
    no engine. *)
Theorem C2_skipped_file_is_counted_as_loaded :
  GoStrings.Split_comma "bad.go" = ["bad.go"] /\
  Glob Example.world "bad.go" = (["bad.go"], None) /\
  Load Example.world (NewEngine Example.world) "bad.go" (ReadFile Example.world "bad.go").1 =
    ([], Some (errorString "bad.go: syntax error")) /\
  failOnParseError (range Example.world) Example.importOnly
    (errorString "bad.go: syntax error") = false /\
  loadPatterns Example.world Example.importOnly ["bad.go"] (initialState Example.world) =
    (Continue tt,
     Build_initState Example.world [] 1
       [EvGlob "bad.go"; EvReadFile "bad.go"; EvLoad "bad.go" "func {";
        EvLog "ruleguard init error, skip bad.go: bad.go: syntax error"]) /\
  newRuleguardChecker Example.world
    {| rules := "bad.go"; debug := ""; failOnError := "import" |} Example.context =
  (Continue (Build_ruleguardChecker Example.world Example.context "" (Some [])),
   [EvGlob "bad.go"; EvReadFile "bad.go"; EvLoad "bad.go" "func {";
    EvLog "ruleguard init error, skip bad.go: bad.go: syntax error"]).
Proof. repeat split; vm_compute; reflexivity. Qed.

Lemma newErrorHandler_unknown range flag k :
  k ∈ GoStrings.Split_comma flag -> k <> "" -> k ∉ policyNames ->
  exists k', k' ∈ GoStrings.Split_comma flag /\ k' <> "" /\ (k' ∉ policyNames) /\
    newErrorHandler range flag =
      inr (initErrorInvalidFlag k' ((range _ failOnErrorPredicates).*1)).
Proof.
  unfold newErrorHandler. generalize {| failureConditions := ∅ |}.
  induction (GoStrings.Split_comma flag) as [|k0 rest IH]; intros h0 Hin Hne Hnot.
  - inversion Hin.
  - cbn [newErrorHandler_loop].
    destruct (String.eqb_spec k0 "") as [->|Hk0].
    + apply elem_of_cons in Hin as [->|Hin]; [congruence|].
      destruct (IH h0 Hin Hne Hnot) as (k' & Hk' & ? & ? & ->).
      exists k'. repeat split; try assumption. right. assumption.
    + destruct (failOnErrorPredicates !! k0) as [p|] eqn:Hp.
      * apply elem_of_cons in Hin as [->|Hin].
        { exfalso. apply Hnot. apply policyNames_lookup. rewrite Hp. eauto. }
        destruct (IH {| failureConditions := <[k0:=p]> (failureConditions h0) |} Hin Hne Hnot)
          as (k' & Hk' & ? & ? & ->).
        exists k'. repeat split; try assumption. right. assumption.
      * exists k0. repeat split; try assumption; [left|].
        intros Hpol%policyNames_lookup. rewrite Hp in Hpol. destruct Hpol as [? [=]].
Qed.

(** *** The text of the error for an unknown policy name *)

Lemma prefix_app (s rest : string) : String.prefix s (s +:+ rest) = true.
Proof.
  induction s as [|c s IH]; simpl.
  - destruct rest; reflexivity.
  - destruct (ascii_dec c c) as [_|Hn]; [exact IH|congruence].
Qed.

Lemma prefix_app_l (sub s rest : string) :
  String.prefix sub s = true -> String.prefix sub (s +:+ rest) = true.
Proof.
  revert s. induction sub as [|c sub IH]; intros s; simpl.
  - intros _. destruct (s +:+ rest); reflexivity.
  - destruct s as [|c' s]; simpl; [discriminate|].
    destruct (ascii_dec c c'); [apply IH|discriminate].
Qed.

Lemma Contains_app_r (s1 s2 sub : string) :
  GoStrings.Contains s2 sub = true -> GoStrings.Contains (s1 +:+ s2) sub = true.
Proof.
  intros H. induction s1 as [|c s1 IH]; simpl; [exact H|].
  rewrite IH. apply orb_true_r.
Qed.

Lemma Contains_app_l (s1 s2 sub : string) :
  GoStrings.Contains s1 sub = true -> GoStrings.Contains (s1 +:+ s2) sub = true.
Proof.
  induction s1 as [|c s1 IH]; simpl.
  - rewrite orb_false_r. intros H. destruct sub; [|discriminate].
    destruct s2; reflexivity.
  - intros [H|H]%orb_true_iff.
    + apply orb_true_iff. left.
      apply (prefix_app_l sub (String c s1) s2 H).
    + rewrite (IH H). apply orb_true_r.
Qed.

Lemma Contains_here (sub rest : string) : GoStrings.Contains (sub +:+ rest) sub = true.
Proof.
  assert (Hu : forall s, String.prefix sub s = true -> GoStrings.Contains s sub = true).
  { intros s Hp. destruct s; simpl in *; rewrite Hp; reflexivity. }
  apply Hu, prefix_app.
Qed.

Lemma Contains_refl (s : string) : GoStrings.Contains s s = true.
Proof.
  assert (Hp : forall s, String.prefix s s = true).
  { clear s. induction s as [|c s IH]; simpl; [reflexivity|].
    destruct (ascii_dec c c); [exact IH|congruence]. }
  destruct s; simpl; [reflexivity|].
  destruct (ascii_dec a a); [|congruence]. rewrite Hp. reflexivity.
Qed.

Lemma Contains_Join (elems : list string) (sep v : string) :
  v ∈ elems -> GoStrings.Contains (GoStrings.Join elems sep) v = true.
Proof.
  induction elems as [|x [|y rest] IH]; intros Hin.
  - inversion Hin.
  - apply elem_of_cons in Hin as [->|Hin]; [|inversion Hin]. simpl. apply Contains_refl.
  - apply elem_of_cons in Hin as [->|Hin].
    + cbn [GoStrings.Join]. apply Contains_here.
    + cbn [GoStrings.Join]. apply Contains_app_r, Contains_app_r, IH, Hin.
Qed.

Lemma range_failOnErrorPredicates range :
  range_ok range -> (range _ failOnErrorPredicates).*1 ≡ₚ policyNames.
Proof.
  intros Hr. rewrite (Hr _ failOnErrorPredicates).
  replace ((map_to_list failOnErrorPredicates).*1) with ["import"; "all"; "dsl"]
    by (vm_compute; reflexivity).
  unfold policyNames. apply perm_skip, perm_swap.
Qed.

Lemma initErrorInvalidFlag_names (k : string) (supportedValues : list string) (v : string) :
  v = k \/ v ∈ supportedValues ->
  GoStrings.Contains (Error (initErrorInvalidFlag k supportedValues)) v = true.
Proof.
  unfold initErrorInvalidFlag, fmt_Errorf, Error. intros [->|Hin].
  - apply Contains_app_r, Contains_here.
  - apply Contains_app_r, Contains_app_r, Contains_app_r, Contains_app_l, Contains_Join, Hin.
Qed.

(** Claim C4, as amended.  When the rules flag is not empty and the flag
    [failOnError] has a non-empty piece that is not one of [import], [dsl],
    [all], construction returns an error before any rule loading: no pattern
    is expanded, no file read, nothing logged.  The error is the one for the
    first such piece [k]; its text contains [k] and each of the three valid
    names, in whatever order [range] yields them. *)
Theorem C4_unknown_policy_name_fails_when_rules_are_given :
  forall (w : World), range_ok (range w) ->
  forall (params : CheckerParams) (ctx0 : CheckerContext w) (name : string),
    rules params <> "" ->
    name ∈ GoStrings.Split_comma (failOnError params) ->
    name <> "" ->
    name ∉ policyNames ->
    exists (k : string) (supportedValues : list string),
      k ∈ GoStrings.Split_comma (failOnError params) /\ k <> "" /\ (k ∉ policyNames) /\
      newRuleguardChecker w params ctx0 =
        (Return (initErrorInvalidFlag k supportedValues), []) /\
      supportedValues ≡ₚ policyNames /\
      GoStrings.Contains (Error (initErrorInvalidFlag k supportedValues)) k = true /\
      forall valid, valid ∈ policyNames ->
        GoStrings.Contains (Error (initErrorInvalidFlag k supportedValues)) valid = true.
Proof.
  intros w Hr params ctx0 name Hrules Hin Hne Hnot.
  destruct (newErrorHandler_unknown (range w) _ _ Hin Hne Hnot) as (k & Hk & Hkne & Hknot & Hh).
  exists k, ((range w _ failOnErrorPredicates).*1).
  pose proof (range_failOnErrorPredicates (range w) Hr) as Hperm.
  repeat split; try assumption.
  - unfold newRuleguardChecker.
    destruct (String.eqb_spec (rules params) "") as [?|_]; [contradiction|].
    rewrite Hh. reflexivity.
  - apply initErrorInvalidFlag_names. left. reflexivity.
  - intros valid Hv. apply initErrorInvalidFlag_names. right.
    rewrite Hperm. exact Hv.
Qed.

Lemma C4_witness :
  exists (k : string) (supportedValues : list string),
    k ∈ GoStrings.Split_comma "bogus,all" /\ k <> "" /\ (k ∉ policyNames) /\
    newRuleguardChecker Example.world
      {| rules := "rules-a.txt"; debug := ""; failOnError := "bogus,all" |} Example.context =
      (Return (initErrorInvalidFlag k supportedValues), []) /\
    supportedValues ≡ₚ policyNames /\
    GoStrings.Contains (Error (initErrorInvalidFlag k supportedValues)) k = true /\
    forall valid, valid ∈ policyNames ->
      GoStrings.Contains (Error (initErrorInvalidFlag k supportedValues)) valid = true.
Proof.
  apply (C4_unknown_policy_name_fails_when_rules_are_given Example.world Example_range_ok
           {| rules := "rules-a.txt"; debug := ""; failOnError := "bogus,all" |}
           Example.context "bogus").
  - discriminate.
  - left.
  - discriminate.
  - unfold policyNames. rewrite !elem_of_cons, elem_of_nil.
    intros [[=]|[[=]|[[=]|[]]]].
Defined.

(** Claim C4, as stated, fails when the rules flag is empty: the name
    [bogus] is not a policy name, and construction returns the idle checker
    and no error. *)
Lemma C4_counterexample :
  "bogus" ∈ GoStrings.Split_comma "bogus" /\
  ("bogus" ∉ policyNames) /\
  newRuleguardChecker Example.world
    {| rules := ""; debug := ""; failOnError := "bogus" |} Example.context =
  (Continue Example.idle, []).
Proof.
  split; [left|]. split; [|reflexivity].
  unfold policyNames. rewrite !elem_of_cons, elem_of_nil.
  intros [[=]|[[=]|[[=]|[]]]].
Qed.

(** Claim C10.  With an empty rules flag, construction returns a checker
    without engine, no error and no event, whatever the flag [failOnError]
    holds; this includes every flag that [newErrorHandler] would reject for a
    name outside [import], [dsl], [all]. *)
Theorem C10_empty_rules_skip_the_policy_check :
  forall (w : World) (debugFlag failOnErrorFlag : string) (ctx0 : CheckerContext w),
    newRuleguardChecker w
      {| rules := ""; debug := debugFlag; failOnError := failOnErrorFlag |} ctx0 =
      (Continue {| ctx := ctx0; debugGroup := debugFlag; engine := None |}, []) /\
    forall name,
      name ∈ GoStrings.Split_comma failOnErrorFlag -> name <> "" -> name ∉ policyNames ->
      exists err, newErrorHandler (range w) failOnErrorFlag = inr err.
Proof.
  intros w debugFlag failOnErrorFlag ctx0. split; [reflexivity|].
  intros name Hin Hne Hnot.
  destruct (newErrorHandler_unknown (range w) _ _ Hin Hne Hnot) as (k & _ & _ & _ & ->).
  eauto.
Qed.

Lemma C10_witness :
  newRuleguardChecker Example.world
    {| rules := ""; debug := "group"; failOnError := "bogus" |} Example.context =
    (Continue {| ctx := Example.context; debugGroup := "group"; engine := None |}, []) /\
  exists err, newErrorHandler (range Example.world) "bogus" = inr err.
Proof.
  destruct (C10_empty_rules_skip_the_policy_check Example.world "group" "bogus" Example.context)
    as [Hidle Hreject].
  split; [exact Hidle|].
  apply (Hreject "bogus").
  - left.
  - discriminate.
  - unfold policyNames. rewrite !elem_of_cons, elem_of_nil.
    intros [[=]|[[=]|[[=]|[]]]].
Defined.

(** *** The order of Go strings *)

Lemma ascii_compare_refl (c : ascii) : Ascii.compare c c = Eq.
Proof. unfold Ascii.compare. apply N.compare_refl. Qed.

Lemma string_compare_refl (s : string) : String.compare s s = Eq.
Proof.
  induction s as [|c s IH]; simpl; [reflexivity|].
  rewrite ascii_compare_refl. exact IH.
Qed.

Lemma string_compare_trans_le (a b c : string) :
  String.compare a b <> Gt -> String.compare b c <> Gt -> String.compare a c <> Gt.
Proof.
  revert b c. induction a as [|x a IH]; intros [|y b] [|z c]; simpl; try congruence.
  unfold Ascii.compare.
  destruct (N.compare_spec (N_of_ascii x) (N_of_ascii y)) as [Exy|Exy|Exy];
    destruct (N.compare_spec (N_of_ascii y) (N_of_ascii z)) as [Eyz|Eyz|Eyz];
    destruct (N.compare_spec (N_of_ascii x) (N_of_ascii z)) as [Exz|Exz|Exz];
    intros Hab Hbc; try congruence; try (apply IH with b; assumption);
    exfalso; lia.
Qed.

Lemma lt_leb (a b : string) : GoStrings.lt b a = false <-> String.leb a b = true.
Proof.
  unfold GoStrings.lt, String.ltb, String.leb. rewrite (String.compare_antisym a b).
  destruct (String.compare b a); simpl; split; congruence.
Qed.

Lemma lt_irrefl (a : string) : GoStrings.lt a a = false.
Proof. unfold GoStrings.lt, String.ltb. rewrite string_compare_refl. reflexivity. Qed.

Lemma lt_asym (a b : string) : GoStrings.lt a b = true -> GoStrings.lt b a = false.
Proof.
  unfold GoStrings.lt, String.ltb. rewrite (String.compare_antisym a b).
  destruct (String.compare b a); simpl; congruence.
Qed.

Lemma leb_trans (a b c : string) :
  String.leb a b = true -> String.leb b c = true -> String.leb a c = true.
Proof.
  unfold String.leb. intros Hab Hbc.
  pose proof (string_compare_trans_le a b c) as H.
  destruct (String.compare a b), (String.compare b c), (String.compare a c);
    try reflexivity; try discriminate; exfalso; apply H; congruence.
Qed.


#[local] Instance string_le_trans : Transitive string_le.
Proof. intros a b c. apply leb_trans. Qed.

#[local] Instance string_le_antisym : AntiSymm eq string_le.
Proof. intros a b. apply String.leb_antisym. Qed.

#[local] Instance string_le_total : Total string_le.
Proof. intros a b. apply String.leb_total. Qed.

#[local] Instance string_le_dec (a b : string) : Decision (string_le a b).
Proof. unfold string_le. apply _. Defined.

(** *** The sort of the Go library: ranges of a slice *)

Import SortSpec.

Ltac splits := repeat match goal with |- _ /\ _ => split end.

Section Ranges.

Context {A : Type}.

Local Open Scope nat_scope.

Lemma Swap_length (data : list A) i j : length (GoSort.Swap data i j) = length data.
Proof.
  unfold GoSort.Swap. destruct (data !! i), (data !! j); try reflexivity.
  rewrite !length_insert. reflexivity.
Qed.

Lemma Swap_lookup (data : list A) i j k :
  i < length data -> j < length data ->
  GoSort.Swap data i j !! k =
    if decide (k = j) then data !! i else if decide (k = i) then data !! j else data !! k.
Proof.
  intros Hi Hj. unfold GoSort.Swap.
  destruct (lookup_lt_is_Some_2 data i Hi) as [x Hx].
  destruct (lookup_lt_is_Some_2 data j Hj) as [y Hy].
  rewrite Hx, Hy.
  destruct (decide (k = j)) as [->|Hkj].
  - rewrite list_lookup_insert_eq by (rewrite length_insert; lia). reflexivity.
  - rewrite list_lookup_insert_ne by congruence.
    destruct (decide (k = i)) as [->|Hki].
    + rewrite list_lookup_insert_eq by lia. reflexivity.
    + rewrite list_lookup_insert_ne by congruence. reflexivity.
Qed.

Lemma Swap_perm (data : list A) i j : GoSort.Swap data i j ≡ₚ data.
Proof.
  unfold GoSort.Swap.
  destruct (data !! i) as [x|] eqn:Hx; [|reflexivity].
  destruct (data !! j) as [y|] eqn:Hy; [|reflexivity].
  destruct (decide (i = j)) as [->|Hij].
  - assert (x = y) as -> by congruence.
    rewrite list_insert_insert_eq, list_insert_id by assumption. reflexivity.
  - symmetry. apply Permutation_inj. split.
    + rewrite !length_insert. reflexivity.
    + exists (fun k => if decide (k = i) then j else if decide (k = j) then i else k).
      split.
      * intros k1 k2. repeat case_decide; subst; congruence.
      * intros k. 
        assert (Hi : i < length data) by (apply lookup_lt_is_Some; eauto).
        assert (Hj : j < length data) by (apply lookup_lt_is_Some; eauto).
        repeat case_decide; subst.
        -- rewrite list_lookup_insert_eq by (rewrite length_insert; lia). congruence.
        -- rewrite list_lookup_insert_ne by congruence.
           rewrite list_lookup_insert_eq by lia. congruence.
        -- rewrite !list_lookup_insert_ne by congruence. reflexivity.
Qed.

Lemma rearranged_refl a b (data : list A) : rearranged a b data data.
Proof. repeat split; eauto. Qed.

Lemma rearranged_trans a b (d1 d2 d3 : list A) :
  rearranged a b d1 d2 -> rearranged a b d2 d3 -> rearranged a b d1 d3.
Proof.
  intros (L1 & P1 & O1 & I1) (L2 & P2 & O2 & I2). repeat split.
  - congruence.
  - etransitivity; eassumption.
  - intros i Hi. rewrite O2, O1 by assumption. reflexivity.
  - intros i x Hi Hx. destruct (I2 i x Hi Hx) as (j & Hj & Hxj). eauto.
Qed.

Lemma rearranged_weaken a b a' b' (d d' : list A) :
  a' <= a -> b <= b' -> rearranged a b d d' -> rearranged a' b' d d'.
Proof.
  intros Ha Hb (L & P & O & I). repeat split; try assumption.
  - intros i Hi. apply O. lia.
  - intros i x Hi Hx.
    destruct (decide (a <= i < b)) as [Hin|Hout].
    + destruct (I i x Hin Hx) as (j & Hj & Hxj). exists j. split; [lia|assumption].
    + exists i. split; [assumption|]. rewrite <- O by lia. assumption.
Qed.

Lemma Swap_rearranged a b (data : list A) i j :
  a <= i < b -> a <= j < b -> rearranged a b data (GoSort.Swap data i j).
Proof.
  intros Hi Hj.
  destruct (decide (i < length data /\ j < length data)) as [[Li Lj]|Hout].
  - repeat split.
    + apply Swap_length.
    + apply Swap_perm.
    + intros k Hk. rewrite Swap_lookup by assumption.
      repeat case_decide; subst; try lia. reflexivity.
    + intros k x Hk. rewrite Swap_lookup by assumption.
      repeat case_decide; subst; eauto.
  - assert (GoSort.Swap data i j = data) as ->; [|apply rearranged_refl].
    unfold GoSort.Swap.
    destruct (data !! i) eqn:Hx; [|reflexivity].
    destruct (data !! j) eqn:Hy; [|reflexivity].
    exfalso. apply Hout. split; apply lookup_lt_is_Some; eauto.
Qed.

Lemma rearranged_rangeAll (P : A -> Prop) a b (d d' : list A) :
  rearranged a b d d' -> rangeAll P a b d -> rangeAll P a b d'.
Proof.
  intros (_ & _ & _ & I) H i x Hi Hx.
  destruct (I i x Hi Hx) as (j & Hj & Hxj). eauto.
Qed.

Lemma rearranged_rangeAll_outside (P : A -> Prop) a b a' b' (d d' : list A) :
  rearranged a b d d' -> (b' <= a \/ b <= a') ->
  rangeAll P a' b' d -> rangeAll P a' b' d'.
Proof.
  intros (_ & _ & O & _) Hd H i x Hi Hx. apply (H i x Hi).
  rewrite <- O by lia. assumption.
Qed.

End Ranges.

Section Pivot.

Context {A : Type} (less : A -> A -> bool).

Local Open Scope nat_scope.

Hypothesis less_asym : forall x y, less x y = true -> less y x = false.
Hypothesis less_trans :
  forall x y z, less y x = false -> less z y = false -> less z x = false.

Lemma Less_eq (data : list A) i j x y :
  data !! i = Some x -> data !! j = Some y -> GoSort.Less less data i j = less x y.
Proof. intros Hx Hy. unfold GoSort.Less. rewrite Hx, Hy. reflexivity. Qed.

Lemma scan_up_spec n i cond :
  let i' := GoSort.scan_up n i cond in
  i <= i' <= i + n /\
  (forall k, i <= k < i' -> cond k = true) /\
  (i' < i + n -> cond i' = false).
Proof.
  revert i. induction n as [|n IH]; intros i; simpl.
  - repeat split; intros; lia.
  - destruct (cond i) eqn:Hc.
    + destruct (IH (S i)) as (Hb & Hall & Hstop). repeat split; try lia.
      * intros k Hk. destruct (decide (k = i)) as [->|]; [assumption|].
        apply Hall. lia.
      * intros Hlt. apply Hstop. lia.
    + repeat split; try lia. intros; assumption.
Qed.

Lemma scan_down_spec n i cond :
  n <= i ->
  let i' := GoSort.scan_down n i cond in
  i - n <= i' <= i /\
  (forall k, i' <= k < i -> cond k = true) /\
  (i - n < i' -> cond (i' - 1) = false).
Proof.
  revert i. induction n as [|n IH]; intros i Hn; simpl.
  - repeat split; intros; lia.
  - destruct (cond (i - 1)) eqn:Hc.
    + destruct (IH (i - 1)) as (Hb & Hall & Hstop); [lia|]. repeat split; try lia.
      * intros k Hk. destruct (decide (k = i - 1)) as [->|]; [assumption|].
        apply Hall. lia.
      * intros Hlt. apply Hstop. lia.
    + repeat split; try lia. intros; assumption.
Qed.

Lemma medianOfThree_rearranged (data : list A) a b m1 m0 m2 :
  a <= m1 < b -> a <= m0 < b -> a <= m2 < b ->
  rearranged a b data (GoSort.medianOfThree_func less data m1 m0 m2).
Proof.
  intros H1 H0 H2. unfold GoSort.medianOfThree_func.
  set (d1 := if GoSort.Less less data m1 m0 then GoSort.Swap data m1 m0 else data).
  assert (R1 : rearranged a b data d1).
  { unfold d1. destruct (GoSort.Less less data m1 m0);
      [apply Swap_rearranged; assumption|apply rearranged_refl]. }
  destruct (GoSort.Less less d1 m2 m1); [|exact R1].
  assert (R2 : rearranged a b data (GoSort.Swap d1 m2 m1)).
  { eapply rearranged_trans; [exact R1|]. apply Swap_rearranged; assumption. }
  destruct (GoSort.Less less (GoSort.Swap d1 m2 m1) m1 m0); [|exact R2].
  eapply rearranged_trans; [exact R2|]. apply Swap_rearranged; assumption.
Qed.

(** After [medianOfThree_func], the element at [m1] is not above the one
    at [m2]. *)
Lemma medianOfThree_order (data : list A) m1 m0 m2 x y :
  m1 < length data -> m0 < length data -> m2 < length data ->
  m1 <> m0 -> m1 <> m2 -> m0 <> m2 ->
  GoSort.medianOfThree_func less data m1 m0 m2 !! m1 = Some x ->
  GoSort.medianOfThree_func less data m1 m0 m2 !! m2 = Some y ->
  less y x = false.
Proof.
  intros L1 L0 L2 N10 N12 N02.
  destruct (lookup_lt_is_Some_2 data m1 L1) as [v1 Hv1].
  destruct (lookup_lt_is_Some_2 data m0 L0) as [v0 Hv0].
  destruct (lookup_lt_is_Some_2 data m2 L2) as [v2 Hv2].
  unfold GoSort.medianOfThree_func.
  rewrite (Less_eq data m1 m0 v1 v0 Hv1 Hv0).
  destruct (less v1 v0) eqn:H10.
  - (* swapped: m1 holds v0, m0 holds v1 *)
    assert (E1 : GoSort.Swap data m1 m0 !! m1 = Some v0)
      by (rewrite Swap_lookup by assumption; repeat case_decide; congruence).
    assert (E0 : GoSort.Swap data m1 m0 !! m0 = Some v1)
      by (rewrite Swap_lookup by assumption; repeat case_decide; congruence).
    assert (E2 : GoSort.Swap data m1 m0 !! m2 = Some v2)
      by (rewrite Swap_lookup by assumption; repeat case_decide; congruence).
    rewrite (Less_eq _ m2 m1 v2 v0 E2 E1).
    destruct (less v2 v0) eqn:H20.
    + set (d2 := GoSort.Swap (GoSort.Swap data m1 m0) m2 m1).
      assert (Ld : length (GoSort.Swap data m1 m0) = length data) by apply Swap_length.
      assert (F1 : d2 !! m1 = Some v2)
        by (unfold d2; rewrite Swap_lookup by lia; repeat case_decide; congruence).
      assert (F0 : d2 !! m0 = Some v1)
        by (unfold d2; rewrite Swap_lookup by lia; repeat case_decide; congruence).
      assert (F2 : d2 !! m2 = Some v0)
        by (unfold d2; rewrite Swap_lookup by lia; repeat case_decide; congruence).
      rewrite (Less_eq d2 m1 m0 v2 v1 F1 F0).
      assert (Ld2 : length d2 = length data) by (unfold d2; rewrite Swap_length; exact Ld).
      destruct (less v2 v1) eqn:H21.
      * rewrite !Swap_lookup by lia. repeat case_decide; try congruence.
        all: rewrite F0, F2; intros [= <-] [= <-]; apply less_asym; exact H10.
      * rewrite F1, F2. intros [= <-] [= <-]. apply less_asym. exact H20.
    + rewrite E1, E2. intros [= <-] [= <-]. exact H20.
  - rewrite (Less_eq _ m2 m1 v2 v1 Hv2 Hv1).
    destruct (less v2 v1) eqn:H21.
    + set (d2 := GoSort.Swap data m2 m1).
      assert (F1 : d2 !! m1 = Some v2)
        by (unfold d2; rewrite Swap_lookup by lia; repeat case_decide; congruence).
      assert (F0 : d2 !! m0 = Some v0)
        by (unfold d2; rewrite Swap_lookup by lia; repeat case_decide; congruence).
      assert (F2 : d2 !! m2 = Some v1)
        by (unfold d2; rewrite Swap_lookup by lia; repeat case_decide; congruence).
      rewrite (Less_eq d2 m1 m0 v2 v0 F1 F0).
      assert (Ld2 : length d2 = length data) by (unfold d2; apply Swap_length).
      destruct (less v2 v0) eqn:H20.
      * rewrite !Swap_lookup by lia. repeat case_decide; try congruence.
        all: rewrite F0, F2; intros [= <-] [= <-]; exact H10.
      * rewrite F1, F2. intros [= <-] [= <-]. apply less_asym. exact H21.
    + rewrite Hv1, Hv2. intros [= <-] [= <-]. exact H21.
Qed.

End Pivot.

Section Partition.

Context {A : Type} (less : A -> A -> bool).

Local Open Scope nat_scope.

Hypothesis less_asym : forall x y, less x y = true -> less y x = false.
Hypothesis less_trans :
  forall x y z, less y x = false -> less z y = false -> less z x = false.

Lemma Less_true (data : list A) i j :
  GoSort.Less less data i j = true ->
  exists x y, data !! i = Some x /\ data !! j = Some y /\ less x y = true.
Proof.
  unfold GoSort.Less. destruct (data !! i) as [x|]; [|discriminate].
  destruct (data !! j) as [y|]; [|discriminate]. eauto.
Qed.

Lemma Less_false (data : list A) i j x y :
  GoSort.Less less data i j = false ->
  data !! i = Some x -> data !! j = Some y -> less x y = false.
Proof. intros H Hx Hy. rewrite (Less_eq less data i j x y Hx Hy) in H. exact H. Qed.

Lemma Less_true_val (data : list A) i j x y :
  GoSort.Less less data i j = true ->
  data !! i = Some x -> data !! j = Some y -> less x y = true.
Proof. intros H Hx Hy. rewrite (Less_eq less data i j x y Hx Hy) in H. exact H. Qed.

Lemma doPivot_partition_spec fuel (data : list A) lo hi b c p :
  hi <= length data -> lo + 1 <= b -> b <= c -> c < hi -> c - b <= fuel ->
  data !! lo = Some p ->
  rangeAll (fun x => less p x = false) (lo + 1) b data ->
  rangeAll (fun x => less x p = false) c hi data ->
  exists data' b',
    GoSort.doPivot_partition less fuel data lo b c = (data', b', b') /\
    b <= b' <= c /\
    rearranged b (hi - 1) data data' /\
    data' !! lo = Some p /\
    rangeAll (fun x => less p x = false) (lo + 1) b' data' /\
    rangeAll (fun x => less x p = false) b' hi data'.
Proof.
  revert data b c. induction fuel as [|fuel IH]; intros data b c Hhi Hb Hbc Hc Hf Hp HL HG.
  - assert (c = b) as -> by lia. exists data, b.
    cbn [GoSort.doPivot_partition]. replace (b - b) with 0 by lia.
    cbn [GoSort.scan_up GoSort.scan_down]. replace (b - b) with 0 by lia.
    cbn [GoSort.scan_up GoSort.scan_down]. rewrite Nat.leb_refl.
    splits; try lia; try assumption; try reflexivity; apply rearranged_refl.
  - cbn [GoSort.doPivot_partition].
    pose proof (scan_up_spec (c - b) b (fun k => negb (GoSort.Less less data lo k)))
      as (Hb1 & Hup & Hupstop).
    set (b1 := GoSort.scan_up (c - b) b (fun k => negb (GoSort.Less less data lo k))) in *.
    pose proof (scan_down_spec (c - b1) c (fun k => GoSort.Less less data lo k))
      as (Hc1 & Hdown & Hdownstop); [lia|].
    set (c1 := GoSort.scan_down (c - b1) c (fun k => GoSort.Less less data lo k)) in *.
    assert (HL1 : rangeAll (fun x => less p x = false) (lo + 1) b1 data).
    { intros i x Hi Hx. destruct (decide (i < b)) as [Hlt|Hge].
      - apply (HL i x); [lia|assumption].
      - specialize (Hup i ltac:(lia)). apply negb_true_iff in Hup.
        apply (Less_false data lo i p x Hup Hp Hx). }
    assert (HG1 : rangeAll (fun x => less x p = false) c1 hi data).
    { intros i x Hi Hx. destruct (decide (c <= i)) as [Hge|Hlt].
      - apply (HG i x); [lia|assumption].
      - specialize (Hdown i ltac:(lia)). apply less_asym.
        apply (Less_true_val data lo i p x Hdown Hp Hx). }
    destruct (c1 <=? b1) eqn:Hcmp.
    + apply Nat.leb_le in Hcmp. assert (c1 = b1) as Heq by lia.
      exists data, b1. rewrite Heq in *.
      splits; try lia; try assumption; try reflexivity; apply rearranged_refl.
    + apply Nat.leb_gt in Hcmp.
      (* data[b1] is above the pivot, data[c1-1] is not *)
      specialize (Hupstop ltac:(lia)). apply negb_false_iff in Hupstop.
      specialize (Hdownstop ltac:(lia)).
      destruct (lookup_lt_is_Some_2 data b1 ltac:(lia)) as [xb Hxb].
      destruct (lookup_lt_is_Some_2 data (c1 - 1) ltac:(lia)) as [xc Hxc].
      pose proof (Less_true_val data lo b1 p xb Hupstop Hp Hxb) as Hgt.
      pose proof (Less_false data lo (c1 - 1) p xc Hdownstop Hp Hxc) as Hle.
      assert (Hne : b1 <> c1 - 1) by (intros E; rewrite E in Hxb; congruence).
      set (d1 := GoSort.Swap data b1 (c1 - 1)).
      assert (Ld1 : length d1 = length data) by apply Swap_length.
      assert (R1 : rearranged b (hi - 1) data d1)
        by (apply Swap_rearranged; lia).
      assert (Hlook : forall k, d1 !! k =
                if decide (k = c1 - 1) then data !! b1
                else if decide (k = b1) then data !! (c1 - 1) else data !! k)
        by (intros k; apply Swap_lookup; lia).
      destruct (IH d1 (b1 + 1) (c1 - 1)) as (data' & b' & Hrun & Hb' & R2 & Hp' & HL' & HG').
      * lia.
      * lia.
      * lia.
      * lia.
      * lia.
      * rewrite Hlook. repeat case_decide; try lia. assumption.
      * intros i x Hi. rewrite Hlook. repeat case_decide; try lia.
        -- rewrite Hxc. intros [= <-]. exact Hle.
        -- intros Hx. apply (HL1 i x); [lia|assumption].
      * intros i x Hi. rewrite Hlook. repeat case_decide; try lia.
        -- rewrite Hxb. intros [= <-]. apply less_asym. exact Hgt.
        -- intros Hx. apply (HG1 i x); [lia|assumption].
      * exists data', b'. fold d1. rewrite Hrun.
        splits; try lia; try assumption; try reflexivity.
        eapply rearranged_trans; [exact R1|].
        eapply rearranged_weaken; [| |exact R2]; lia.
Qed.

Lemma doPivot_protect_spec fuel (data : list A) lo hi a b c p :
  hi <= length data -> lo + 1 <= a -> a <= b -> b <= c -> c <= hi -> b - a <= fuel ->
  data !! lo = Some p ->
  rangeAll (fun x => less p x = false) (lo + 1) b data ->
  rangeAll (fun x => less p x = false /\ less x p = false) b c data ->
  exists data' a' b',
    GoSort.doPivot_protect less fuel data lo a b = (data', a', b') /\
    lo + 1 <= b' <= b /\
    rearranged (lo + 1) b data data' /\
    data' !! lo = Some p /\
    rangeAll (fun x => less p x = false) (lo + 1) b' data' /\
    rangeAll (fun x => less p x = false /\ less x p = false) b' c data'.
Proof.
  revert data a b. induction fuel as [|fuel IH]; intros data a b Hhi Ha Hab Hbc Hc Hf Hp HL HE.
  - assert (b = a) as -> by lia. exists data, a, a.
    cbn [GoSort.doPivot_protect]. replace (a - a) with 0 by lia.
    cbn [GoSort.scan_up GoSort.scan_down]. replace (a - a) with 0 by lia.
    cbn [GoSort.scan_up GoSort.scan_down]. rewrite Nat.leb_refl.
    splits; try lia; try assumption; try reflexivity; apply rearranged_refl.
  - cbn [GoSort.doPivot_protect].
    pose proof (scan_down_spec (b - a) b (fun k => negb (GoSort.Less less data k lo)))
      as (Hb1 & Hdown & Hdownstop); [lia|].
    set (b1 := GoSort.scan_down (b - a) b (fun k => negb (GoSort.Less less data k lo))) in *.
    pose proof (scan_up_spec (b1 - a) a (fun k => GoSort.Less less data k lo))
      as (Ha1 & Hup & Hupstop).
    set (a1 := GoSort.scan_up (b1 - a) a (fun k => GoSort.Less less data k lo)) in *.
    assert (HL1 : rangeAll (fun x => less p x = false) (lo + 1) b1 data).
    { intros i x Hi Hx. apply (HL i x); [lia|assumption]. }
    assert (HE1 : rangeAll (fun x => less p x = false /\ less x p = false) b1 c data).
    { intros i x Hi Hx. destruct (decide (b <= i)) as [Hge|Hlt].
      - apply (HE i x); [lia|assumption].
      - split.
        + apply (HL i x); [lia|assumption].
        + specialize (Hdown i ltac:(lia)). apply negb_true_iff in Hdown.
          apply (Less_false data i lo x p Hdown Hx Hp). }
    destruct (b1 <=? a1) eqn:Hcmp.
    + apply Nat.leb_le in Hcmp.
      exists data, a1, b1. splits; try lia; try assumption; try reflexivity; apply rearranged_refl.
    + apply Nat.leb_gt in Hcmp.
      specialize (Hupstop ltac:(lia)).
      specialize (Hdownstop ltac:(lia)). apply negb_false_iff in Hdownstop.
      destruct (lookup_lt_is_Some_2 data a1 ltac:(lia)) as [xa Hxa].
      destruct (lookup_lt_is_Some_2 data (b1 - 1) ltac:(lia)) as [xb Hxb].
      pose proof (Less_false data a1 lo xa p Hupstop Hxa Hp) as Hge.
      pose proof (Less_true_val data (b1 - 1) lo xb p Hdownstop Hxb Hp) as Hlt.
      assert (Hne : a1 <> b1 - 1) by (intros E; rewrite E in Hxa; congruence).
      set (d1 := GoSort.Swap data a1 (b1 - 1)).
      assert (Ld1 : length d1 = length data) by apply Swap_length.
      assert (R1 : rearranged (lo + 1) b data d1)
        by (apply Swap_rearranged; lia).
      assert (Hlook : forall k, d1 !! k =
                if decide (k = b1 - 1) then data !! a1
                else if decide (k = a1) then data !! (b1 - 1) else data !! k)
        by (intros k; apply Swap_lookup; lia).
      destruct (IH d1 (a1 + 1) (b1 - 1)) as (data' & a' & b' & Hrun & Hb' & R2 & Hp' & HL' & HE').
      * lia.
      * lia.
      * lia.
      * lia.
      * lia.
      * lia.
      * rewrite Hlook. repeat case_decide; try lia. assumption.
      * intros i x Hi. rewrite Hlook. repeat case_decide; try lia.
        -- rewrite Hxb. intros [= <-]. apply less_asym. exact Hlt.
        -- intros Hx. apply (HL1 i x); [lia|assumption].
      * intros i x Hi. rewrite Hlook. repeat case_decide; try lia.
        -- rewrite Hxa. intros [= <-]. split; [|exact Hge].
           apply (HL1 a1 xa); [lia|assumption].
        -- intros Hx. apply (HE1 i x); [lia|assumption].
      * exists data', a', b'. fold d1. rewrite Hrun.
        splits; try lia; try assumption; try reflexivity.
        eapply rearranged_trans; [exact R1|].
        eapply rearranged_weaken; [| |exact R2]; lia.
Qed.

Lemma doPivot_protect_done fuel (data : list A) lo a b :
  b <= a -> GoSort.doPivot_protect less fuel data lo a b = (data, a, b).
Proof.
  intros Hba. assert (E : b - a = 0) by lia.
  destruct fuel; cbn [GoSort.doPivot_protect]; rewrite E;
    cbn [GoSort.scan_up GoSort.scan_down]; rewrite E;
    cbn [GoSort.scan_up GoSort.scan_down];
    replace (b <=? a) with true by (symmetry; apply Nat.leb_le; lia); reflexivity.
Qed.

Lemma less_irrefl x : less x x = false.
Proof. destruct (less x x) eqn:E; [|reflexivity]. rewrite (less_asym x x E) in E. discriminate. Qed.

Lemma div_bounds n k : 0 < k -> k * (n / k) <= n < k * (n / k) + k.
Proof.
  intros Hk. pose proof (Nat.div_mod_eq n k). pose proof (Nat.mod_upper_bound n k). lia.
Qed.

Lemma doPivot_func_spec (data : list A) lo hi :
  12 < hi - lo -> hi <= length data ->
  exists data' mlo mhi p,
    GoSort.doPivot_func less data lo hi = (data', mlo, mhi) /\
    lo <= mlo /\ mlo < mhi /\ mhi <= hi /\
    rearranged lo hi data data' /\
    rangeAll (fun x => less p x = false) lo mlo data' /\
    rangeAll (fun x => less p x = false /\ less x p = false) mlo mhi data' /\
    rangeAll (fun x => less x p = false) mhi hi data'.
Proof.
  intros Hn Hhi. unfold GoSort.doPivot_func.
  set (m := (lo + hi) / 2).
  pose proof (div_bounds (lo + hi) 2 ltac:(lia)) as Hm. fold m in Hm.
  set (s := (hi - lo) / 8).
  pose proof (div_bounds (hi - lo) 8 ltac:(lia)) as Hs. fold s in Hs.
  set (q := (hi - lo) / 4).
  pose proof (div_bounds (hi - lo) 4 ltac:(lia)) as Hq. fold q in Hq.
  clearbody m s q.
  set (d0 := if 40 <? hi - lo
             then GoSort.medianOfThree_func less
                    (GoSort.medianOfThree_func less
                       (GoSort.medianOfThree_func less data lo (lo + s) (lo + 2 * s))
                       m (m - s) (m + s))
                    (hi - 1) (hi - 1 - s) (hi - 1 - 2 * s)
             else data).
  assert (R0 : rearranged lo hi data d0).
  { unfold d0. destruct (40 <? hi - lo); [|apply rearranged_refl].
    set (e1 := GoSort.medianOfThree_func less data lo (lo + s) (lo + 2 * s)).
    set (e2 := GoSort.medianOfThree_func less e1 m (m - s) (m + s)).
    assert (Q1 : rearranged lo hi data e1)
      by (apply (medianOfThree_rearranged less data lo hi); lia).
    assert (Q2 : rearranged lo hi e1 e2)
      by (apply (medianOfThree_rearranged less e1 lo hi); lia).
    eapply rearranged_trans; [exact Q1|]. eapply rearranged_trans; [exact Q2|].
    apply (medianOfThree_rearranged less e2 lo hi); lia. }
  set (d1 := GoSort.medianOfThree_func less d0 lo m (hi - 1)).
  assert (R01 : rearranged lo hi d0 d1)
    by (apply (medianOfThree_rearranged less _ lo hi); lia).
  assert (R1 : rearranged lo hi data d1) by (eapply rearranged_trans; eassumption).
  assert (L0 : length d0 = length data) by apply R0.
  assert (L1 : length d1 = length data) by apply R1.
  destruct (lookup_lt_is_Some_2 d1 lo ltac:(lia)) as [p Hp].
  assert (G1 : rangeAll (fun x => less x p = false) (hi - 1) hi d1).
  { intros i x Hi Hx. assert (i = hi - 1) as -> by lia.
    apply (medianOfThree_order less less_asym d0 lo m (hi - 1) p x); try lia; assumption. }
  pose proof (scan_up_spec (hi - 1 - (lo + 1)) (lo + 1) (fun a => GoSort.Less less d1 a lo))
    as (Ha & Hup & _).
  set (a := GoSort.scan_up (hi - 1 - (lo + 1)) (lo + 1) (fun a => GoSort.Less less d1 a lo)) in *.
  assert (La : rangeAll (fun x => less p x = false) (lo + 1) a d1).
  { intros i x Hi Hx. apply less_asym.
    apply (Less_true_val d1 i lo x p (Hup i Hi) Hx Hp). }
  destruct (doPivot_partition_spec (hi - 1 - a) d1 lo hi a (hi - 1) p)
    as (d2 & b & Hpart & Hb & R2 & Hp2 & L2 & G2); try lia; try assumption.
  rewrite Hpart.
  assert (R12 : rearranged lo hi d1 d2) by (eapply rearranged_weaken; [| |exact R2]; lia).
  assert (Ld2 : length d2 = length data) by (destruct R2 as [-> _]; exact L1).
  (* the state after the equality tests: lo+1 <= b' <= c' <= hi *)
  assert (Hstate : exists d3 b3 c3 protect,
    (let protect := hi - b <? 5 in
     if negb protect && (hi - b <? q)
     then
       let '(data, c, dups) :=
         if negb (GoSort.Less less d2 lo (hi - 1))
         then (GoSort.Swap d2 b (hi - 1), b + 1, 0 + 1) else (d2, b, 0) in
       let '(b, dups) :=
         if negb (GoSort.Less less data (b - 1) lo) then (b - 1, dups + 1) else (b, dups) in
       let '(data, b, dups) :=
         if negb (GoSort.Less less data m lo)
         then (GoSort.Swap data m (b - 1), b - 1, dups + 1) else (data, b, dups) in
       (data, b, c, 1 <? dups)
     else (d2, b, b, protect)) = (d3, b3, c3, protect) /\
    lo + 1 <= b3 /\ b3 <= c3 /\ c3 <= hi /\
    rearranged lo hi d2 d3 /\ d3 !! lo = Some p /\
    rangeAll (fun x => less p x = false) (lo + 1) b3 d3 /\
    rangeAll (fun x => less p x = false /\ less x p = false) b3 c3 d3 /\
    rangeAll (fun x => less x p = false) c3 hi d3).
  { cbv zeta. destruct (negb (hi - b <? 5) && (hi - b <? q)) eqn:Hdup.
    2:{ exists d2, b, b, (hi - b <? 5). splits; try lia; try assumption; try reflexivity.
        - apply rearranged_refl.
        - intros i x Hi. lia. }
    apply andb_true_iff in Hdup as [_ Hq4]. apply Nat.ltb_lt in Hq4.
    (* first test: the last element *)
    assert (S1 : exists d3 c3 dups,
      (if negb (GoSort.Less less d2 lo (hi - 1))
       then (GoSort.Swap d2 b (hi - 1), b + 1, 0 + 1) else (d2, b, 0)) = (d3, c3, dups) /\
      b <= c3 /\ c3 <= hi /\ rearranged lo hi d2 d3 /\ d3 !! lo = Some p /\
      rangeAll (fun x => less p x = false) (lo + 1) b d3 /\
      rangeAll (fun x => less p x = false /\ less x p = false) b c3 d3 /\
      rangeAll (fun x => less x p = false) c3 hi d3).
    { destruct (negb (GoSort.Less less d2 lo (hi - 1))) eqn:T1.
      - apply negb_true_iff in T1.
        assert (Hlook : forall k, GoSort.Swap d2 b (hi - 1) !! k =
                  if decide (k = hi - 1) then d2 !! b
                  else if decide (k = b) then d2 !! (hi - 1) else d2 !! k)
          by (intros k; apply Swap_lookup; lia).
        exists (GoSort.Swap d2 b (hi - 1)), (b + 1), (0 + 1).
        splits; try lia; try reflexivity.
        + apply Swap_rearranged; lia.
        + rewrite Hlook. repeat case_decide; try lia. assumption.
        + intros i x Hi. rewrite Hlook. repeat case_decide; try lia.
          intros Hx. apply (L2 i x); [lia|assumption].
        + intros i x Hi. assert (i = b) as -> by lia. rewrite Hlook.
          repeat case_decide; try lia.
          * intros Hx. split.
            -- apply (Less_false d2 lo b p x); [|assumption|assumption].
               replace b with (hi - 1) by lia. exact T1.
            -- apply (G2 b x); [lia|assumption].
          * intros Hx. split.
            -- apply (Less_false d2 lo (hi - 1) p x T1 Hp2 Hx).
            -- apply (G2 (hi - 1) x); [lia|assumption].
        + intros i x Hi. rewrite Hlook. repeat case_decide; try lia.
          * intros Hx. apply (G2 b x); [lia|assumption].
          * intros Hx. apply (G2 i x); [lia|assumption].
      - exists d2, b, 0. splits; try lia; try assumption; try reflexivity.
        + apply rearranged_refl.
        + intros i x Hi. lia. }
    destruct S1 as (d3 & c3 & dups1 & -> & Hc3 & Hc3' & R3 & Hp3 & L3 & E3 & G3).
    assert (Ld3 : length d3 = length data) by (destruct R3 as [-> _]; exact Ld2).
    (* second test: the element before b *)
    assert (S2 : exists b4 dups,
      (if negb (GoSort.Less less d3 (b - 1) lo) then (b - 1, dups1 + 1) else (b, dups1))
        = (b4, dups) /\
      b - 1 <= b4 /\ b4 <= b /\
      rangeAll (fun x => less p x = false) (lo + 1) b4 d3 /\
      rangeAll (fun x => less p x = false /\ less x p = false) b4 c3 d3).
    { destruct (negb (GoSort.Less less d3 (b - 1) lo)) eqn:T2.
      - apply negb_true_iff in T2. exists (b - 1), (dups1 + 1).
        splits; try lia; try reflexivity.
        + intros i x Hi Hx. apply (L3 i x); [lia|assumption].
        + intros i x Hi Hx. destruct (decide (i = b - 1)) as [->|Hne].
          * split; [apply (L3 (b - 1) x); [lia|assumption]|].
            apply (Less_false d3 (b - 1) lo x p T2 Hx Hp3).
          * apply (E3 i x); [lia|assumption].
      - exists b, dups1. splits; try lia; try assumption; reflexivity. }
    destruct S2 as (b4 & dups2 & -> & Hb4 & Hb4' & L4 & E4).
    (* third test: the middle element *)
    destruct (negb (GoSort.Less less d3 m lo)) eqn:T3.
    - apply negb_true_iff in T3.
      assert (Hlook : forall k, GoSort.Swap d3 m (b4 - 1) !! k =
                if decide (k = b4 - 1) then d3 !! m
                else if decide (k = m) then d3 !! (b4 - 1) else d3 !! k)
        by (intros k; apply Swap_lookup; lia).
      exists (GoSort.Swap d3 m (b4 - 1)), (b4 - 1), c3, (1 <? dups2 + 1).
      splits; try lia; try reflexivity.
      + eapply rearranged_trans; [exact R3|]. apply Swap_rearranged; lia.
      + rewrite Hlook. repeat case_decide; try lia. assumption.
      + intros i x Hi. rewrite Hlook. repeat case_decide; try lia.
        * intros Hx. apply (L4 (b4 - 1) x); [lia|assumption].
        * intros Hx. apply (L4 i x); [lia|assumption].
      + intros i x Hi. rewrite Hlook. repeat case_decide; try lia.
        * intros Hx. split; [apply (L4 m x); [lia|assumption]|].
          apply (Less_false d3 m lo x p T3 Hx Hp3).
        * intros Hx. apply (E4 i x); [lia|assumption].
      + intros i x Hi. rewrite Hlook. repeat case_decide; try lia.
        intros Hx. apply (G3 i x); [lia|assumption].
    - exists d3, b4, c3, (1 <? dups2).
      splits; try lia; try assumption; reflexivity. }
  destruct Hstate as (d3 & b3 & c3 & protect & Hrun & Hb3 & Hbc3 & Hc3 & R3 & Hp3 & L3 & E3 & G3).
  cbv zeta in Hrun. rewrite Hrun. clear Hrun.
  assert (Ld3 : length d3 = length data) by (destruct R3 as [-> _]; exact Ld2).
  (* the loop against many duplicates *)
  assert (Hprot : exists d4 a4 b4,
    (if protect then GoSort.doPivot_protect less (b3 - a) d3 lo a b3 else (d3, a, b3))
      = (d4, a4, b4) /\
    lo + 1 <= b4 /\ b4 <= c3 /\
    rearranged lo hi d3 d4 /\ d4 !! lo = Some p /\
    rangeAll (fun x => less p x = false) (lo + 1) b4 d4 /\
    rangeAll (fun x => less p x = false /\ less x p = false) b4 c3 d4 /\
    rangeAll (fun x => less x p = false) c3 hi d4).
  { destruct protect.
    2:{ exists d3, a, b3. splits; try lia; try assumption; try reflexivity.
        apply rearranged_refl. }
    destruct (decide (b3 <= a)) as [Hle|Hgt].
    - rewrite doPivot_protect_done by assumption.
      exists d3, a, b3. splits; try lia; try assumption; try reflexivity.
      apply rearranged_refl.
    - destruct (doPivot_protect_spec (b3 - a) d3 lo hi a b3 c3 p)
        as (d4 & a4 & b4 & -> & Hb4 & R4 & Hp4 & L4 & E4); try lia; try assumption.
      exists d4, a4, b4. splits; try lia; try assumption; try reflexivity.
      + eapply rearranged_weaken; [| |exact R4]; lia.
      + apply (rearranged_rangeAll_outside _ (lo + 1) b3 c3 hi d3 d4 R4); [lia|assumption]. }
  destruct Hprot as (d4 & a4 & b4 & -> & Hb4 & Hbc4 & R4 & Hp4 & L4 & E4 & G4).
  assert (Ld4 : length d4 = length data) by (destruct R4 as [-> _]; exact Ld3).
  assert (Hlook : forall k, GoSort.Swap d4 lo (b4 - 1) !! k =
            if decide (k = b4 - 1) then d4 !! lo
            else if decide (k = lo) then d4 !! (b4 - 1) else d4 !! k)
    by (intros k; apply Swap_lookup; lia).
  exists (GoSort.Swap d4 lo (b4 - 1)), (b4 - 1), c3, p.
  splits; try lia; try reflexivity.
  - eapply rearranged_trans; [exact R1|]. eapply rearranged_trans; [exact R12|].
    eapply rearranged_trans; [exact R3|]. eapply rearranged_trans; [exact R4|].
    apply Swap_rearranged; lia.
  - intros i x Hi. rewrite Hlook. repeat case_decide; try lia.
    + intros Hx. apply (L4 (b4 - 1) x); [lia|assumption].
    + intros Hx. apply (L4 i x); [lia|assumption].
  - intros i x Hi. rewrite Hlook. repeat case_decide; try lia.
    + rewrite Hp4. intros [= <-]. split; apply less_irrefl.
    + intros Hx. apply (E4 i x); [lia|assumption].
  - intros i x Hi. rewrite Hlook. repeat case_decide; try lia.
    intros Hx. apply (G4 i x); [lia|assumption].
Qed.

End Partition.

Section Heap.

Context {A : Type} (less : A -> A -> bool).

Local Open Scope nat_scope.

Hypothesis less_asym : forall x y, less x y = true -> less y x = false.
Hypothesis less_trans :
  forall x y z, less y x = false -> less z y = false -> less z x = false.

Lemma siftDown_loop_spec fuel (data : list A) lo root hi first :
  first + hi <= length data -> lo <= root -> hi <= fuel + root ->
  (forall k, lo <= k < hi -> k <> root -> heapAt less data first hi k) ->
  (forall k c x y, lo <= k -> root = 2 * k + 1 \/ root = 2 * k + 2 ->
     c = 2 * root + 1 \/ c = 2 * root + 2 -> c < hi ->
     data !! (first + k) = Some x -> data !! (first + c) = Some y -> less x y = false) ->
  let data' := GoSort.siftDown_loop less fuel data root hi first in
  rearranged (first + lo) (first + hi) data data' /\
  forall k, lo <= k < hi -> heapAt less data' first hi k.
Proof.
  revert data root. induction fuel as [|fuel IH]; intros data root Hlen Hlo Hfuel Hheap Hgrand.
  - simpl. split; [apply rearranged_refl|].
    intros k Hk. destruct (decide (k = root)) as [->|Hne]; [lia|]. apply Hheap; assumption.
  - cbn [GoSort.siftDown_loop]. cbv zeta.
    destruct (hi <=? 2 * root + 1) eqn:Hleaf.
    { apply Nat.leb_le in Hleaf. split; [apply rearranged_refl|].
      intros k Hk. destruct (decide (k = root)) as [->|Hne]; [|apply Hheap; assumption].
      intros c x y Hc Hchi. lia. }
    apply Nat.leb_gt in Hleaf.
    set (child := if (2 * root + 1 + 1 <? hi) &&
                     GoSort.Less less data (first + (2 * root + 1)) (first + (2 * root + 1) + 1)
                  then 2 * root + 1 + 1 else 2 * root + 1).
    assert (Hchild : (child = 2 * root + 1 \/ child = 2 * root + 2) /\ child < hi).
    { unfold child. destruct (2 * root + 1 + 1 <? hi) eqn:E; cbn [andb].
      - apply Nat.ltb_lt in E. destruct (GoSort.Less less data _ _); lia.
      - lia. }
    destruct Hchild as [Hchild Hchi].
    destruct (lookup_lt_is_Some_2 data (first + root) ltac:(lia)) as [xr Hxr].
    destruct (lookup_lt_is_Some_2 data (first + child) ltac:(lia)) as [xc Hxc].
    (* the chosen child is not below the other one *)
    assert (Hbig : forall c y, c = 2 * root + 1 \/ c = 2 * root + 2 -> c < hi ->
                     data !! (first + c) = Some y -> less xc y = false).
    { intros c y Hc Hclt Hy. unfold child in Hxc.
      destruct (2 * root + 1 + 1 <? hi) eqn:E; cbn [andb] in Hxc.
      - apply Nat.ltb_lt in E.
        destruct (lookup_lt_is_Some_2 data (first + (2 * root + 1)) ltac:(lia)) as [y1 Hy1].
        destruct (lookup_lt_is_Some_2 data (first + (2 * root + 1) + 1) ltac:(lia)) as [y2 Hy2].
        rewrite (Less_eq less data _ _ y1 y2 Hy1 Hy2) in Hxc.
        destruct (less y1 y2) eqn:E12.
        + replace (first + (2 * root + 1 + 1)) with (first + (2 * root + 1) + 1) in Hxc by lia.
          assert (xc = y2) as -> by congruence.
          destruct Hc as [->| ->].
          * assert (y = y1) as -> by congruence. apply less_asym, E12.
          * replace (first + (2 * root + 2)) with (first + (2 * root + 1) + 1) in Hy by lia.
            assert (y = y2) as -> by congruence. apply (less_irrefl less less_asym).
        + assert (xc = y1) as -> by congruence.
          destruct Hc as [->| ->].
          * assert (y = y1) as -> by congruence. apply (less_irrefl less less_asym).
          * replace (first + (2 * root + 2)) with (first + (2 * root + 1) + 1) in Hy by lia.
            assert (y = y2) as -> by congruence. exact E12.
      - apply Nat.ltb_ge in E. assert (c = 2 * root + 1) as -> by lia.
        assert (y = xc) as -> by congruence. apply (less_irrefl less less_asym). }
    fold child.
    rewrite (Less_eq less data (first + root) (first + child) xr xc Hxr Hxc).
    destruct (less xr xc) eqn:Hrc; cbn [negb].
    2:{ split; [apply rearranged_refl|].
        intros k Hk. destruct (decide (k = root)) as [->|Hne]; [|apply Hheap; assumption].
        intros c x y Hc Hclt Hx Hy. assert (x = xr) as -> by congruence.
        apply (less_trans y xc xr); [|exact Hrc]. apply (Hbig c y Hc Hclt Hy). }
    set (d1 := GoSort.Swap data (first + root) (first + child)).
    assert (Hlook : forall k, d1 !! k =
              if decide (k = first + child) then data !! (first + root)
              else if decide (k = first + root) then data !! (first + child) else data !! k)
      by (intros k; apply Swap_lookup; lia).
    assert (R1 : rearranged (first + lo) (first + hi) data d1)
      by (apply Swap_rearranged; lia).
    assert (Ld1 : length d1 = length data) by apply Swap_length.
    destruct (IH d1 child) as [R2 Hpost].
    + lia.
    + lia.
    + lia.
    + (* every node but the new root is in order *)
      intros k Hk Hne c x y Hc Hclt. rewrite !Hlook.
      destruct (decide (k = root)) as [->|Hkr].
      * repeat case_decide; try lia.
        -- rewrite Hxc, Hxr. intros [= <-] [= <-]. apply less_asym, Hrc.
        -- rewrite Hxc. intros [= <-] Hy. apply (Hbig c y Hc Hclt Hy).
      * repeat case_decide; try lia.
        -- (* k is the parent of root *)
           rewrite Hxc. intros Hx [= <-].
           apply (Hgrand k child x xc); try lia; try assumption.
        -- intros Hx Hy. apply (Hheap k ltac:(lia) Hkr c x y Hc Hclt Hx Hy).
    + (* the parent of the new root is the old root *)
      intros k c x y Hk Hpar Hc Hclt. assert (k = root) as -> by lia.
      rewrite !Hlook. repeat case_decide; try lia.
      rewrite Hxc. intros [= <-] Hy.
      apply (Hheap child ltac:(lia) ltac:(lia) c xc y Hc Hclt Hxc Hy).
    + split; [|exact Hpost].
      eapply rearranged_trans; [exact R1|exact R2].
Qed.

Lemma siftDown_func_spec (data : list A) lo hi first :
  first + hi <= length data ->
  (forall k, lo < k < hi -> heapAt less data first hi k) ->
  let data' := GoSort.siftDown_func less data lo hi first in
  rearranged (first + lo) (first + hi) data data' /\
  forall k, lo <= k < hi -> heapAt less data' first hi k.
Proof.
  intros Hlen Hheap. unfold GoSort.siftDown_func.
  apply siftDown_loop_spec; try lia.
  intros k Hk Hne. apply Hheap. lia.
Qed.

Lemma heap_build n (data : list A) hi first :
  first + hi <= length data ->
  (forall k, n < k < hi -> heapAt less data first hi k) ->
  let data' := GoSort.for_down n (fun i data => GoSort.siftDown_func less data i hi first) data in
  rearranged first (first + hi) data data' /\
  forall k, k < hi -> heapAt less data' first hi k.
Proof.
  revert data. induction n as [|n IH]; intros data Hlen Hheap; cbn [GoSort.for_down].
  - destruct (siftDown_func_spec data 0 hi first Hlen) as [R H]; [intros; apply Hheap; lia|].
    split.
    + eapply rearranged_weaken; [| |exact R]; lia.
    + intros k Hk. apply H. lia.
  - destruct (siftDown_func_spec data (S n) hi first Hlen) as [R H]; [intros; apply Hheap; lia|].
    set (d1 := GoSort.siftDown_func less data (S n) hi first) in *.
    destruct (IH d1) as [R' H'].
    + destruct R as [-> _]. assumption.
    + intros k Hk. apply H. lia.
    + split; [|exact H'].
      eapply rearranged_trans; [|exact R'].
      eapply rearranged_weaken; [| |exact R]; lia.
Qed.

(** The root of a heap is not below any of its elements. *)
Lemma heap_root_max (data : list A) first hi :
  first + hi <= length data ->
  (forall k, k < hi -> heapAt less data first hi k) ->
  forall k x y, k < hi -> data !! first = Some x -> data !! (first + k) = Some y ->
    less x y = false.
Proof.
  intros Hlen Hheap k. induction k as [k IH] using lt_wf_ind. intros x y Hk Hx Hy.
  destruct k as [|k'].
  - rewrite Nat.add_0_r in Hy. assert (y = x) as -> by congruence.
    apply (less_irrefl less less_asym).
  - set (j := k' / 2).
    pose proof (div_bounds k' 2 ltac:(lia)) as Hj. fold j in Hj. clearbody j.
    destruct (lookup_lt_is_Some_2 data (first + j) ltac:(lia)) as [z Hz].
    apply (less_trans y z x).
    + apply (Hheap j ltac:(lia) (S k') z y); [lia|lia|assumption|assumption].
    + apply (IH j ltac:(lia) x z); [lia|assumption|assumption].
Qed.

Lemma heap_extract n (data : list A) hi first :
  first + hi <= length data -> n < hi ->
  (forall k, k < n + 1 -> heapAt less data first (n + 1) k) ->
  sortedIn less (first + n + 1) (first + hi) data ->
  (forall i j x y, first <= i < first + n + 1 -> first + n + 1 <= j < first + hi ->
     data !! i = Some x -> data !! j = Some y -> less y x = false) ->
  let data' :=
    GoSort.for_down n
      (fun i data => GoSort.siftDown_func less (GoSort.Swap data first (first + i)) 0 i first)
      data in
  rearranged first (first + hi) data data' /\ sortedIn less first (first + hi) data'.
Proof.
  revert data. induction n as [|n IH]; intros data Hlen Hn Hheap Hsorted Hbound;
    cbn [GoSort.for_down].
  - unfold GoSort.siftDown_func. cbn [GoSort.siftDown_loop].
    assert (GoSort.Swap data first (first + 0) = data) as ->.
    { rewrite Nat.add_0_r. unfold GoSort.Swap.
      destruct (data !! first) as [x|] eqn:Hx; [|reflexivity].
      rewrite list_insert_insert_eq. apply list_insert_id. assumption. }
    split; [apply rearranged_refl|].
    intros i j x y Hi Hij Hj Hx Hy. destruct (decide (i = first)) as [->|Hne].
    + apply (Hbound first j x y); [lia|lia|assumption|assumption].
    + apply (Hsorted i j x y); [lia|lia|lia|assumption|assumption].
  - set (d1 := GoSort.Swap data first (first + S n)).
    assert (Hlook : forall k, d1 !! k =
              if decide (k = first + S n) then data !! first
              else if decide (k = first) then data !! (first + S n) else data !! k)
      by (intros k; apply Swap_lookup; lia).
    assert (Ld1 : length d1 = length data) by apply Swap_length.
    assert (R1 : rearranged first (first + S n + 1) data d1)
      by (apply Swap_rearranged; lia).
    destruct (siftDown_func_spec d1 0 (S n) first ltac:(lia)) as [R2 Hheap2].
    { intros k Hk c x y Hc Hclt. rewrite !Hlook. repeat case_decide; try lia.
      intros Hx Hy. apply (Hheap k ltac:(lia) c x y Hc ltac:(lia) Hx Hy). }
    set (d2 := GoSort.siftDown_func less d1 0 (S n) first) in *.
    assert (Ld2 : length d2 = length data) by (destruct R2 as [-> _]; exact Ld1).
    destruct (lookup_lt_is_Some_2 data first ltac:(lia)) as [top Htop].
    assert (Hmax : forall k y, k < S n + 1 -> data !! (first + k) = Some y -> less top y = false).
    { intros k y Hk Hy.
      apply (heap_root_max data first (S n + 1) ltac:(lia) Hheap k top y Hk Htop Hy). }
    assert (Hd2n : d2 !! (first + S n) = Some top).
    { destruct R2 as (_ & _ & O & _). rewrite O by lia.
      rewrite Hlook. repeat case_decide; try lia. assumption. }
    assert (Hfrom : forall i x, first <= i < first + S n -> d2 !! i = Some x ->
              exists k, k < S n + 1 /\ data !! (first + k) = Some x).
    { intros i x Hi Hx. destruct R2 as (_ & _ & _ & I2).
      destruct (I2 i x ltac:(lia) Hx) as (j & Hj & Hxj).
      rewrite Hlook in Hxj. repeat case_decide; try lia.
      - exists (S n). split; [lia|]. assumption.
      - exists (j - first). split; [lia|]. replace (first + (j - first)) with j by lia.
        assumption. }
    assert (Hafter : forall j, first + S n < j -> d2 !! j = data !! j).
    { intros j Hj. destruct R2 as (_ & _ & O & _). rewrite O by lia.
      rewrite Hlook. repeat case_decide; try lia. reflexivity. }
    destruct (IH d2) as [R3 Hsorted3].
    + lia.
    + lia.
    + intros k Hk. replace (n + 1) with (S n) by lia. apply Hheap2. lia.
    + intros i j x y Hi Hij Hj.
      destruct (decide (i = first + S n)) as [->|Hne].
      * rewrite Hd2n, Hafter by lia. intros [= <-] Hy.
        apply (Hbound first j top y); [lia|lia|assumption|assumption].
      * rewrite !Hafter by lia. intros Hx Hy.
        apply (Hsorted i j x y); [lia|lia|lia|assumption|assumption].
    + intros i j x y Hi Hj Hx.
      destruct (Hfrom i x ltac:(lia) Hx) as (k & Hk & Hxk).
      destruct (decide (j = first + S n)) as [->|Hne].
      * rewrite Hd2n. intros [= <-]. apply (Hmax k x Hk Hxk).
      * rewrite Hafter by lia. intros Hy.
        apply (Hbound (first + k) j x y); [lia|lia|assumption|assumption].
    + split; [|exact Hsorted3].
      eapply rearranged_trans; [|exact R3].
      eapply rearranged_trans.
      * eapply rearranged_weaken; [| |exact R1]; lia.
      * eapply rearranged_weaken; [| |exact R2]; lia.
Qed.

Lemma heapSort_func_spec (data : list A) a b :
  a <= b -> b <= length data ->
  rearranged a b data (GoSort.heapSort_func less data a b) /\
  sortedIn less a b (GoSort.heapSort_func less data a b).
Proof.
  intros Hab Hb. unfold GoSort.heapSort_func. cbv zeta.
  set (hi := b - a).
  pose proof (div_bounds (hi - 1) 2 ltac:(lia)) as Hhalf.
  destruct (heap_build ((hi - 1) / 2) data hi a) as [R1 Hheap].
  { lia. }
  { intros k Hk c x y Hc Hclt. lia. }
  set (d1 := GoSort.for_down ((hi - 1) / 2)
               (fun i data => GoSort.siftDown_func less data i hi a) data) in *.
  assert (Ld1 : length d1 = length data) by apply R1.
  replace (a + hi) with b in R1 by lia.
  destruct hi as [|hi1] eqn:Ehi.
  - split; [exact R1|]. intros i j x y Hi Hij Hj. lia.
  - destruct (heap_extract hi1 d1 (S hi1) a) as [R2 Hsorted].
    + lia.
    + lia.
    + intros k Hk. replace (hi1 + 1) with (S hi1) by lia. apply Hheap. lia.
    + intros i j x y Hi Hij Hj. lia.
    + intros i j x y Hi Hj. lia.
    + replace (a + S hi1) with b in R2, Hsorted by lia. split; [|exact Hsorted].
      eapply rearranged_trans; eassumption.
Qed.

End Heap.

(** *** Insertion sort *)

Section InsertionSort.

Context {A : Type} (less : A -> A -> bool).

Local Open Scope nat_scope.

Local Abbreviation insertBack := (SortSpec.insertBack less).
Local Abbreviation insertAll := (SortSpec.insertAll less).

Lemma Swap_adjacent (l1 l2 : list A) (x y : A) :
  GoSort.Swap (l1 ++ y :: x :: l2) (S (length l1)) (length l1) = l1 ++ x :: y :: l2.
Proof.
  unfold GoSort.Swap.
  rewrite (lookup_app_r l1) by lia.
  replace (S (length l1) - length l1) with 1 by lia.
  rewrite (list_lookup_middle l1 (x :: l2) y (length l1) eq_refl). simpl.
  rewrite (insert_app_r_alt l1) by lia.
  replace (S (length l1) - length l1) with 1 by lia. simpl.
  rewrite (insert_app_r_alt l1) by lia.
  replace (length l1 - length l1) with 0 by lia. reflexivity.
Qed.

Lemma insertionSort_inner_spec (front pre post : list A) (x : A) :
  GoSort.insertionSort_inner less (length front) (length front + length pre)
                             (front ++ pre ++ x :: post) =
    front ++ rev (insertBack x (rev pre)) ++ post.
Proof.
  revert post. induction pre as [|y pre IH] using rev_ind; intros post.
  - simpl. rewrite Nat.add_0_r. destruct front as [|f front]; simpl; [reflexivity|].
    rewrite Nat.ltb_irrefl. reflexivity.
  - rewrite length_app, rev_app_distr. simpl.
    replace (length front + (length pre + 1)) with (S (length front + length pre)) by lia.
    cbn [GoSort.insertionSort_inner].
    replace (length front <? S (length front + length pre)) with true
      by (symmetry; apply Nat.ltb_lt; lia).
    cbn [andb].
    assert (Hdata : front ++ (pre ++ [y]) ++ x :: post = (front ++ pre) ++ y :: x :: post)
      by (rewrite <- !app_assoc; reflexivity).
    assert (Hlen : length front + length pre = length (front ++ pre))
      by (rewrite length_app; reflexivity).
    assert (HL : GoSort.Less less (front ++ (pre ++ [y]) ++ x :: post)
                   (S (length front + length pre)) (length front + length pre) = less x y).
    { unfold GoSort.Less. rewrite Hdata, Hlen.
      rewrite (lookup_app_r (front ++ pre)) by lia.
      replace (S (length (front ++ pre)) - length (front ++ pre)) with 1 by lia.
      rewrite (list_lookup_middle (front ++ pre) (x :: post) y _ eq_refl). reflexivity. }
    rewrite HL. destruct (less x y).
    + rewrite Hdata, Hlen, Swap_adjacent, <- Hlen, <- app_assoc.
      rewrite (IH (y :: post)). simpl. rewrite <- !app_assoc. reflexivity.
    + simpl. rewrite rev_involutive, <- !app_assoc. reflexivity.
Qed.

Lemma insertBack_length x before : length (insertBack x before) = S (length before).
Proof.
  induction before as [|y before IH]; simpl; [reflexivity|].
  destruct (less x y); simpl; [rewrite IH|]; reflexivity.
Qed.

Lemma insertionSort_outer_spec (front sorted rest tail : list A) :
  GoSort.for_up (length rest) (length front + length sorted)
                (GoSort.insertionSort_inner less (length front))
                (front ++ sorted ++ rest ++ tail) =
    front ++ insertAll sorted rest ++ tail.
Proof.
  revert sorted. induction rest as [|x rest IH]; intros sorted; simpl.
  - reflexivity.
  - rewrite insertionSort_inner_spec.
    replace (S (length front + length sorted))
      with (length front + length (rev (insertBack x (rev sorted)))).
    + rewrite <- IH. reflexivity.
    + rewrite length_rev, insertBack_length, length_rev. lia.
Qed.

Lemma insertionSort_func_spec (front mid tail : list A) :
  GoSort.insertionSort_func less (front ++ mid ++ tail)
                            (length front) (length front + length mid) =
    front ++ match mid with
             | [] => []
             | x :: rest => insertAll [x] rest
             end ++ tail.
Proof.
  unfold GoSort.insertionSort_func. destruct mid as [|x rest]; simpl.
  - replace (length front + 0 - (length front + 1)) with 0 by lia. reflexivity.
  - replace (length front + S (length rest) - (length front + 1)) with (length rest) by lia.
    apply (insertionSort_outer_spec front [x] rest tail).
Qed.

Lemma insertBack_perm x before : insertBack x before ≡ₚ x :: before.
Proof.
  induction before as [|y before IH]; simpl; [reflexivity|].
  destruct (less x y); [|reflexivity].
  rewrite IH. apply perm_swap.
Qed.

Lemma insertAll_perm sorted rest : insertAll sorted rest ≡ₚ sorted ++ rest.
Proof.
  revert sorted. induction rest as [|x rest IH]; intros sorted; simpl.
  - rewrite app_nil_r. reflexivity.
  - rewrite IH, <- Permutation_rev, insertBack_perm, <- Permutation_rev.
    apply Permutation_middle.
Qed.

(** [less] never holds both ways. *)
Hypothesis less_asym : forall x y, less x y = true -> less y x = false.

Lemma insertBack_descending x before :
  Sorted (fun x y => less x y = false) before ->
  Sorted (fun x y => less x y = false) (insertBack x before).
Proof.
  induction before as [|y before IH]; intros Hs; simpl.
  - repeat constructor.
  - destruct (less x y) eqn:Hxy.
    + apply Sorted_inv in Hs as [Hs Hhd]. constructor; [apply IH, Hs|].
      destruct before as [|z before]; simpl.
      * constructor. apply less_asym, Hxy.
      * destruct (less x z); constructor.
        -- apply HdRel_inv in Hhd. exact Hhd.
        -- apply less_asym, Hxy.
    + constructor; [exact Hs|]. constructor. exact Hxy.
Qed.

Lemma Sorted_rev_flip (R : A -> A -> Prop) (l : list A) :
  Sorted R l -> Sorted (fun x y => R y x) (rev l).
Proof. intros H. rewrite rev_alt. apply (Sorted_reverse R l H). Qed.

Lemma insertAll_sorted sorted rest :
  Sorted (fun x y => less y x = false) sorted ->
  Sorted (fun x y => less y x = false) (insertAll sorted rest).
Proof.
  revert sorted. induction rest as [|x rest IH]; intros sorted Hs; simpl; [exact Hs|].
  apply IH. apply (Sorted_rev_flip (fun x y => less x y = false)).
  apply insertBack_descending.
  apply (Sorted_rev_flip (fun x y => less y x = false)), Hs.
Qed.

Lemma insertionSort_perm (x : list A) : GoSort.insertionSort A x less ≡ₚ x.
Proof.
  unfold GoSort.insertionSort.
  pose proof (insertionSort_func_spec [] x []) as H. simpl in H.
  rewrite app_nil_r in H. rewrite H. destruct x as [|x0 rest]; [reflexivity|].
  rewrite app_nil_r. apply (insertAll_perm [x0] rest).
Qed.

Lemma insertionSort_sorted (x : list A) :
  Sorted (fun x y => less y x = false) (GoSort.insertionSort A x less).
Proof.
  unfold GoSort.insertionSort.
  pose proof (insertionSort_func_spec [] x []) as H. simpl in H.
  rewrite app_nil_r in H. rewrite H. destruct x as [|x0 rest]; [constructor|].
  rewrite app_nil_r. apply insertAll_sorted. repeat constructor.
Qed.

End InsertionSort.

Section QuickSort.

Context {A : Type} (less : A -> A -> bool).

Local Open Scope nat_scope.

Hypothesis less_asym : forall x y, less x y = true -> less y x = false.
Hypothesis less_trans :
  forall x y z, less y x = false -> less z y = false -> less z x = false.

Lemma StronglySorted_lookup (R : A -> A -> Prop) (l : list A) i j x y :
  StronglySorted R l -> i < j -> l !! i = Some x -> l !! j = Some y -> R x y.
Proof.
  intros Hs. revert i j. induction Hs as [|a l Hs IH Hall]; intros i j Hij Hx Hy.
  - discriminate.
  - destruct j as [|j]; [lia|]. simpl in Hy. destruct i as [|i]; simpl in Hx.
    + injection Hx as <-. rewrite Forall_forall in Hall. apply Hall.
      apply (list_elem_of_lookup_2 l j y Hy).
    + apply (IH i j); [lia|assumption|assumption].
Qed.

Lemma lookup_StronglySorted (R : A -> A -> Prop) (l : list A) :
  (forall i j x y, i < j -> l !! i = Some x -> l !! j = Some y -> R x y) ->
  StronglySorted R l.
Proof.
  induction l as [|a l IH]; intros H; constructor.
  - apply IH. intros i j x y Hij Hx Hy. apply (H (S i) (S j) x y); [lia|assumption|assumption].
  - rewrite Forall_forall. intros y Hy.
    apply list_elem_of_lookup_1 in Hy as [j Hj].
    apply (H 0 (S j) a y); [lia|reflexivity|assumption].
Qed.

(** A slice split at [a] and [b]. *)
Lemma split_range (data : list A) a b :
  a <= b -> b <= length data ->
  exists front mid tail,
    data = front ++ mid ++ tail /\ length front = a /\ length mid = b - a.
Proof.
  intros Hab Hb. exists (take a data), (take (b - a) (drop a data)), (drop b data).
  splits.
  - rewrite <- (take_drop a data) at 1. f_equal.
    rewrite <- (take_drop (b - a) (drop a data)) at 1. f_equal.
    rewrite drop_drop. f_equal. lia.
  - apply length_take_le. lia.
  - rewrite length_take_le; [reflexivity|]. rewrite length_drop. lia.
Qed.

Lemma rearranged_middle (front mid mid' tail : list A) :
  mid' ≡ₚ mid ->
  rearranged (length front) (length front + length mid)
             (front ++ mid ++ tail) (front ++ mid' ++ tail).
Proof.
  intros Hp. pose proof (Permutation_length Hp) as Hlen. unfold rearranged. splits.
  - rewrite !length_app. lia.
  - rewrite Hp. reflexivity.
  - intros i [Hi|Hi].
    + rewrite !lookup_app_l by lia. reflexivity.
    + rewrite !(lookup_app_r front) by lia.
      rewrite !lookup_app_r by lia. rewrite Hlen. reflexivity.
  - intros i x Hi. rewrite (lookup_app_r front) by lia.
    rewrite lookup_app_l by lia. intros Hx.
    apply list_elem_of_lookup_2 in Hx. rewrite Hp in Hx.
    apply list_elem_of_lookup_1 in Hx as [j Hj].
    pose proof (lookup_lt_Some _ _ _ Hj) as Hjlt.
    exists (length front + j). split; [lia|].
    rewrite (lookup_app_r front) by lia. rewrite lookup_app_l by lia.
    replace (length front + j - length front) with j by lia. assumption.
Qed.

Lemma sortedIn_middle (front mid tail : list A) :
  StronglySorted (fun x y => less y x = false) mid ->
  sortedIn less (length front) (length front + length mid) (front ++ mid ++ tail).
Proof.
  intros Hs i j x y Hi Hij Hj.
  rewrite !(lookup_app_r front) by lia. rewrite !lookup_app_l by lia.
  intros Hx Hy.
  apply (StronglySorted_lookup (fun x y => less y x = false) mid
           (i - length front) (j - length front) x y Hs); [lia|assumption|assumption].
Qed.

Lemma insertionSort_func_range (data : list A) a b :
  a <= b -> b <= length data ->
  rearranged a b data (GoSort.insertionSort_func less data a b) /\
  sortedIn less a b (GoSort.insertionSort_func less data a b).
Proof.
  intros Hab Hb.
  destruct (split_range data a b Hab Hb) as (front & mid & tail & -> & Hf & Hm).
  replace b with (length front + length mid) by lia. rewrite <- Hf.
  rewrite insertionSort_func_spec.
  set (mid' := match mid with
               | [] => []
               | x :: rest => SortSpec.insertAll less [x] rest
               end).
  assert (Hp : mid' ≡ₚ mid).
  { unfold mid'. destruct mid as [|x rest]; [reflexivity|].
    apply (insertAll_perm less [x] rest). }
  assert (Hs : Sorted (fun x y => less y x = false) mid').
  { unfold mid'. destruct mid as [|x rest]; [constructor|].
    apply (insertAll_sorted less less_asym). repeat constructor. }
  split.
  - apply rearranged_middle. exact Hp.
  - rewrite <- (Permutation_length Hp). apply sortedIn_middle.
    apply Sorted_StronglySorted; [|exact Hs].
    intros x y z Hxy Hyz. apply (less_trans x y z Hxy Hyz).
Qed.

Lemma shell_pass_rearranged n (data : list A) a b i :
  a + 6 <= i -> n <= b - i ->
  rearranged a b data
    (GoSort.for_up n i
       (fun i data => if GoSort.Less less data i (i - 6)
                      then GoSort.Swap data i (i - 6) else data) data).
Proof.
  revert data i. induction n as [|n IH]; intros data i Hi Hn; cbn [GoSort.for_up].
  - apply rearranged_refl.
  - eapply rearranged_trans; [|apply IH; lia].
    destruct (GoSort.Less less data i (i - 6)); [|apply rearranged_refl].
    apply Swap_rearranged; lia.
Qed.

Lemma sortedIn_outside a b a' b' (d d' : list A) :
  rearranged a' b' d d' -> b <= a' \/ b' <= a ->
  sortedIn less a b d -> sortedIn less a b d'.
Proof.
  intros (_ & _ & O & _) Hd Hs i j x y Hi Hij Hj Hx Hy.
  rewrite O in Hx, Hy by lia. apply (Hs i j x y); assumption.
Qed.

(** Two sorted ranges around elements equal to a pivot that separates
    them. *)
Lemma sortedIn_join (data : list A) a mlo mhi b p :
  sortedIn less a mlo data -> sortedIn less mhi b data ->
  rangeAll (fun x => less p x = false) a mlo data ->
  rangeAll (fun x => less p x = false /\ less x p = false) mlo mhi data ->
  rangeAll (fun x => less x p = false) mhi b data ->
  sortedIn less a b data.
Proof.
  intros HsL HsG HL HE HG i j x y Hi Hij Hj Hx Hy.
  assert (Hxp : i < mhi -> less p x = false).
  { intros Hlt. destruct (decide (i < mlo)).
    - apply (HL i x); [lia|assumption].
    - apply (HE i x); [lia|assumption]. }
  assert (Hpy : mlo <= j -> less y p = false).
  { intros Hge. destruct (decide (j < mhi)).
    - apply (HE j y); [lia|assumption].
    - apply (HG j y); [lia|assumption]. }
  destruct (decide (j < mlo)) as [Hjl|Hjl].
  - apply (HsL i j x y); try assumption; lia.
  - destruct (decide (mhi <= i)) as [Hig|Hig].
    + apply (HsG i j x y); try assumption; lia.
    + apply (less_trans x p y); [apply Hxp; lia|apply Hpy; lia].
Qed.

Lemma quickSort_func_unfold fuel (data : list A) a b maxDepth :
  GoSort.quickSort_func less fuel data a b maxDepth =
    if 12 <? b - a then
      match fuel with
      | 0 => None
      | S fuel' =>
          if maxDepth =? 0 then Some (GoSort.heapSort_func less data a b)
          else
            let maxDepth := maxDepth - 1 in
            let '(data, mlo, mhi) := GoSort.doPivot_func less data a b in
            if mlo - a <? b - mhi then
              match GoSort.quickSort_func less fuel' data a mlo maxDepth with
              | Some data => GoSort.quickSort_func less fuel' data mhi b maxDepth
              | None => None
              end
            else
              match GoSort.quickSort_func less fuel' data mhi b maxDepth with
              | Some data => GoSort.quickSort_func less fuel' data a mlo maxDepth
              | None => None
              end
      end
    else if 1 <? b - a then
      let data :=
        GoSort.for_up (b - (a + 6)) (a + 6)
          (fun i data => if GoSort.Less less data i (i - 6)
                         then GoSort.Swap data i (i - 6) else data)
          data in
      Some (GoSort.insertionSort_func less data a b)
    else Some data.
Proof. destruct fuel; reflexivity. Qed.

Lemma quickSort_func_small fuel (data : list A) a b maxDepth :
  a <= b -> b <= length data -> b - a <= 12 ->
  exists data',
    GoSort.quickSort_func less fuel data a b maxDepth = Some data' /\
    rearranged a b data data' /\ sortedIn less a b data'.
Proof.
  intros Hab Hb Hsmall. rewrite quickSort_func_unfold.
  replace (12 <? b - a) with false by (symmetry; apply Nat.ltb_ge; lia).
  destruct (1 <? b - a) eqn:Hone.
  - cbv zeta.
    set (d1 := GoSort.for_up (b - (a + 6)) (a + 6)
                 (fun i data => if GoSort.Less less data i (i - 6)
                                then GoSort.Swap data i (i - 6) else data) data).
    assert (R1 : rearranged a b data d1) by (apply shell_pass_rearranged; lia).
    assert (L1 : length d1 = length data) by apply R1.
    destruct (insertionSort_func_range d1 a b Hab ltac:(lia)) as [R2 S2].
    eexists. splits; [reflexivity| |exact S2].
    eapply rearranged_trans; eassumption.
  - apply Nat.ltb_ge in Hone. exists data. splits; [reflexivity|apply rearranged_refl|].
    intros i j x y Hi Hij Hj. lia.
Qed.

Lemma quickSort_func_spec fuel (data : list A) a b maxDepth :
  a <= b -> b <= length data -> b - a <= fuel + 12 ->
  exists data',
    GoSort.quickSort_func less fuel data a b maxDepth = Some data' /\
    rearranged a b data data' /\ sortedIn less a b data'.
Proof.
  revert data a b maxDepth. induction fuel as [|fuel IH];
    intros data a b maxDepth Hab Hb Hfuel.
  { apply quickSort_func_small; lia. }
  destruct (decide (b - a <= 12)) as [Hsmall|Hbig].
  { apply quickSort_func_small; lia. }
  rewrite quickSort_func_unfold.
  replace (12 <? b - a) with true by (symmetry; apply Nat.ltb_lt; lia).
  destruct (maxDepth =? 0).
  { destruct (heapSort_func_spec less less_asym less_trans data a b Hab Hb) as [R S].
    eexists; splits; [reflexivity|exact R|exact S]. }
  cbv zeta.
  destruct (doPivot_func_spec less less_asym data a b ltac:(lia) Hb)
    as (d1 & mlo & mhi & p & -> & Hlo & Hmid & Hhi & R1 & HL & HE & HG).
  assert (L1 : length d1 = length data) by apply R1.
  destruct (mlo - a <? b - mhi).
  - destruct (IH d1 a mlo (maxDepth - 1)) as (d2 & -> & R2 & S2); try lia.
    assert (L2 : length d2 = length data) by (destruct R2 as [-> _]; exact L1).
    destruct (IH d2 mhi b (maxDepth - 1)) as (d3 & -> & R3 & S3); try lia.
    exists d3. splits; [reflexivity| |].
    + eapply rearranged_trans; [exact R1|]. eapply rearranged_trans.
      * eapply rearranged_weaken; [| |exact R2]; lia.
      * eapply rearranged_weaken; [| |exact R3]; lia.
    + apply (sortedIn_join d3 a mlo mhi b p).
      * apply (sortedIn_outside a mlo mhi b d2 d3 R3); [lia|exact S2].
      * exact S3.
      * apply (rearranged_rangeAll_outside _ mhi b a mlo d2 d3 R3); [lia|].
        apply (rearranged_rangeAll _ a mlo d1 d2 R2 HL).
      * apply (rearranged_rangeAll_outside _ mhi b mlo mhi d2 d3 R3); [lia|].
        apply (rearranged_rangeAll_outside _ a mlo mlo mhi d1 d2 R2); [lia|exact HE].
      * apply (rearranged_rangeAll _ mhi b d2 d3 R3).
        apply (rearranged_rangeAll_outside _ a mlo mhi b d1 d2 R2); [lia|exact HG].
  - destruct (IH d1 mhi b (maxDepth - 1)) as (d2 & -> & R2 & S2); try lia.
    assert (L2 : length d2 = length data) by (destruct R2 as [-> _]; exact L1).
    destruct (IH d2 a mlo (maxDepth - 1)) as (d3 & -> & R3 & S3); try lia.
    exists d3. splits; [reflexivity| |].
    + eapply rearranged_trans; [exact R1|]. eapply rearranged_trans.
      * eapply rearranged_weaken; [| |exact R2]; lia.
      * eapply rearranged_weaken; [| |exact R3]; lia.
    + apply (sortedIn_join d3 a mlo mhi b p).
      * exact S3.
      * apply (sortedIn_outside mhi b a mlo d2 d3 R3); [lia|exact S2].
      * apply (rearranged_rangeAll _ a mlo d2 d3 R3).
        apply (rearranged_rangeAll_outside _ mhi b a mlo d1 d2 R2); [lia|exact HL].
      * apply (rearranged_rangeAll_outside _ a mlo mlo mhi d2 d3 R3); [lia|].
        apply (rearranged_rangeAll_outside _ mhi b mlo mhi d1 d2 R2); [lia|exact HE].
      * apply (rearranged_rangeAll_outside _ a mlo mhi b d2 d3 R3); [lia|].
        apply (rearranged_rangeAll _ mhi b d1 d2 R2 HG).
Qed.

(** The loop of [maxDepth] ends within the rounds it is given: more of
    them change nothing. *)
Lemma maxDepth_loop_fuel fuel extra i depth :
  i <= fuel ->
  GoSort.maxDepth_loop (fuel + extra) i depth = GoSort.maxDepth_loop fuel i depth.
Proof.
  revert i depth. induction fuel as [|fuel IH]; intros i depth Hi.
  - assert (i = 0) as -> by lia. destruct extra; reflexivity.
  - cbn [Nat.add GoSort.maxDepth_loop]. destruct (0 <? i) eqn:Hpos; [|reflexivity].
    apply Nat.ltb_lt in Hpos. apply IH.
    pose proof (div_bounds i 2 ltac:(lia)). lia.
Qed.

(** [sort.Slice] returns, with the elements it was given, sorted. *)
Theorem Slice_sorts (x : list A) :
  exists x',
    GoSort.Slice less x = Some x' /\
    x' ≡ₚ x /\
    Sorted (fun u v => less v u = false) x'.
Proof.
  unfold GoSort.Slice. cbv zeta.
  destruct (quickSort_func_spec (length x) x 0 (length x) (GoSort.maxDepth (length x)))
    as (x' & Hrun & R & S); try lia.
  exists x'. splits; [exact Hrun|apply R|].
  apply StronglySorted_Sorted. apply lookup_StronglySorted.
  intros i j u v Hij Hu Hv.
  apply (S i j u v); try lia; try assumption.
  destruct R as [L _]. rewrite <- L. apply (lookup_lt_Some _ _ _ Hv).
Qed.

End QuickSort.

(** *** The walk *)

Lemma runCallbacks_spec (w : World) calls reports effects :
  runCallbacks w calls reports effects =
    (reports ++ reportsOf calls, effects ++ debugLinesOf calls).
Proof.
  revert reports effects. induction calls as [|[info n msg sugg|s] rest IH];
    intros reports effects; simpl.
  - rewrite !app_nil_r. reflexivity.
  - rewrite IH, <- app_assoc. reflexivity.
  - rewrite IH, <- app_assoc. reflexivity.
Qed.

Lemma WalkFile_bound (w : World) sort_Slice (c : ruleguardChecker w) (f : File w) e calls err :
  engine c = Some e ->
  Run w e (runContext w c) f = (calls, err) ->
  WalkFile w sort_Slice c f =
    debugLinesOf calls ++ executionWarning w f err ++
    warnings (order w sort_Slice (reportsOf calls)).
Proof.
  intros He HR. unfold WalkFile. rewrite He, HR, runCallbacks_spec. simpl.
  destruct err as [e'|]; simpl; [rewrite <- app_assoc|]; reflexivity.
Qed.

(** Claim C7.  A checker without engine does nothing on any file: [WalkFile]
    makes no call of [Warn] and writes nothing to the error stream (and the
    engine is not run). *)
Theorem C7_no_engine_no_effect :
  forall (w : World) (sort_Slice : forall A : Type, list A -> (A -> A -> bool) -> list A)
         (c : ruleguardChecker w) (f : File w),
    engine c = None -> WalkFile w sort_Slice c f = [].
Proof. intros w sort_Slice c f He. unfold WalkFile. rewrite He. reflexivity. Qed.

Lemma C7_witness :
  WalkFile Example.world GoSort.sort_Slice Example.idle 1 = [].
Proof. apply C7_no_engine_no_effect. reflexivity. Defined.

Lemma report_less_asym {w : World} (x y : ruleguardReport w) :
  report_less x y = true -> report_less y x = false.
Proof. apply lt_asym. Qed.

Lemma report_less_trans {w : World} (x y z : ruleguardReport w) :
  report_less y x = false -> report_less z y = false -> report_less z x = false.
Proof.
  unfold report_less. rewrite !lt_leb. apply leb_trans.
Qed.

(** The sort of the Go library keeps its promise on the reports. *)
Lemma sort_Slice_sortsReports : sortsReports GoSort.sort_Slice.
Proof.
  intros w reports. unfold GoSort.sort_Slice.
  destruct (Slice_sorts report_less report_less_asym report_less_trans reports)
    as (sorted & -> & Hperm & Hsorted).
  split; assumption.
Qed.

Lemma insertionSort_sortsReports : sortsReports GoSort.insertionSort.
Proof.
  intros w reports. split.
  - apply insertionSort_perm.
  - apply insertionSort_sorted. intros x y. apply lt_asym.
Qed.

Lemma sortedByMessage_messages {w : World} (reports : list (ruleguardReport w)) :
  sortedByMessage reports -> StronglySorted string_le (message <$> reports).
Proof.
  intros Hs. apply Sorted_StronglySorted; [apply _|].
  apply (Sorted_fmap message (fun x y => report_less y x = false) string_le); [|exact Hs].
  intros x y Hxy. apply lt_leb. exact Hxy.
Qed.

(** Sortedness under the comparison of [WalkFile] is ascending order of
    the message texts. *)
Lemma sortedByMessage_ascending {w : World} (reports : list (ruleguardReport w)) :
  sortedByMessage reports <-> ascendingByMessage reports.
Proof.
  split.
  - intros Hs i j x y Hij Hx Hy.
    apply (StronglySorted_lookup string_le (message <$> reports) i j
             (message x) (message y) (sortedByMessage_messages reports Hs) Hij).
    + rewrite list_lookup_fmap, Hx. reflexivity.
    + rewrite list_lookup_fmap, Hy. reflexivity.
  - intros Ha. unfold sortedByMessage.
    induction reports as [|x reports IH]; [constructor|].
    constructor.
    + apply IH. intros i j a b Hij Hi Hj. apply (Ha (S i) (S j) a b); [lia|assumption|assumption].
    + destruct reports as [|y reports]; constructor.
      unfold report_less. apply lt_leb. apply (Ha 0%nat 1%nat x y); [lia|reflexivity|reflexivity].
Qed.

(** Claim C6.  When [Run] returns an error, [WalkFile] still returns; what
    it does is: the debug lines of the run, then exactly one warning on the
    file node carrying the error, then one warning for each report the
    callback collected, all of them, in ascending order of their message
    texts (for a [sort.Slice] that sorts).  On a run that reports [b-msg] at
    N1 and [a-msg] at N2 and then fails, the sort of the Go library gives the
    warning on the file, [a-msg] at N2, [b-msg] at N1. *)
Theorem C6_execution_error_is_one_warning :
  (forall sort_Slice : forall A : Type, list A -> (A -> A -> bool) -> list A,
     sortsReports sort_Slice ->
   forall (w : World) (c : ruleguardChecker w) (f : File w) (e : Engine w)
          (calls : list (Callback (GoRuleInfo w) (Node w) (Suggestion w))) (err : goError),
     engine c = Some e ->
     Run w e (runContext w c) f = (calls, Some err) ->
     exists emitted : list (ruleguardReport w),
       WalkFile w sort_Slice c f =
         debugLinesOf calls ++
         [Warn (fileNode w f) "execution error: %v" [Error err]] ++
         warnings emitted /\
       emitted ≡ₚ reportsOf calls /\
       ascendingByMessage emitted) /\
  (forall (w : World) (c : ruleguardChecker w) (f : File w) (e : Engine w)
          (i1 i2 : GoRuleInfo w) (N1 N2 : Node w) (s1 s2 : option (Suggestion w))
          (err : goError),
     engine c = Some e ->
     Run w e (runContext w c) f =
       ([CallReport i1 N1 "b-msg" s1; CallReport i2 N2 "a-msg" s2], Some err) ->
     let expected := [Warn (fileNode w f) "execution error: %v" [Error err];
                      Warn N2 "a-msg" []; Warn N1 "b-msg" []] in
     WalkFile w GoSort.sort_Slice c f = expected /\
     WalkFile w GoSort.insertionSort c f = expected).
Proof.
  split.
  - intros sort_Slice Hsort w c f e calls err He HR.
    exists (order w sort_Slice (reportsOf calls)).
    split; [apply (WalkFile_bound w sort_Slice c f e calls (Some err) He HR)|].
    destruct (Hsort w (reportsOf calls)) as [Hperm Hsorted].
    split; [exact Hperm|]. apply sortedByMessage_ascending. exact Hsorted.
  - intros w c f e i1 i2 N1 N2 s1 s2 err He HR expected. split.
    + rewrite (WalkFile_bound w GoSort.sort_Slice c f e _ (Some err) He HR). reflexivity.
    + rewrite (WalkFile_bound w GoSort.insertionSort c f e _ (Some err) He HR). reflexivity.
Qed.

Lemma C6_witness :
  exists emitted : list (ruleguardReport Example.world),
    WalkFile Example.world GoSort.sort_Slice Example.checker 3 =
      debugLinesOf (w := Example.world) [CallDebugPrint "rule matched"; Example.call 1 "b-msg";
                    Example.call 2 "a-msg"] ++
      [Warn (w := Example.world) 1003 "execution error: %v" ["engine failure"]] ++
      warnings emitted /\
    emitted ≡ₚ [Example.report 1 "b-msg"; Example.report 2 "a-msg"] /\
    ascendingByMessage emitted.
Proof.
  apply (proj1 C6_execution_error_is_one_warning GoSort.sort_Slice sort_Slice_sortsReports
           Example.world Example.checker 3 ["rules-a.txt"]
           [CallDebugPrint "rule matched"; Example.call 1 "b-msg"; Example.call 2 "a-msg"]
           (errorString "engine failure")); reflexivity.
Defined.

Lemma messages_determined {w : World} (l1 l2 : list (ruleguardReport w)) :
  l1 ≡ₚ l2 -> sortedByMessage l1 -> sortedByMessage l2 ->
  message <$> l1 = message <$> l2.
Proof.
  intros Hp H1 H2. apply (StronglySorted_unique string_le).
  - apply sortedByMessage_messages, H1.
  - apply sortedByMessage_messages, H2.
  - apply fmap_Permutation, Hp.
Qed.

Lemma same_messages_same_reports {w : World} (l1 l2 : list (ruleguardReport w)) :
  l1 ≡ₚ l2 -> message <$> l1 = message <$> l2 -> NoDup (message <$> l1) -> l1 = l2.
Proof.
  revert l2. induction l1 as [|x l1 IH]; intros [|y l2] Hp Hm Hnd; try discriminate.
  - reflexivity.
  - rewrite !fmap_cons in Hm, Hnd. injection Hm as Hxy Hm.
    apply NoDup_cons in Hnd as [Hx Hnd].
    assert (x = y) as <-.
    { assert (Hin : x ∈ y :: l2) by (rewrite <- Hp; left).
      apply elem_of_cons in Hin as [?|Hin]; [assumption|].
      exfalso. apply Hx. rewrite Hm. apply list_elem_of_fmap_2, Hin. }
    f_equal. apply IH; [|assumption|assumption].
    apply (Permutation_cons_inv Hp).
  Qed.

(** Claim C1, as amended.  For a [sort.Slice] that sorts, the reports of one
    run are emitted sorted by message text, ascending; they are the reports
    the callback produced, each once; and the sequence of emitted message
    texts is the same for every such sort.  Nothing is promised on the order
    among reports with the same text.  On the three findings of scenario E
    ([b-msg] at N1, [a-msg] at N2, [a-msg] at N3), the sort of the Go library
    emits [a-msg] at N2, [a-msg] at N3, [b-msg] at N1. *)
Theorem C1_findings_are_emitted_sorted_by_message :
  (forall sort_Slice : forall A : Type, list A -> (A -> A -> bool) -> list A,
     sortsReports sort_Slice ->
   forall (w : World) (c : ruleguardChecker w) (f : File w) (e : Engine w)
          (calls : list (Callback (GoRuleInfo w) (Node w) (Suggestion w)))
          (err : option goError),
     engine c = Some e ->
     Run w e (runContext w c) f = (calls, err) ->
     exists emitted : list (ruleguardReport w),
       WalkFile w sort_Slice c f =
         debugLinesOf calls ++ executionWarning w f err ++ warnings emitted /\
       emitted ≡ₚ reportsOf calls /\
       sortedByMessage emitted /\
       forall other : list (ruleguardReport w),
         other ≡ₚ reportsOf calls -> sortedByMessage other ->
         message <$> other = message <$> emitted) /\
  (forall (w : World) (N1 N2 N3 : Node w),
     let produced := [ {| node := N1; message := "b-msg" |};
                       {| node := N2; message := "a-msg" |};
                       {| node := N3; message := "a-msg" |} ] in
     let emitted := [ {| node := N2; message := "a-msg" |};
                      {| node := N3; message := "a-msg" |};
                      {| node := N1; message := "b-msg" |} ] in
     GoSort.Slice report_less produced = Some emitted /\
     GoSort.insertionSort _ produced report_less = emitted).
Proof.
  split.
  - intros sort_Slice Hsort w c f e calls err He HR.
    exists (order w sort_Slice (reportsOf calls)).
    destruct (Hsort w (reportsOf calls)) as [Hperm Hsorted].
    split; [apply (WalkFile_bound w sort_Slice c f e calls err He HR)|].
    split; [exact Hperm|]. split; [exact Hsorted|].
    intros other Hp Hs. apply messages_determined; [|assumption|assumption].
    rewrite Hp. symmetry. exact Hperm.
  - intros w N1 N2 N3. split; vm_compute; reflexivity.
Qed.

Lemma C1_witness :
  exists emitted : list (ruleguardReport Example.world),
    WalkFile Example.world GoSort.sort_Slice Example.checker 0 =
      debugLinesOf (w := Example.world) Example.scenarioE ++
      executionWarning Example.world 0 None ++
      warnings emitted /\
    emitted ≡ₚ reportsOf (w := Example.world) Example.scenarioE /\
    sortedByMessage emitted /\
    forall other : list (ruleguardReport Example.world),
      other ≡ₚ reportsOf (w := Example.world) Example.scenarioE -> sortedByMessage other ->
      message <$> other = message <$> emitted.
Proof.
  apply (proj1 C1_findings_are_emitted_sorted_by_message
           GoSort.sort_Slice sort_Slice_sortsReports
           Example.world Example.checker 0 ["rules-a.txt"] Example.scenarioE None);
    reflexivity.
Defined.

(** Claim C1, as stated, fails on seven findings with the sort of the Go
    library before 1.19.  The slice has at most 12 elements, so the sort is
    the Shell pass followed by insertion sort.  The Shell pass compares the
    element at 6 ([a-msg]) with the one at 0 ([b-msg] at node 1) and swaps
    them, which takes the first [b-msg] behind the second; insertion sort
    then moves it down past the four [c-msg] and stops at the other [b-msg],
    which it is not less than.  The two [b-msg] findings come out in the
    order node 2, node 1. *)
Lemma C1_counterexample :
  reportsOf (w := Example.world) Example.sevenFindings =
    [Example.report 1 "b-msg"; Example.report 2 "b-msg"; Example.report 3 "c-msg";
     Example.report 4 "c-msg"; Example.report 5 "c-msg"; Example.report 6 "c-msg";
     Example.report 7 "a-msg"] /\
  GoSort.Slice report_less (reportsOf (w := Example.world) Example.sevenFindings) =
    Some [Example.report 7 "a-msg"; Example.report 2 "b-msg"; Example.report 1 "b-msg";
          Example.report 3 "c-msg"; Example.report 4 "c-msg"; Example.report 5 "c-msg";
          Example.report 6 "c-msg"] /\
  WalkFile Example.world GoSort.sort_Slice Example.checker 1 =
    [Warn (w := Example.world) 7 "a-msg" []; Warn (w := Example.world) 2 "b-msg" [];
     Warn (w := Example.world) 1 "b-msg" []; Warn (w := Example.world) 3 "c-msg" [];
     Warn (w := Example.world) 4 "c-msg" []; Warn (w := Example.world) 5 "c-msg" [];
     Warn (w := Example.world) 6 "c-msg" []] /\
  ~ tiesInProductionOrder
      (order Example.world GoSort.sort_Slice
             (reportsOf (w := Example.world) Example.sevenFindings))
      (reportsOf (w := Example.world) Example.sevenFindings) /\
  ~ (forall sort_Slice : forall A : Type, list A -> (A -> A -> bool) -> list A,
       sortsReports sort_Slice ->
       forall (w : World) (reports : list (ruleguardReport w)),
         tiesInProductionOrder (order w sort_Slice reports) reports).
Proof.
  split; [reflexivity|]. split; [vm_compute; reflexivity|].
  split; [vm_compute; reflexivity|]. split.
  - intros H. specialize (H "b-msg"). vm_compute in H. discriminate H.
  - intros H.
    specialize (H GoSort.sort_Slice sort_Slice_sortsReports Example.world
                  (reportsOf (w := Example.world) Example.sevenFindings) "b-msg").
    vm_compute in H. discriminate H.
Qed.

(** Claim C8, as amended.  For a [sort.Slice] that sorts, ordering the
    findings twice gives the same sequence of message texts as ordering them
    once, and again a sorted arrangement of the same findings; it gives the
    same sequence of findings when no two findings of [F] share their message
    text. *)
Theorem C8_ordering_twice_keeps_the_messages :
  forall sort_Slice : forall A : Type, list A -> (A -> A -> bool) -> list A,
    sortsReports sort_Slice ->
  forall (w : World) (F : list (ruleguardReport w)),
    let once := order w sort_Slice F in
    let twice := order w sort_Slice once in
    message <$> twice = message <$> once /\
    twice ≡ₚ once /\
    sortedByMessage twice /\
    (NoDup (message <$> F) -> twice = once).
Proof.
  intros sort_Slice Hsort w F once twice.
  destruct (Hsort w F) as [Hp1 Hs1]. destruct (Hsort w once) as [Hp2 Hs2].
  fold once in Hp1, Hs1. fold twice in Hp2, Hs2. unfold order in *.
  assert (Hm : message <$> twice = message <$> once)
    by (apply messages_determined; assumption).
  split; [exact Hm|]. split; [exact Hp2|]. split; [exact Hs2|].
  intros Hnd. apply same_messages_same_reports; [assumption|assumption|].
  rewrite Hm. apply (NoDup_Permutation_proper _ _ (fmap_Permutation message _ _ Hp1)).
  exact Hnd.
Qed.

Lemma C8_witness :
  let once := order Example.world GoSort.sort_Slice
                [Example.report 1 "b-msg"; Example.report 2 "a-msg"] in
  let twice := order Example.world GoSort.sort_Slice once in
  message <$> twice = message <$> once /\
  twice ≡ₚ once /\
  sortedByMessage twice /\
  (NoDup (message <$> [Example.report 1 "b-msg"; Example.report 2 "a-msg"]) -> twice = once).
Proof.
  apply (C8_ordering_twice_keeps_the_messages GoSort.sort_Slice sort_Slice_sortsReports
           Example.world [Example.report 1 "b-msg"; Example.report 2 "a-msg"]).
Defined.

(** Claim C8, as stated, fails on thirteen findings with the sort of the Go
    library before 1.19.  [F] is sorted by message already.  [doPivot_func]
    takes the middle element ([m] at node 6) to the front as the pivot; the
    partition leaves everything in place; the final swap of the pivot with
    the last element that is not above it ([m] at node 7, index 7) exchanges
    the two [m] findings; the rest of the sort (the five [z], then a Shell
    pass and insertion sort on the first seven) keeps that order.  A second
    pass exchanges them again. *)
Lemma C8_counterexample :
  let F := reportsOf (w := Example.world) Example.thirteenFindings in
  let once := [Example.report 0 "a"; Example.report 1 "a"; Example.report 2 "a";
               Example.report 3 "a"; Example.report 4 "a"; Example.report 5 "a";
               Example.report 7 "m"; Example.report 6 "m";
               Example.report 8 "z"; Example.report 9 "z"; Example.report 10 "z";
               Example.report 11 "z"; Example.report 12 "z"] in
  GoSort.Slice report_less F = Some once /\
  GoSort.Slice report_less once = Some F /\
  order Example.world GoSort.sort_Slice (order Example.world GoSort.sort_Slice F) <>
    order Example.world GoSort.sort_Slice F /\
  ~ (forall sort_Slice : forall A : Type, list A -> (A -> A -> bool) -> list A,
       sortsReports sort_Slice ->
       forall (w : World) (reports : list (ruleguardReport w)),
         order w sort_Slice (order w sort_Slice reports) = order w sort_Slice reports).
Proof.
  split; [vm_compute; reflexivity|]. split; [vm_compute; reflexivity|]. split.
  - vm_compute. discriminate.
  - intros H.
    specialize (H GoSort.sort_Slice sort_Slice_sortsReports Example.world
                  (reportsOf (w := Example.world) Example.thirteenFindings)).
    vm_compute in H. discriminate H.
Qed.

(** ** Further properties *)

Import Trace.

Lemma Quiet_range_ok : range_ok (range Quiet.world).
Proof. intros A m. apply reverse_Permutation. Qed.

(** *** More on the failure policy *)

Lemma newErrorHandler_lookup range P h :
  newErrorHandler range P = inl h ->
  forall k, failureConditions h !! k =
            if decide (k ∈ GoStrings.Split_comma P /\ k <> "")
            then failOnErrorPredicates !! k else None.
Proof.
  intros Hh k. unfold newErrorHandler in Hh.
  destruct (newErrorHandler_loop_ok _ _ _ _ Hh) as [_ Hlook].
  rewrite Hlook. cbn [failureConditions]. rewrite lookup_empty. reflexivity.
Qed.

Lemma failOnParseError_named range (Hr : range_ok range) P h E :
  newErrorHandler range P = inl h ->
  failOnParseError range h E = true <->
  ("import" ∈ GoStrings.Split_comma P /\ errors_As_ImportError E = true) \/
  ("dsl" ∈ GoStrings.Split_comma P /\ errors_As_ImportError E = false) \/
  "all" ∈ GoStrings.Split_comma P.
Proof.
  intros Hh. rewrite (failOnParseError_true range Hr). split.
  - intros (k & p & Hk & Hp). rewrite (newErrorHandler_lookup range P h Hh) in Hk.
    destruct (decide (k ∈ GoStrings.Split_comma P /\ k <> "")) as [[Hin _]|_]; [|discriminate].
    rewrite failOnErrorPredicates_lookup in Hk.
    repeat case_decide; subst; try discriminate; injection Hk as <-.
    + right; left. split; [assumption|].
      destruct (errors_As_ImportError E); [discriminate|reflexivity].
    + left. auto.
    + right; right. assumption.
  - assert (Hget : forall k p, k ∈ GoStrings.Split_comma P -> k <> "" ->
                     failOnErrorPredicates !! k = Some p ->
                     failureConditions h !! k = Some p).
    { intros k p Hin Hne Hp. rewrite (newErrorHandler_lookup range P h Hh).
      destruct (decide (k ∈ GoStrings.Split_comma P /\ k <> "")) as [_|Hn]; [assumption|].
      exfalso. apply Hn. split; assumption. }
    intros [[Hin HE]|[[Hin HE]|Hin]].
    + exists "import", (fun err => errors_As_ImportError err).
      split; [apply Hget; [assumption|discriminate|reflexivity]|assumption].
    + exists "dsl", (fun err => negb (errors_As_ImportError err)).
      split; [apply Hget; [assumption|discriminate|reflexivity]|]. rewrite HE. reflexivity.
    + exists "all", (fun _ => true).
      split; [apply Hget; [assumption|discriminate|reflexivity]|reflexivity].
Qed.

(** X1.  Naming more policies only makes the handler stricter: when every
    policy named in [P] is also named in [Q], every error that is fatal under
    [P] is fatal under [Q]. *)
Theorem X1_more_names_are_stricter :
  forall range, range_ok range ->
  forall (P Q : string) (hP hQ : parseErrorHandler),
    newErrorHandler range P = inl hP ->
    newErrorHandler range Q = inl hQ ->
    (forall k, k ∈ GoStrings.Split_comma P -> k <> "" -> k ∈ GoStrings.Split_comma Q) ->
    forall E : goError,
      failOnParseError range hP E = true -> failOnParseError range hQ E = true.
Proof.
  intros range Hr P Q hP hQ HP HQ Hsub E.
  rewrite (failOnParseError_named range Hr P hP E HP).
  rewrite (failOnParseError_named range Hr Q hQ E HQ).
  intros [[Hin HE]|[[Hin HE]|Hin]].
  - left. split; [apply Hsub; [assumption|discriminate]|assumption].
  - right; left. split; [apply Hsub; [assumption|discriminate]|assumption].
  - right; right. apply Hsub; [assumption|discriminate].
Qed.

Lemma X1_witness :
  failOnParseError (range Example.world) Quiet.dslAndImport Example.importFailure = true.
Proof.
  apply (X1_more_names_are_stricter (range Example.world) Example_range_ok
           "import" "dsl,import" Example.importOnly Quiet.dslAndImport).
  - vm_compute; reflexivity.
  - vm_compute; reflexivity.
  - intros k Hin _. change (k ∈ ["import"]) in Hin.
    apply elem_of_cons in Hin as [->|Hin]; [|inversion Hin].
    change ("import" ∈ ["dsl"; "import"]). right. left.
  - vm_compute; reflexivity.
Defined.

(** X2.  The handler depends on the set of names in the flag only: two
    flags that name the same policies, in whatever order, with whatever
    repetitions and empty pieces, give the same handler. *)
Theorem X2_handler_depends_on_the_names_only :
  forall range range' (P Q : string) (hP hQ : parseErrorHandler),
    newErrorHandler range P = inl hP ->
    newErrorHandler range' Q = inl hQ ->
    (forall k, k <> "" ->
       (k ∈ GoStrings.Split_comma P <-> k ∈ GoStrings.Split_comma Q)) ->
    hP = hQ.
Proof.
  intros range range' P Q [mP] [mQ] HP HQ Hsame. f_equal. apply map_eq. intros k.
  pose proof (newErrorHandler_lookup range P _ HP k) as LP.
  pose proof (newErrorHandler_lookup range' Q _ HQ k) as LQ.
  cbn [failureConditions] in LP, LQ. rewrite LP, LQ.
  destruct (decide (k ∈ GoStrings.Split_comma P /\ k <> "")) as [[Hin Hne]|HnP];
    destruct (decide (k ∈ GoStrings.Split_comma Q /\ k <> "")) as [[Hin' Hne']|HnQ];
    try reflexivity.
  - exfalso. apply HnQ. split; [apply Hsame; assumption|assumption].
  - exfalso. apply HnP. split; [apply Hsame; assumption|assumption].
Qed.

Lemma X2_witness :
  {| failureConditions :=
       <["dsl" := fun err => negb (errors_As_ImportError err)]>
         (<["import" := fun err => errors_As_ImportError err]> ∅) |} =
  Quiet.dslAndImport.
Proof.
  apply (X2_handler_depends_on_the_names_only (range Example.world) (range Quiet.world)
           "import,dsl" ",dsl,,import,dsl").
  - vm_compute; reflexivity.
  - vm_compute; reflexivity.
  - intros k Hne.
    change (k ∈ ["import"; "dsl"] <-> k ∈ [""; "dsl"; ""; "import"; "dsl"]).
    rewrite !elem_of_cons, !elem_of_nil. split.
    + intros [->|[->|[]]]; auto.
    + intros [->|[->|[->|[->|[->|[]]]]]]; auto; contradiction.
Defined.

(** X3.  A handler is fatal for every error exactly when its flag names
    [all], or names both [import] and [dsl]. *)
Theorem X3_fatal_for_every_error :
  forall range, range_ok range ->
  forall (P : string) (h : parseErrorHandler),
    newErrorHandler range P = inl h ->
    (forall E : goError, failOnParseError range h E = true) <->
    "all" ∈ GoStrings.Split_comma P \/
    ("import" ∈ GoStrings.Split_comma P /\ "dsl" ∈ GoStrings.Split_comma P).
Proof.
  intros range Hr P h Hh. split.
  - intros Hall.
    pose proof (proj1 (failOnParseError_named range Hr P h (errorString "") Hh)
                      (Hall _)) as H1.
    pose proof (proj1 (failOnParseError_named range Hr P h
                         (ImportError "" (errorString "")) Hh) (Hall _)) as H2.
    cbn [errors_As_ImportError] in H1, H2.
    destruct H1 as [[_ [=]]|[[Hdsl _]|Hall1]]; [|left; assumption].
    destruct H2 as [[Himp _]|[[_ [=]]|Hall2]]; [|left; assumption].
    right. split; assumption.
  - intros Hnames E. apply (failOnParseError_named range Hr P h E Hh).
    destruct Hnames as [Hall|[Himp Hdsl]]; [right; right; assumption|].
    destruct (errors_As_ImportError E); [left|right; left]; auto.
Qed.

Lemma X3_witness :
  (forall E : goError, failOnParseError (range Example.world) Quiet.dslAndImport E = true) <->
  "all" ∈ GoStrings.Split_comma "dsl,import" \/
  ("import" ∈ GoStrings.Split_comma "dsl,import" /\
   "dsl" ∈ GoStrings.Split_comma "dsl,import").
Proof.
  apply (X3_fatal_for_every_error (range Example.world) Example_range_ok
           "dsl,import" Quiet.dslAndImport).
  vm_compute; reflexivity.
Defined.

Lemma newErrorHandler_first range ks h0 err :
  newErrorHandler_loop range ks h0 = inr err ->
  exists before k rest,
    ks = before ++ k :: rest /\
    (forall k', k' ∈ before -> k' = "" \/ k' ∈ policyNames) /\
    k <> "" /\ (k ∉ policyNames) /\
    err = initErrorInvalidFlag k ((range _ failOnErrorPredicates).*1).
Proof.
  revert h0 err.
  induction ks as [|k0 ks IH]; intros h0 err; cbn [newErrorHandler_loop]; [discriminate|].
  destruct (String.eqb_spec k0 "") as [->|Hne].
  - intros Hl. destruct (IH _ _ Hl) as (before & k & rest & -> & Hb & Hk & Hn & ->).
    exists ("" :: before), k, rest. split; [reflexivity|]. split; [|auto].
    intros k' [->|Hin]%elem_of_cons; [left; reflexivity|auto].
  - destruct (failOnErrorPredicates !! k0) as [p|] eqn:Hp.
    + intros Hl. destruct (IH _ _ Hl) as (before & k & rest & -> & Hb & Hk & Hn & ->).
      exists (k0 :: before), k, rest. split; [reflexivity|]. split; [|auto].
      intros k' [->|Hin]%elem_of_cons; [|auto].
      right. apply policyNames_lookup. rewrite Hp. eauto.
    + intros [= <-]. exists [], k0, ks. split; [reflexivity|].
      split; [intros k' Hin; inversion Hin|]. split; [assumption|]. split; [|reflexivity].
      intros Hpol%policyNames_lookup. rewrite Hp in Hpol. destruct Hpol as [? [=]].
Qed.

(** X4.  When the flag is rejected, the error is for the first piece that is
    neither empty nor a policy name: all pieces before it are acceptable, and
    construction of the handler fails exactly when there is such a piece. *)
Theorem X4_the_first_unknown_name_is_reported :
  forall range (P : string),
    ((exists err, newErrorHandler range P = inr err) <->
     exists k, k ∈ GoStrings.Split_comma P /\ k <> "" /\ k ∉ policyNames) /\
    forall err, newErrorHandler range P = inr err ->
      exists before k rest,
        GoStrings.Split_comma P = before ++ k :: rest /\
        (forall k', k' ∈ before -> k' = "" \/ k' ∈ policyNames) /\
        k <> "" /\ (k ∉ policyNames) /\
        err = initErrorInvalidFlag k ((range _ failOnErrorPredicates).*1).
Proof.
  intros range P.
  pose proof (newErrorHandler_first range) as Hfirst.
  split.
  - split.
    + intros [err Herr]. destruct (Hfirst _ _ _ Herr) as (before & k & rest & E & _ & Hk & Hn & _).
      exists k. split; [|auto]. rewrite E. apply elem_of_app. right. left.
    + intros (k & Hin & Hne & Hnot).
      destruct (newErrorHandler_unknown range P k Hin Hne Hnot) as (k' & _ & _ & _ & ->). eauto.
  - intros err Herr. apply (Hfirst _ _ _ Herr).
Qed.

Lemma X4_witness :
  ((exists err, newErrorHandler (range Example.world) "import,bogus,x" = inr err) <->
   exists k, k ∈ GoStrings.Split_comma "import,bogus,x" /\ k <> "" /\ k ∉ policyNames) /\
  forall err, newErrorHandler (range Example.world) "import,bogus,x" = inr err ->
    exists before k rest,
      GoStrings.Split_comma "import,bogus,x" = before ++ k :: rest /\
      (forall k', k' ∈ before -> k' = "" \/ k' ∈ policyNames) /\
      k <> "" /\ (k ∉ policyNames) /\
      err = initErrorInvalidFlag k ((range Example.world _ failOnErrorPredicates).*1).
Proof. apply (X4_the_first_unknown_name_is_reported (range Example.world) "import,bogus,x"). Defined.

(** *** The trace of a construction *)

Lemma int_wrap_add (a b : Z) : int_wrap (int_wrap a + b) = int_wrap (a + b).
Proof.
  unfold int_wrap. f_equal.
  replace ((a + 2 ^ 63) mod 2 ^ 64 - 2 ^ 63 + b + 2 ^ 63)%Z
    with ((a + 2 ^ 63) mod 2 ^ 64 + b)%Z by lia.
  rewrite Zplus_mod_idemp_l. f_equal. lia.
Qed.

Lemma int_wrap_small (a : Z) : (- 2 ^ 63 <= a < 2 ^ 63)%Z -> int_wrap a = a.
Proof. intros H. unfold int_wrap. rewrite Z.mod_small; lia. Qed.

Lemma int_wrap_range (a : Z) : (- 2 ^ 63 <= int_wrap a < 2 ^ 63)%Z.
Proof.
  unfold int_wrap.
  pose proof (Z.mod_pos_bound (a + 2 ^ 63) (2 ^ 64) ltac:(lia)). lia.
Qed.

Lemma forEach_cons_run {w A} (body : A -> Init w unit) x xs st o st' :
  forEach body (x :: xs) st = (o, st') ->
  (exists st1, body x st = (Continue tt, st1) /\ forEach body xs st1 = (o, st')) \/
  (exists err, body x st = (Return err, st') /\ o = Return err).
Proof.
  cbn [forEach]. unfold bind. destruct (body x st) as [[[]|err] st1].
  - intros H. left. eauto.
  - intros [= <- <-]. right. eauto.
Qed.

Section Accounting.

Context (w : World).

Lemma globsOf_app a b : globsOf (a ++ b) = globsOf a ++ globsOf b.
Proof. apply omap_app. Qed.
Lemma readsOf_app a b : readsOf (a ++ b) = readsOf a ++ readsOf b.
Proof. apply omap_app. Qed.
Lemma loadsOf_app a b : loadsOf (a ++ b) = loadsOf a ++ loadsOf b.
Proof. apply omap_app. Qed.
Lemma logsOf_app a b : logsOf (a ++ b) = logsOf a ++ logsOf b.
Proof. apply omap_app. Qed.

Lemma accounted_nil (st : initState w) : accounted w [] [] (Continue tt) st st [].
Proof.
  unfold accounted. cbn. rewrite app_nil_r, Z.add_0_r.
  splits; try reflexivity; try constructor.
  intros H. symmetry. apply int_wrap_small. exact H.
Qed.

(** A part that ends early has dealt with a prefix of any longer task. *)
Lemma accounted_Return g1 f1 g2 f2 err (st st' : initState w) evs :
  accounted w g1 f1 (Return err) st st' evs ->
  accounted w (g1 ++ g2) (f1 ++ f2) (Return err) st st' evs.
Proof.
  intros (Hev & Hg & Hr & Hl & Hlog & He & Herr). unfold accounted. splits; try assumption.
  - apply list.prefix_app_r. assumption.
  - apply list.prefix_app_r. assumption.
Qed.

Lemma accounted_seq g1 f1 g2 f2 o (st st1 st2 : initState w) evs1 evs2 :
  accounted w g1 f1 (Continue tt) st st1 evs1 ->
  accounted w g2 f2 o st1 st2 evs2 ->
  accounted w (g1 ++ g2) (f1 ++ f2) o st st2 (evs1 ++ evs2).
Proof.
  intros (Hev1 & _ & _ & _ & Hlog1 & He1 & Hg1 & Hr1 & Hl1 & Hn1)
         (Hev2 & Hg2 & Hr2 & Hl2 & Hlog2 & He2 & Ho).
  unfold accounted.
  rewrite globsOf_app, readsOf_app, loadsOf_app, logsOf_app, Hg1, Hr1, Hl1.
  splits.
  - rewrite Hev2, Hev1, app_assoc. reflexivity.
  - apply list.prefix_app. assumption.
  - apply list.prefix_app. assumption.
  - rewrite fmap_app. apply list.prefix_app. assumption.
  - apply Forall_app. split; assumption.
  - rewrite fold_left_app, <- Hl1, <- He1. assumption.
  - destruct o as [[]|err]; [|assumption].
    destruct Ho as (Hg & Hr & Hl & Hn). rewrite Hg, Hr, Hl, fmap_app. splits; try reflexivity.
    intros Hrange. rewrite Hn, (Hn1 Hrange); [|rewrite (Hn1 Hrange); apply int_wrap_range].
    rewrite int_wrap_add, length_app, Nat2Z.inj_add. f_equal. lia.
Qed.

Lemma forEach_accounted {A} (body : A -> Init w unit) (G F : A -> list string) :
  (forall x st o st', body x st = (o, st') ->
     exists evs, accounted w (G x) (F x) o st st' evs) ->
  forall xs st o st', forEach body xs st = (o, st') ->
    exists evs, accounted w (concat (G <$> xs)) (concat (F <$> xs)) o st st' evs.
Proof.
  intros Hbody. induction xs as [|x xs IH]; intros st o st' Hrun.
  - injection Hrun as <- <-. exists []. apply accounted_nil.
  - apply forEach_cons_run in Hrun as [(st1 & Hx & Hrest)|(err & Hx & ->)]; cbn [fmap list_fmap concat].
    + destruct (Hbody _ _ _ _ Hx) as [evs1 H1]. destruct (IH _ _ _ Hrest) as [evs2 H2].
      exists (evs1 ++ evs2). eapply accounted_seq; eassumption.
    + destruct (Hbody _ _ _ _ Hx) as [evs1 H1]. exists evs1.
      apply accounted_Return. assumption.
Qed.

Lemma initErrorText_init rest : initErrorText ("ruleguard init error" +:+ rest).
Proof. apply prefix_app. Qed.

Lemma loadFile_accounted h filename st o st' :
  loadFile w h filename st = (o, st') ->
  exists evs, accounted w [] [filename] o st st' evs.
Proof.
  unfold loadFile, ioutil_ReadFile, engine_Load, onLoadError, loaded_incr,
    log_Printf, bind, emit, ret, exit, accounted, readData, loadStep. simpl.
  destruct (ReadFile w filename) as [data err] eqn:HR. simpl.
  destruct err as [e|]; simpl;
    [destruct (failOnParseError (range w) h e); simpl|];
    try (destruct (Load w (st_engine st) filename data) as [e' [e2|]] eqn:HL; simpl;
         [destruct (failOnParseError (range w) h e2); simpl|]);
    intros [= <- <-]; simpl; rewrite <- ?app_assoc; simpl;
    eexists; (split; [reflexivity|]); cbn; rewrite ?HL, ?HR; cbn;
    splits; try reflexivity; try (repeat constructor);
    try (apply (initErrorText_init (String _ _)));
    try (apply prefix_nil); try (intros; reflexivity).
Qed.

Lemma loadPattern_accounted h filePattern st o st' :
  loadPattern w h filePattern st = (o, st') ->
  exists evs, accounted w [TrimSpace w filePattern] (matched w filePattern) o st st' evs.
Proof.
  unfold loadPattern, filepath_Glob, matched. unfold bind at 1 2. unfold emit, ret.
  destruct (Glob w (TrimSpace w filePattern)) as [filenames [e|]] eqn:HG.
  - unfold log_Printf, emit. intros [= <- <-]. eexists. unfold accounted. cbn.
    rewrite <- app_assoc. split; [reflexivity|]. cbn.
    splits; try reflexivity; try (repeat constructor); try (apply prefix_nil).
    intros Hrange. rewrite Z.add_0_r. symmetry. apply int_wrap_small. exact Hrange.
  - destruct (Nat.eqb_spec (length filenames) 0) as [Hlen|Hlen].
    + unfold exit. intros [= <- <-]. eexists. unfold accounted. cbn.
      split; [reflexivity|]. cbn.
      splits; try reflexivity; try (repeat constructor); try (apply prefix_nil).
    + intros Hrun.
      destruct (forEach_accounted (loadFile w h) (fun _ => []) (fun f => [f])
                  (loadFile_accounted h) _ _ _ _ Hrun) as [evs Hacc].
      replace (concat ((fun _ : string => []) <$> filenames)) with (@nil string) in Hacc
        by (clear; induction filenames; [reflexivity|assumption]).
      replace (concat ((fun f : string => [f]) <$> filenames)) with filenames in Hacc
        by (clear; induction filenames as [|f fs IH]; [reflexivity|cbn; f_equal; exact IH]).
      exists (EvGlob (TrimSpace w filePattern) :: evs).
      change (EvGlob (TrimSpace w filePattern) :: evs)
        with ([EvGlob (TrimSpace w filePattern)] ++ evs).
      change [TrimSpace w filePattern] with ([TrimSpace w filePattern] ++ []).
      change filenames with ([] ++ filenames).
      eapply accounted_seq; [|exact Hacc].
      unfold accounted. cbn. splits; try reflexivity; try constructor;
        try apply prefix_nil.
      intros Hrange. rewrite Z.add_0_r. symmetry. apply int_wrap_small. exact Hrange.
Qed.

Lemma loadPatterns_accounted h filePatterns st o st' :
  loadPatterns w h filePatterns st = (o, st') ->
  exists evs, accounted w (TrimSpace w <$> filePatterns)
                        (concat (matched w <$> filePatterns)) o st st' evs.
Proof.
  intros Hrun.
  destruct (forEach_accounted (loadPattern w h) (fun p => [TrimSpace w p]) (matched w)
              (loadPattern_accounted h) _ _ _ _ Hrun) as [evs Hacc].
  replace (concat ((fun p : string => [TrimSpace w p]) <$> filePatterns))
    with (TrimSpace w <$> filePatterns) in Hacc
    by (clear; induction filePatterns as [|p ps IH]; [reflexivity|cbn; f_equal; exact IH]).
  exists evs. exact Hacc.
Qed.

End Accounting.

Section Constructed.

Context (w : World).

(** The three ways through [newRuleguardChecker]. *)
Lemma newRuleguardChecker_run params ctx0 o events :
  newRuleguardChecker w params ctx0 = (o, events) ->
  (rules params = "" /\ events = [] /\
   o = Continue {| ctx := ctx0; debugGroup := debug params; engine := None |}) \/
  (rules params <> "" /\ events = [] /\
   exists err, newErrorHandler (range w) (failOnError params) = inr err /\ o = Return err) \/
  (rules params <> "" /\
   exists h r st,
     newErrorHandler (range w) (failOnError params) = inl h /\
     loadPatterns w h (GoStrings.Split_comma (rules params)) (initialState w) = (r, st) /\
     match r with
     | Return err => o = Return err
     | Continue _ =>
         o = Continue {| ctx := ctx0; debugGroup := debug params;
                         engine := if Z.eqb (st_loaded st) 0 then None
                                   else Some (st_engine st) |}
     end /\
     events = st_events st).
Proof.
  unfold newRuleguardChecker.
  destruct (String.eqb_spec (rules params) "") as [Hr|Hr].
  - intros [= <- <-]. left. auto.
  - destruct (newErrorHandler (range w) (failOnError params)) as [h|err] eqn:Hh.
    + destruct (loadPatterns w h (GoStrings.Split_comma (rules params)) (initialState w))
        as [r st] eqn:Hrun.
      intros Hout. right; right. split; [assumption|]. exists h, r, st.
      split; [reflexivity|]. split; [exact Hrun|].
      destruct r as [[]|err].
      * destruct (Z.eqb (st_loaded st) 0); cbn in Hout; injection Hout as <- <-;
          split; reflexivity.
      * injection Hout as <- <-. split; reflexivity.
    + intros [= <- <-]. right; left. eauto.
Qed.

Lemma newRuleguardChecker_accounted params ctx0 o events :
  newRuleguardChecker w params ctx0 = (o, events) ->
  rules params <> "" ->
  (events = [] /\ exists err, o = Return err /\ initErrorText (Error err)) \/
  exists r st,
    accounted w (TrimSpace w <$> GoStrings.Split_comma (rules params))
      (concat (matched w <$> GoStrings.Split_comma (rules params)))
      r (initialState w) st events /\
    match r with
    | Return err => o = Return err
    | Continue _ =>
        o = Continue {| ctx := ctx0; debugGroup := debug params;
                        engine := if Z.eqb (st_loaded st) 0 then None
                                  else Some (st_engine st) |}
    end.
Proof.
  intros Hrun Hne.
  apply newRuleguardChecker_run in Hrun
    as [(He & _)|[(_ & -> & err & Hh & ->)|(_ & h & r & st & Hh & Hl & Ho & ->)]].
  - contradiction.
  - left. split; [reflexivity|]. exists err. split; [reflexivity|].
    destruct (newErrorHandler_first (range w) _ _ _ Hh) as (? & k & ? & _ & _ & _ & _ & ->).
    reflexivity.
  - right. exists r, st. split; [|exact Ho].
    destruct (loadPatterns_accounted w h _ _ _ _ Hl) as [evs Hacc].
    pose proof Hacc as [Hev _]. cbn in Hev. subst evs. exact Hacc.
Qed.

Lemma forEach_transfer {A} (body1 body2 : A -> Init w unit) :
  (forall x st st', body2 x st = (Continue tt, st') -> body1 x st = (Continue tt, st')) ->
  forall xs st st', forEach body2 xs st = (Continue tt, st') ->
                    forEach body1 xs st = (Continue tt, st').
Proof.
  intros Hbody. induction xs as [|x xs IH]; intros st st' Hrun; [exact Hrun|].
  apply forEach_cons_run in Hrun as [(st1 & Hx & Hrest)|(err & _ & [=])].
  cbn [forEach]. unfold bind. rewrite (Hbody _ _ _ Hx). apply IH. exact Hrest.
Qed.

Lemma forEach_ext {A} (body1 body2 : A -> Init w unit) :
  (forall x st, body1 x st = body2 x st) ->
  forall xs st, forEach body1 xs st = forEach body2 xs st.
Proof.
  intros Hbody. induction xs as [|x xs IH]; intros st; [reflexivity|].
  cbn [forEach]. unfold bind. rewrite Hbody.
  destruct (body2 x st) as [[[]|err] st1]; [apply IH|reflexivity].
Qed.

Lemma loadFile_stricter h1 h2 :
  (forall e, failOnParseError (range w) h1 e = true ->
             failOnParseError (range w) h2 e = true) ->
  forall filename st st',
    loadFile w h2 filename st = (Continue tt, st') ->
    loadFile w h1 filename st = (Continue tt, st').
Proof.
  intros Hstrict filename st st'.
  unfold loadFile, ioutil_ReadFile, engine_Load, onLoadError, loaded_incr,
    log_Printf, bind, emit, ret, exit. simpl.
  destruct (ReadFile w filename) as [data [e|]]; simpl.
  - destruct (failOnParseError (range w) h2 e) eqn:H2; simpl; [discriminate|].
    destruct (failOnParseError (range w) h1 e) eqn:H1;
      [rewrite (Hstrict _ H1) in H2; discriminate|]. simpl.
    destruct (Load w (st_engine st) filename data) as [e' [e2|]]; simpl; [|auto].
    destruct (failOnParseError (range w) h2 e2) eqn:H2'; simpl; [discriminate|].
    destruct (failOnParseError (range w) h1 e2) eqn:H1';
      [rewrite (Hstrict _ H1') in H2'; discriminate|]. simpl. auto.
  - destruct (Load w (st_engine st) filename data) as [e' [e2|]]; simpl; [|auto].
    destruct (failOnParseError (range w) h2 e2) eqn:H2'; simpl; [discriminate|].
    destruct (failOnParseError (range w) h1 e2) eqn:H1';
      [rewrite (Hstrict _ H1') in H2'; discriminate|]. simpl. auto.
Qed.

Lemma loadPatterns_stricter h1 h2 :
  (forall e, failOnParseError (range w) h1 e = true ->
             failOnParseError (range w) h2 e = true) ->
  forall filePatterns st st',
    loadPatterns w h2 filePatterns st = (Continue tt, st') ->
    loadPatterns w h1 filePatterns st = (Continue tt, st').
Proof.
  intros Hstrict. apply forEach_transfer. intros filePattern st st'.
  cbv [loadPattern filepath_Glob bind emit ret].
  destruct (Glob w (TrimSpace w filePattern)) as [filenames [e|]]; [auto|].
  destruct (Nat.eqb (length filenames) 0); [auto|].
  apply forEach_transfer, loadFile_stricter, Hstrict.
Qed.

Lemma loadFile_quiet h1 h2 :
  (forall filename, (ReadFile w filename).2 = None) ->
  (forall e filename data, (Load w e filename data).2 = None) ->
  forall filename st, loadFile w h1 filename st = loadFile w h2 filename st.
Proof.
  intros Hread Hload filename st.
  unfold loadFile, ioutil_ReadFile, engine_Load, onLoadError, loaded_incr,
    log_Printf, bind, emit, ret, exit. simpl.
  pose proof (Hread filename) as HR.
  destruct (ReadFile w filename) as [data err]. simpl in HR. subst err. simpl.
  pose proof (Hload (st_engine st) filename data) as HL.
  destruct (Load w (st_engine st) filename data) as [e' err']. simpl in HL. subst err'.
  reflexivity.
Qed.

Lemma loadPatterns_quiet h1 h2 :
  (forall filename, (ReadFile w filename).2 = None) ->
  (forall e filename data, (Load w e filename data).2 = None) ->
  forall filePatterns st,
    loadPatterns w h1 filePatterns st = loadPatterns w h2 filePatterns st.
Proof.
  intros Hread Hload. apply forEach_ext. intros filePattern st.
  cbv [loadPattern filepath_Glob bind emit ret].
  destruct (Glob w (TrimSpace w filePattern)) as [filenames [e|]]; [reflexivity|].
  destruct (Nat.eqb (length filenames) 0); [reflexivity|].
  apply forEach_ext, loadFile_quiet; assumption.
Qed.

(** Under a handler for which every error is fatal, a file gets through
    only when it was read and loaded without error, and nothing is
    logged for it. *)
Lemma loadFile_clean h :
  (forall e, failOnParseError (range w) h e = true) ->
  forall filename st st',
    loadFile w h filename st = (Continue tt, st') ->
    (ReadFile w filename).2 = None /\
    (Load w (st_engine st) filename (ReadFile w filename).1).2 = None /\
    st_events st' = st_events st ++
      [EvReadFile filename; EvLoad filename (ReadFile w filename).1].
Proof.
  intros Hall filename st st'.
  unfold loadFile, ioutil_ReadFile, engine_Load, onLoadError, loaded_incr,
    log_Printf, bind, emit, ret, exit. simpl.
  destruct (ReadFile w filename) as [data [e|]]; simpl.
  - rewrite Hall. discriminate.
  - destruct (Load w (st_engine st) filename data) as [e' [e2|]]; simpl.
    + rewrite Hall. discriminate.
    + intros [= <-]. simpl. rewrite <- app_assoc. auto.
Qed.

Lemma loadFiles_clean h :
  (forall e, failOnParseError (range w) h e = true) ->
  forall filenames st st',
    forEach (loadFile w h) filenames st = (Continue tt, st') ->
    Forall (fun filename => (ReadFile w filename).2 = None) filenames /\
    logsOf (st_events st') = logsOf (st_events st).
Proof.
  intros Hall. induction filenames as [|f fs IH]; intros st st' Hrun.
  - injection Hrun as <-. split; [constructor|reflexivity].
  - apply forEach_cons_run in Hrun as [(st1 & Hx & Hrest)|(err & _ & [=])].
    destruct (loadFile_clean h Hall _ _ _ Hx) as (HR & _ & Hev).
    destruct (IH _ _ Hrest) as [Hfs Hlog]. split; [constructor; assumption|].
    rewrite Hlog, Hev, logsOf_app, app_nil_r. reflexivity.
Qed.

Lemma loadPatterns_clean h :
  (forall e, failOnParseError (range w) h e = true) ->
  forall filePatterns st st',
    loadPatterns w h filePatterns st = (Continue tt, st') ->
    Forall (fun filename => (ReadFile w filename).2 = None)
           (concat (matched w <$> filePatterns)) /\
    logsOf (st_events st') = logsOf (st_events st) ++ omap (globErrorLine w) filePatterns.
Proof.
  intros Hall. induction filePatterns as [|p ps IH]; intros st st' Hrun.
  - injection Hrun as <-. split; [constructor|]. rewrite app_nil_r. reflexivity.
  - apply forEach_cons_run in Hrun as [(st1 & Hx & Hrest)|(err & _ & [=])].
    destruct (IH _ _ Hrest) as [Hfs Hlog]. rewrite Hlog.
    cbn [fmap list_fmap concat omap list_omap]. unfold matched at 1, globErrorLine at 2.
    revert Hx. unfold loadPattern, filepath_Glob. unfold bind at 1 2. unfold emit, ret.
    destruct (Glob w (TrimSpace w p)) as [filenames [e|]]; cbn [snd].
    + unfold log_Printf, emit. intros [= <-]. cbn [st_events]. split; [assumption|].
      rewrite !logsOf_app. cbn. rewrite app_nil_r, <- app_assoc. reflexivity.
    + destruct (Nat.eqb (length filenames) 0); [discriminate|]. intros Hfiles.
      destruct (loadFiles_clean h Hall _ _ _ Hfiles) as [HR Hl]. split.
      * apply Forall_app. split; assumption.
      * rewrite Hl. cbn [st_events]. rewrite logsOf_app. cbn. rewrite app_nil_r. reflexivity.
Qed.

(** A pattern that is well formed and got through matched a file. *)
Lemma loadPatterns_matched h filePatterns st st' :
  loadPatterns w h filePatterns st = (Continue tt, st') ->
  forall p, p ∈ filePatterns -> (Glob w (TrimSpace w p)).2 = None -> matched w p <> [].
Proof.
  revert st. induction filePatterns as [|p0 ps IH]; intros st Hrun p Hin HG.
  - inversion Hin.
  - apply forEach_cons_run in Hrun as [(st1 & Hx & Hrest)|(err & _ & [=])].
    apply elem_of_cons in Hin as [->|Hin]; [|apply (IH _ Hrest p Hin HG)].
    revert Hx. unfold loadPattern, filepath_Glob, matched. unfold bind at 1 2. unfold emit, ret.
    destruct (Glob w (TrimSpace w p0)) as [filenames [e|]]; [discriminate HG|].
    destruct filenames; [discriminate|]. intros _. discriminate.
Qed.

End Constructed.

(** X5.  Every piece of the [rules] flag is handed to [filepath.Glob] once,
    trimmed, in the order of the flag, and nothing else is: the patterns
    globbed are a prefix of the trimmed pieces in every case, and all of them
    when a checker is returned for a flag that is not empty. *)
Theorem X5_each_pattern_is_globbed_once_in_order :
  forall (w : World) (params : CheckerParams) (ctx0 : CheckerContext w)
         (o : outcome (ruleguardChecker w)) (events : list Event),
    newRuleguardChecker w params ctx0 = (o, events) ->
    globsOf events `prefix_of` (TrimSpace w <$> GoStrings.Split_comma (rules params)) /\
    (rules params <> "" -> forall c, o = Continue c ->
     globsOf events = TrimSpace w <$> GoStrings.Split_comma (rules params)).
Proof.
  intros w params ctx0 o events Hrun.
  destruct (String.eqb_spec (rules params) "") as [Hr|Hr].
  - apply newRuleguardChecker_run in Hrun as [(_ & -> & _)|[(Hne & _)|(Hne & _)]];
      try contradiction.
    split; [apply prefix_nil|contradiction].
  - destruct (newRuleguardChecker_accounted w _ _ _ _ Hrun Hr)
      as [(-> & err & -> & _)|(r & st & Hacc & Ho)].
    + split; [apply prefix_nil|]. intros _ c [=].
    + destruct Hacc as (_ & Hg & _ & _ & _ & _ & Hr'). split; [exact Hg|].
      intros _ c ->. destruct r as [[]|err]; [apply Hr'|discriminate Ho].
Qed.

Lemma X5_witness :
  globsOf (newRuleguardChecker Example.world Scenario.lenient Example.context).2 =
    ["rules-a.txt"; "["; "bad.go"].
Proof.
  destruct (X5_each_pattern_is_globbed_once_in_order Example.world Scenario.lenient
              Example.context
              (Continue (Build_ruleguardChecker Example.world Example.context "g"
                           (Some ["rules-a.txt"])))
              (newRuleguardChecker Example.world Scenario.lenient Example.context).2)
    as [_ H]; [vm_compute; reflexivity|].
  apply (H ltac:(discriminate) _ eq_refl).
Defined.

(** X6.  The files read are the files the patterns matched, pattern by
    pattern and in the order [filepath.Glob] gave them (a malformed pattern
    contributes none); each file read is handed to [engine.Load] under the same
    name with the data [ioutil.ReadFile] returned, whether or not the read
    failed.  On an early return the reads and the loads are prefixes. *)
Theorem X6_matched_files_are_read_and_loaded_in_order :
  forall (w : World) (params : CheckerParams) (ctx0 : CheckerContext w)
         (o : outcome (ruleguardChecker w)) (events : list Event),
    newRuleguardChecker w params ctx0 = (o, events) ->
    readsOf events `prefix_of` concat (matched w <$> GoStrings.Split_comma (rules params)) /\
    loadsOf events `prefix_of` (readData w <$> readsOf events) /\
    (rules params <> "" -> forall c, o = Continue c ->
     readsOf events = concat (matched w <$> GoStrings.Split_comma (rules params)) /\
     loadsOf events = readData w <$> readsOf events).
Proof.
  intros w params ctx0 o events Hrun.
  destruct (String.eqb_spec (rules params) "") as [Hr|Hr].
  - apply newRuleguardChecker_run in Hrun as [(_ & -> & _)|[(Hne & _)|(Hne & _)]];
      try contradiction.
    split; [apply prefix_nil|]. split; [apply prefix_nil|contradiction].
  - destruct (newRuleguardChecker_accounted w _ _ _ _ Hrun Hr)
      as [(-> & err & -> & _)|(r & st & Hacc & Ho)].
    + split; [apply prefix_nil|]. split; [apply prefix_nil|]. intros _ c [=].
    + destruct Hacc as (_ & _ & Hreads & Hloads & _ & _ & Hr').
      split; [exact Hreads|]. split; [exact Hloads|].
      intros _ c ->. destruct r as [[]|err]; [|discriminate Ho].
      destruct Hr' as (_ & -> & -> & _). split; reflexivity.
Qed.

Lemma X6_witness :
  readsOf (newRuleguardChecker Example.world Scenario.importPolicy Example.context).2 =
    ["rules-a.txt"; "unreadable.go"; "bad.go"] /\
  loadsOf (newRuleguardChecker Example.world Scenario.importPolicy Example.context).2 =
    [("rules-a.txt", "rule a"); ("unreadable.go", ""); ("bad.go", "func {")].
Proof.
  destruct (X6_matched_files_are_read_and_loaded_in_order Example.world Scenario.importPolicy
              Example.context (Continue Example.checker)
              (newRuleguardChecker Example.world Scenario.importPolicy Example.context).2)
    as (_ & _ & H); [vm_compute; reflexivity|].
  destruct (H ltac:(discriminate) _ eq_refl) as [Hreads Hloads].
  split; [exact Hreads|]. rewrite Hloads. vm_compute. reflexivity.
Defined.

(** X7.  The engine of a returned checker is the new engine after the loads
    of all matched files, in order, each with the data read for it: a load
    that failed and was skipped still leaves the engine as [Load] left it. *)
Theorem X7_engine_is_the_fold_of_the_loads :
  forall (w : World) (params : CheckerParams) (ctx0 : CheckerContext w)
         (c : ruleguardChecker w) (events : list Event) (e : Engine w),
    newRuleguardChecker w params ctx0 = (Continue c, events) ->
    engine c = Some e ->
    e = fold_left (loadStep w)
          (readData w <$> concat (matched w <$> GoStrings.Split_comma (rules params)))
          (NewEngine w).
Proof.
  intros w params ctx0 c events e Hrun He.
  destruct (String.eqb_spec (rules params) "") as [Hr|Hr].
  - apply newRuleguardChecker_run in Hrun as [(_ & _ & [= Hc])|[(Hne & _)|(Hne & _)]];
      try contradiction. rewrite Hc in He. discriminate He.
  - destruct (newRuleguardChecker_accounted w _ _ _ _ Hrun Hr)
      as [(_ & err & [=] & _)|(r & st & Hacc & Ho)].
    destruct r as [[]|err]; [|discriminate Ho]. injection Ho as ->. cbn in He.
    destruct (Z.eqb (st_loaded st) 0); [discriminate He|]. injection He as <-.
    destruct Hacc as (_ & _ & _ & _ & _ & Heng & _ & _ & Hl & _).
    rewrite Heng, Hl. reflexivity.
Qed.

Lemma X7_witness :
  ["rules-a.txt"] =
  fold_left (loadStep Example.world)
    (readData Example.world <$>
       concat (matched Example.world <$> GoStrings.Split_comma " rules-a.txt ,[,bad.go"))
    [].
Proof.
  apply (X7_engine_is_the_fold_of_the_loads Example.world Scenario.lenient Example.context
           (Build_ruleguardChecker Example.world Example.context "g" (Some ["rules-a.txt"]))
           (newRuleguardChecker Example.world Scenario.lenient Example.context).2).
  - vm_compute; reflexivity.
  - reflexivity.
Defined.

(** X8.  When a checker is returned for a flag that is not empty (and fewer
    than 2^64 files were matched), it has no engine exactly when every piece of
    the flag was a malformed pattern; and then nothing was read. *)
Theorem X8_no_engine_iff_every_pattern_is_malformed :
  forall (w : World) (params : CheckerParams) (ctx0 : CheckerContext w)
         (c : ruleguardChecker w) (events : list Event),
    newRuleguardChecker w params ctx0 = (Continue c, events) ->
    rules params <> "" ->
    (Z.of_nat (length (concat (matched w <$> GoStrings.Split_comma (rules params))))
       < 2 ^ 64)%Z ->
    (engine c = None <->
     forall p, p ∈ GoStrings.Split_comma (rules params) ->
               (Glob w (TrimSpace w p)).2 <> None) /\
    (engine c = None <-> readsOf events = []).
Proof.
  intros w params ctx0 c events Hrun Hr Hlen.
  pose proof Hrun as Hrun'.
  apply newRuleguardChecker_run in Hrun'
    as [(He & _)|[(_ & _ & err & _ & [=])|(_ & h & r & st & Hh & Hl & Ho & ->)]];
    [contradiction|].
  destruct r as [[]|err]; [|discriminate Ho]. injection Ho as ->. cbn [engine].
  destruct (loadPatterns_accounted w h _ _ _ _ Hl) as [evs Hacc].
  destruct Hacc as (Hev & _ & _ & _ & _ & _ & _ & Hreads & _ & Hn).
  cbn in Hev. subst evs.
  specialize (Hn ltac:(cbn; lia)). cbn [initialState st_loaded] in Hn.
  set (files := concat (matched w <$> GoStrings.Split_comma (rules params))) in *.
  assert (Hzero : (st_loaded st =? 0)%Z = true <-> files = []).
  { rewrite Z.eqb_eq, Hn. unfold int_wrap. split.
    - intros H0. destruct files as [|f fs]; [reflexivity|exfalso].
      rewrite Z.add_0_l in H0.
      assert (Hpos : (0 < Z.of_nat (length (f :: fs)))%Z) by (cbn [length]; lia).
      assert (Hmod : ((Z.of_nat (length (f :: fs)) + 2 ^ 63) mod 2 ^ 64 = 2 ^ 63)%Z) by lia.
      destruct (Z_lt_le_dec (Z.of_nat (length (f :: fs))) (2 ^ 63)) as [Hlt|Hge].
      + rewrite Z.mod_small in Hmod by lia. lia.
      + replace (Z.of_nat (length (f :: fs)) + 2 ^ 63)%Z
          with ((Z.of_nat (length (f :: fs)) - 2 ^ 63) + 1 * 2 ^ 64)%Z in Hmod by lia.
        rewrite Z.mod_add in Hmod by lia. rewrite Z.mod_small in Hmod by lia. lia.
    - intros ->. reflexivity. }
  assert (Hnone : (if (st_loaded st =? 0)%Z then None else Some (st_engine st)) = None
                  <-> files = []).
  { rewrite <- Hzero. destruct (st_loaded st =? 0)%Z; split; congruence. }
  split; [|rewrite Hnone, Hreads; reflexivity].
  rewrite Hnone. split.
  - intros Hnil p Hin HG.
    apply (loadPatterns_matched w h _ _ _ Hl p Hin HG).
    revert Hnil Hin. unfold files. clear.
    induction (GoStrings.Split_comma (rules params)) as [|q qs IH];
      intros Hnil Hin; [inversion Hin|].
    cbn [fmap list_fmap concat] in Hnil. apply app_eq_nil in Hnil as [Hq Hqs].
    apply elem_of_cons in Hin as [->|Hin]; [exact Hq|apply IH; assumption].
  - intros Hbad. unfold files.
    assert (Hall : forall ps, (forall p, p ∈ ps -> (Glob w (TrimSpace w p)).2 <> None) ->
                     concat (matched w <$> ps) = []).
    { induction ps as [|p ps IH]; intros Hps; [reflexivity|].
      cbn [fmap list_fmap concat]. rewrite IH by (intros q Hq; apply Hps; right; exact Hq).
      rewrite app_nil_r. specialize (Hps p ltac:(left)). unfold matched.
      destruct (Glob w (TrimSpace w p)) as [fs [e|]]; [reflexivity|]. contradiction. }
    apply Hall, Hbad.
Qed.

Lemma X8_witness :
  (engine Example.idle = None <->
   forall p, p ∈ GoStrings.Split_comma "[, [" ->
             (Glob Example.world (TrimSpace Example.world p)).2 <> None) /\
  (engine Example.idle = None <->
   readsOf (newRuleguardChecker Example.world Scenario.malformedOnly Example.context).2 = []).
Proof.
  apply (X8_no_engine_iff_every_pattern_is_malformed Example.world Scenario.malformedOnly
           Example.context Example.idle
           (newRuleguardChecker Example.world Scenario.malformedOnly Example.context).2).
  - vm_compute; reflexivity.
  - discriminate.
  - vm_compute; reflexivity.
Defined.

(** X9.  Whatever the constructor logs and whatever error it returns starts
    with the words [ruleguard init error]. *)
Theorem X9_every_text_is_an_init_error :
  forall (w : World) (params : CheckerParams) (ctx0 : CheckerContext w)
         (o : outcome (ruleguardChecker w)) (events : list Event),
    newRuleguardChecker w params ctx0 = (o, events) ->
    Forall initErrorText (logsOf events) /\
    forall err, o = Return err -> initErrorText (Error err).
Proof.
  intros w params ctx0 o events Hrun.
  destruct (String.eqb_spec (rules params) "") as [Hr|Hr].
  - apply newRuleguardChecker_run in Hrun as [(_ & -> & ->)|[(Hne & _)|(Hne & _)]];
      try contradiction.
    split; [constructor|]. intros err [=].
  - destruct (newRuleguardChecker_accounted w _ _ _ _ Hrun Hr)
      as [(-> & err & -> & Herr)|(r & st & Hacc & Ho)].
    + split; [constructor|]. intros err' [= <-]. exact Herr.
    + destruct Hacc as (_ & _ & _ & _ & Hlogs & _ & Hr'). split; [exact Hlogs|].
      intros err ->. destruct r as [[]|err']; [discriminate Ho|].
      injection Ho as ->. exact Hr'.
Qed.

Lemma X9_witness :
  Forall initErrorText
    (logsOf (newRuleguardChecker Example.world Scenario.dslPolicy Example.context).2) /\
  forall err,
    (newRuleguardChecker Example.world Scenario.dslPolicy Example.context).1 = Return err ->
    initErrorText (Error err).
Proof.
  apply (X9_every_text_is_an_init_error Example.world Scenario.dslPolicy Example.context).
  vm_compute; reflexivity.
Defined.

Lemma newErrorHandler_accepts range flag :
  (forall k, k ∈ GoStrings.Split_comma flag -> k = "" \/ k ∈ policyNames) ->
  exists h, newErrorHandler range flag = inl h.
Proof.
  intros Hall. unfold newErrorHandler. apply newErrorHandler_loop_succeeds. intros k Hin.
  destruct (Hall k Hin) as [?|Hk]; [left; assumption|right].
  apply policyNames_lookup. exact Hk.
Qed.

Lemma newErrorHandler_accepted range flag h :
  newErrorHandler range flag = inl h ->
  forall k, k ∈ GoStrings.Split_comma flag -> k = "" \/ k ∈ policyNames.
Proof.
  intros Hh k Hin. destruct (newErrorHandler_loop_ok _ _ _ _ Hh) as [Hall _].
  destruct (Hall k Hin) as [?|Hk]; [left; assumption|right].
  apply policyNames_lookup. exact Hk.
Qed.

(** X10.  Dropping policy names from [failOnError] never turns a
    construction that succeeded into a different one: when every name of [P]
    is a name of [Q] and the constructor returns a checker under [Q], it
    returns the same checker, after the same events, under [P]. *)
Theorem X10_fewer_names_same_success :
  forall (w : World), range_ok (range w) ->
  forall (rulesFlag debugFlag P Q : string) (ctx0 : CheckerContext w)
         (c : ruleguardChecker w) (events : list Event),
    (forall k, k ∈ GoStrings.Split_comma P -> k <> "" -> k ∈ GoStrings.Split_comma Q) ->
    newRuleguardChecker w {| rules := rulesFlag; debug := debugFlag; failOnError := Q |} ctx0
      = (Continue c, events) ->
    newRuleguardChecker w {| rules := rulesFlag; debug := debugFlag; failOnError := P |} ctx0
      = (Continue c, events).
Proof.
  intros w Hrange rulesFlag debugFlag P Q ctx0 c events Hsub.
  unfold newRuleguardChecker. cbn [rules debug failOnError].
  destruct (String.eqb rulesFlag ""); [auto|].
  destruct (newErrorHandler (range w) Q) as [hQ|err] eqn:HQ; [|discriminate].
  destruct (newErrorHandler_accepts (range w) P) as [hP HP].
  { intros k Hin. destruct (String.eqb_spec k "") as [?|Hne]; [left; assumption|].
    apply (newErrorHandler_accepted (range w) Q hQ HQ), Hsub; assumption. }
  rewrite HP.
  destruct (loadPatterns w hQ (GoStrings.Split_comma rulesFlag) (initialState w))
    as [[[]|err] st] eqn:Hrun; [|discriminate].
  rewrite (loadPatterns_stricter w hP hQ) with (st' := st); [auto| |exact Hrun].
  intros e. rewrite (failOnParseError_named (range w) Hrange P hP e HP).
  rewrite (failOnParseError_named (range w) Hrange Q hQ e HQ).
  intros [[Hin HE]|[[Hin HE]|Hin]].
  - left. split; [apply Hsub; [assumption|discriminate]|assumption].
  - right; left. split; [apply Hsub; [assumption|discriminate]|assumption].
  - right; right. apply Hsub; [assumption|discriminate].
Qed.

Lemma X10_witness :
  newRuleguardChecker Example.world
    {| rules := "rules-a.txt,unreadable.go,bad.go"; debug := ""; failOnError := "" |}
    Example.context =
  (Continue Example.checker,
   (newRuleguardChecker Example.world Scenario.importPolicy Example.context).2).
Proof.
  apply (X10_fewer_names_same_success Example.world Example_range_ok
           "rules-a.txt,unreadable.go,bad.go" "" "" "import").
  - intros k Hin Hne. change (k ∈ [""]) in Hin.
    apply elem_of_cons in Hin as [->|Hin]; [contradiction|inversion Hin].
  - vm_compute; reflexivity.
Defined.

(** X11.  Under a policy that makes every error fatal ([all], or [import]
    with [dsl]), a checker is returned only when no read failed, and the only
    lines logged are those of the malformed patterns, one each, in order: no
    file was skipped. *)
Theorem X11_strict_policy_skips_no_file :
  forall (w : World), range_ok (range w) ->
  forall (params : CheckerParams) (ctx0 : CheckerContext w)
         (c : ruleguardChecker w) (events : list Event),
    "all" ∈ GoStrings.Split_comma (failOnError params) \/
    ("import" ∈ GoStrings.Split_comma (failOnError params) /\
     "dsl" ∈ GoStrings.Split_comma (failOnError params)) ->
    rules params <> "" ->
    newRuleguardChecker w params ctx0 = (Continue c, events) ->
    logsOf events = omap (globErrorLine w) (GoStrings.Split_comma (rules params)) /\
    Forall (fun filename => (ReadFile w filename).2 = None) (readsOf events).
Proof.
  intros w Hrange params ctx0 c events Hnames Hr Hrun.
  pose proof Hrun as Hrun'.
  apply newRuleguardChecker_run in Hrun'
    as [(He & _)|[(_ & _ & err & _ & [=])|(_ & h & r & st & Hh & Hl & Ho & ->)]];
    [contradiction|].
  destruct r as [[]|err]; [|discriminate Ho].
  assert (Hall : forall e, failOnParseError (range w) h e = true).
  { intros e. apply (failOnParseError_named (range w) Hrange _ h e Hh).
    destruct Hnames as [Hall|[Himp Hdsl]]; [right; right; assumption|].
    destruct (errors_As_ImportError e); [left|right; left]; auto. }
  destruct (loadPatterns_clean w h Hall _ _ _ Hl) as [Hreads Hlogs].
  split; [exact Hlogs|].
  destruct (loadPatterns_accounted w h _ _ _ _ Hl) as [evs Hacc].
  destruct Hacc as (Hev & _ & _ & _ & _ & _ & _ & Hr' & _).
  cbn in Hev. subst evs. rewrite Hr'. exact Hreads.
Qed.

Lemma X11_witness :
  logsOf (newRuleguardChecker Example.world Scenario.strict Example.context).2 =
    omap (globErrorLine Example.world) (GoStrings.Split_comma "[,rules-a.txt") /\
  Forall (fun filename => (ReadFile Example.world filename).2 = None)
    (readsOf (newRuleguardChecker Example.world Scenario.strict Example.context).2).
Proof.
  apply (X11_strict_policy_skips_no_file Example.world Example_range_ok Scenario.strict
           Example.context Example.checker).
  - right. change ("import" ∈ ["dsl"; "import"] /\ "dsl" ∈ ["dsl"; "import"]).
    split; [right; left|left].
  - discriminate.
  - vm_compute; reflexivity.
Defined.

(** X12.  Where no read and no load fails, the policy plays no part: any two
    accepted values of [failOnError] give the same result. *)
Theorem X12_without_errors_the_policy_is_irrelevant :
  forall (w : World),
    (forall filename, (ReadFile w filename).2 = None) ->
    (forall e filename data, (Load w e filename data).2 = None) ->
  forall (rulesFlag debugFlag P Q : string) (ctx0 : CheckerContext w),
    (forall k, k ∈ GoStrings.Split_comma P -> k = "" \/ k ∈ policyNames) ->
    (forall k, k ∈ GoStrings.Split_comma Q -> k = "" \/ k ∈ policyNames) ->
    newRuleguardChecker w {| rules := rulesFlag; debug := debugFlag; failOnError := P |} ctx0 =
    newRuleguardChecker w {| rules := rulesFlag; debug := debugFlag; failOnError := Q |} ctx0.
Proof.
  intros w Hread Hload rulesFlag debugFlag P Q ctx0 HP HQ.
  unfold newRuleguardChecker. cbn [rules debug failOnError].
  destruct (String.eqb rulesFlag ""); [reflexivity|].
  destruct (newErrorHandler_accepts (range w) P HP) as [hP ->].
  destruct (newErrorHandler_accepts (range w) Q HQ) as [hQ ->].
  rewrite (loadPatterns_quiet w hP hQ Hread Hload). reflexivity.
Qed.

Lemma X12_witness :
  newRuleguardChecker Quiet.world
    {| rules := "rules-a.txt,bad.go"; debug := ""; failOnError := "all" |} Quiet.context =
  newRuleguardChecker Quiet.world
    {| rules := "rules-a.txt,bad.go"; debug := ""; failOnError := "" |} Quiet.context.
Proof.
  apply (X12_without_errors_the_policy_is_irrelevant Quiet.world).
  - intros filename. reflexivity.
  - intros e filename data. reflexivity.
  - intros k Hin. change (k ∈ ["all"]) in Hin.
    apply elem_of_cons in Hin as [->|Hin]; [|inversion Hin].
    right. unfold policyNames. right. right. left.
  - intros k Hin. change (k ∈ [""]) in Hin.
    apply elem_of_cons in Hin as [->|Hin]; [|inversion Hin]. left. reflexivity.
Defined.

(** X13.  Whether an error is fatal does not depend on the order in which
    [range] visits the map of predicates. *)
Theorem X13_the_decision_ignores_the_map_order :
  forall range1 range2 : forall A : Type, gmap string A -> list (string * A),
    range_ok range1 -> range_ok range2 ->
    forall (h : parseErrorHandler) (E : goError),
      failOnParseError range1 h E = failOnParseError range2 h E.
Proof.
  intros range1 range2 H1 H2 h E.
  destruct (failOnParseError range1 h E) eqn:F1.
  - symmetry. apply (failOnParseError_true range2 H2).
    apply (failOnParseError_true range1 H1). exact F1.
  - destruct (failOnParseError range2 h E) eqn:F2; [|reflexivity].
    apply (failOnParseError_true range2 H2) in F2.
    apply (failOnParseError_true range1 H1) in F2. congruence.
Qed.

Lemma X13_witness :
  failOnParseError (range Example.world) Quiet.dslAndImport Example.importFailure =
  failOnParseError (range Quiet.world) Quiet.dslAndImport Example.importFailure.
Proof.
  apply (X13_the_decision_ignores_the_map_order (range Example.world) (range Quiet.world)
           Example_range_ok Quiet_range_ok).
Defined.

Lemma newErrorHandler_loop_error range range' ks h0 err :
  newErrorHandler_loop range ks h0 = inr err ->
  exists k,
    err = initErrorInvalidFlag k ((range _ failOnErrorPredicates).*1) /\
    newErrorHandler_loop range' ks h0 =
      inr (initErrorInvalidFlag k ((range' _ failOnErrorPredicates).*1)).
Proof.
  revert h0. induction ks as [|k0 ks IH]; intros h0; cbn [newErrorHandler_loop];
    [discriminate|].
  destruct (String.eqb k0 ""); [apply IH|].
  destruct (failOnErrorPredicates !! k0) as [p|]; [apply IH|].
  intros [= <-]. eauto.
Qed.

Lemma append_inj_l (a x y : string) : a +:+ x = a +:+ y -> x = y.
Proof. induction a as [|c a IH]; cbn; [auto|]. intros [= H]. auto. Qed.

(** X14.  The text of the error for a rejected flag does depend on that
    order: for every rejected flag there are two orders of [range] under which
    [newErrorHandler] returns errors with different texts. *)
Theorem X14_the_rejection_text_depends_on_the_map_order :
  forall P : string,
    (exists k, k ∈ GoStrings.Split_comma P /\ k <> "" /\ k ∉ policyNames) ->
    exists (range1 range2 : forall A : Type, gmap string A -> list (string * A))
           (err1 err2 : goError),
      range_ok range1 /\ range_ok range2 /\
      newErrorHandler range1 P = inr err1 /\
      newErrorHandler range2 P = inr err2 /\
      Error err1 <> Error err2.
Proof.
  intros P (k & Hin & Hne & Hnot).
  set (range1 := fun (A : Type) (m : gmap string A) => map_to_list m).
  set (range2 := fun (A : Type) (m : gmap string A) => reverse (map_to_list m)).
  destruct (newErrorHandler_unknown range1 P k Hin Hne Hnot) as (k' & _ & _ & _ & H1).
  destruct (newErrorHandler_loop_error range1 range2 _ _ _ H1) as (k2 & Hk & H2).
  rewrite Hk in H1.
  exists range1, range2. eexists. eexists.
  split; [intros A m; reflexivity|].
  split; [intros A m; unfold range2; apply reverse_Permutation|].
  split; [exact H1|]. split; [exact H2|].
  unfold initErrorInvalidFlag, fmt_Errorf, Error.
  intros Heq. apply append_inj_l, append_inj_l, append_inj_l in Heq.
  vm_compute in Heq. discriminate Heq.
Qed.

Lemma X14_witness :
  exists (range1 range2 : forall A : Type, gmap string A -> list (string * A))
         (err1 err2 : goError),
    range_ok range1 /\ range_ok range2 /\
    newErrorHandler range1 "bogus" = inr err1 /\
    newErrorHandler range2 "bogus" = inr err2 /\
    Error err1 <> Error err2.
Proof.
  apply (X14_the_rejection_text_depends_on_the_map_order "bogus").
  exists "bogus". split; [change ("bogus" ∈ ["bogus"]); left|].
  split; [discriminate|].
  unfold policyNames. rewrite !elem_of_cons, elem_of_nil.
  intros [[=]|[[=]|[[=]|[]]]].
Defined.

(** *** More on the walk *)

Lemma reportsOf_keptOf {w : World}
    (calls1 calls2 : list (Callback (GoRuleInfo w) (Node w) (Suggestion w))) :
  keptOf <$> calls1 = keptOf <$> calls2 ->
  reportsOf calls1 = reportsOf calls2 /\ debugLinesOf calls1 = debugLinesOf calls2.
Proof.
  revert calls2. induction calls1 as [|[i1 n1 m1 s1|l1] calls1 IH];
    intros [|[i2 n2 m2 s2|l2] calls2]; cbn; try discriminate.
  - auto.
  - intros [= -> -> H]. destruct (IH _ H) as [-> ->]. auto.
  - intros [= -> H]. destruct (IH _ H) as [-> ->]. auto.
Qed.

(** X15.  [WalkFile] uses the node and the message of a report and nothing
    else: two runs whose callbacks differ only in the rule info and in the
    suggestion (the quick fix) of their reports have the same effects. *)
Theorem X15_rule_info_and_suggestion_are_dropped :
  forall (sort_Slice : forall A : Type, list A -> (A -> A -> bool) -> list A)
         (w : World) (c1 c2 : ruleguardChecker w) (f : File w) (e1 e2 : Engine w)
         (calls1 calls2 : list (Callback (GoRuleInfo w) (Node w) (Suggestion w)))
         (err : option goError),
    engine c1 = Some e1 -> engine c2 = Some e2 ->
    Run w e1 (runContext w c1) f = (calls1, err) ->
    Run w e2 (runContext w c2) f = (calls2, err) ->
    keptOf <$> calls1 = keptOf <$> calls2 ->
    WalkFile w sort_Slice c1 f = WalkFile w sort_Slice c2 f.
Proof.
  intros sort_Slice w c1 c2 f e1 e2 calls1 calls2 err He1 He2 HR1 HR2 Hkept.
  rewrite (WalkFile_bound w sort_Slice c1 f e1 calls1 err He1 HR1).
  rewrite (WalkFile_bound w sort_Slice c2 f e2 calls2 err He2 HR2).
  destruct (reportsOf_keptOf _ _ Hkept) as [-> ->]. reflexivity.
Qed.

Lemma X15_witness :
  WalkFile Quiet.world GoSort.sort_Slice (Quiet.checker "" ["b.go"; "a.go"]) 4 =
  WalkFile Quiet.world GoSort.sort_Slice (Quiet.checker "g" ["b.go"; "a.go"]) 4.
Proof.
  apply (X15_rule_info_and_suggestion_are_dropped GoSort.sort_Slice Quiet.world
           (Quiet.checker "" ["b.go"; "a.go"]) (Quiet.checker "g" ["b.go"; "a.go"]) 4
           ["b.go"; "a.go"] ["b.go"; "a.go"]
           [CallReport tt 4 "b.go" None; CallReport tt 4 "a.go" None]
           [CallReport tt 4 "b.go" (Some tt); CallReport tt 4 "a.go" (Some tt)]
           None); reflexivity.
Defined.

(** X16.  When the messages of a run are pairwise different, the effects of
    [WalkFile] are fixed by the set of reports: neither the order in which the
    engine reported them nor the sort the library implements matters. *)
Theorem X16_distinct_messages_fix_the_output :
  forall (sort1 sort2 : forall A : Type, list A -> (A -> A -> bool) -> list A),
    sortsReports sort1 -> sortsReports sort2 ->
  forall (w : World) (c1 c2 : ruleguardChecker w) (f : File w) (e1 e2 : Engine w)
         (calls1 calls2 : list (Callback (GoRuleInfo w) (Node w) (Suggestion w)))
         (err : option goError),
    engine c1 = Some e1 -> engine c2 = Some e2 ->
    Run w e1 (runContext w c1) f = (calls1, err) ->
    Run w e2 (runContext w c2) f = (calls2, err) ->
    debugLinesOf calls1 = debugLinesOf calls2 ->
    reportsOf calls1 ≡ₚ reportsOf calls2 ->
    NoDup (message <$> reportsOf calls1) ->
    WalkFile w sort1 c1 f = WalkFile w sort2 c2 f.
Proof.
  intros sort1 sort2 Hs1 Hs2 w c1 c2 f e1 e2 calls1 calls2 err He1 He2 HR1 HR2
         Hdebug Hperm Hnd.
  rewrite (WalkFile_bound w sort1 c1 f e1 calls1 err He1 HR1).
  rewrite (WalkFile_bound w sort2 c2 f e2 calls2 err He2 HR2).
  rewrite Hdebug. do 3 f_equal. unfold order.
  destruct (Hs1 w (reportsOf calls1)) as [Hp1 Hsorted1].
  destruct (Hs2 w (reportsOf calls2)) as [Hp2 Hsorted2].
  assert (Hp : sort1 _ (reportsOf calls1) report_less ≡ₚ sort2 _ (reportsOf calls2) report_less)
    by (rewrite Hp1, Hp2; exact Hperm).
  apply same_messages_same_reports; [exact Hp| |].
  - apply messages_determined; assumption.
  - apply (NoDup_Permutation_proper _ _ (fmap_Permutation message _ _ Hp1)). exact Hnd.
Qed.

Lemma X16_witness :
  WalkFile Quiet.world GoSort.sort_Slice (Quiet.checker "" ["b.go"; "a.go"]) 4 =
  WalkFile Quiet.world GoSort.insertionSort (Quiet.checker "" ["a.go"; "b.go"]) 4.
Proof.
  apply (X16_distinct_messages_fix_the_output GoSort.sort_Slice GoSort.insertionSort
           sort_Slice_sortsReports insertionSort_sortsReports Quiet.world
           (Quiet.checker "" ["b.go"; "a.go"]) (Quiet.checker "" ["a.go"; "b.go"]) 4
           ["b.go"; "a.go"] ["a.go"; "b.go"]
           [CallReport tt 4 "b.go" None; CallReport tt 4 "a.go" None]
           [CallReport tt 4 "a.go" None; CallReport tt 4 "b.go" None]
           None); try reflexivity.
  - apply perm_swap.
  - cbn. repeat constructor; rewrite ?elem_of_cons, ?elem_of_nil; intros H;
      repeat destruct H as [H|H]; try discriminate H; try contradiction.
Defined.

(** *** Ties under insertion sort *)

Section Stable.

Context {A : Type} (less : A -> A -> bool).
Context (P : A -> Prop) `{forall x, Decision (P x)}.

(** [less] never holds between two elements of the class [P]. *)
Hypothesis less_apart : forall x y, less x y = true -> P x -> P y -> False.

Lemma insertBack_filter x before :
  filter P (rev (SortSpec.insertBack less x before)) = filter P (rev before ++ [x]).
Proof.
  induction before as [|y before IH]; cbn [SortSpec.insertBack rev]; [reflexivity|].
  destruct (less x y) eqn:L; cbn [rev]; [|reflexivity].
  rewrite !filter_app, IH, filter_app, <- !app_assoc. f_equal.
  rewrite !filter_cons, !filter_nil.
  destruct (decide (P x)) as [Px|_]; destruct (decide (P y)) as [Py|_]; try reflexivity.
  destruct (less_apart x y L Px Py).
Qed.

Lemma insertAll_filter sorted rest :
  filter P (SortSpec.insertAll less sorted rest) = filter P (sorted ++ rest).
Proof.
  revert sorted. induction rest as [|x rest IH]; intros sorted; cbn [SortSpec.insertAll].
  - rewrite app_nil_r. reflexivity.
  - rewrite IH, !filter_app, insertBack_filter, rev_involutive, filter_app, <- app_assoc.
    f_equal. symmetry. apply (filter_app P [x] rest).
Qed.

Lemma insertionSort_filter (x : list A) :
  filter P (GoSort.insertionSort A x less) = filter P x.
Proof.
  unfold GoSort.insertionSort.
  pose proof (insertionSort_func_spec less [] x []) as Hspec. simpl in Hspec.
  rewrite app_nil_r in Hspec. rewrite Hspec. destruct x as [|x0 rest]; [reflexivity|].
  rewrite app_nil_r. apply (insertAll_filter [x0] rest).
Qed.

(** Up to six elements the library's sort is the insertion sort. *)
Lemma Slice_short (x : list A) :
  (length x <= 6)%nat -> GoSort.Slice less x = Some (GoSort.insertionSort A x less).
Proof.
  intros Hlen. unfold GoSort.Slice, GoSort.insertionSort. cbv zeta.
  rewrite quickSort_func_unfold.
  replace (12 <? length x - 0)%nat with false by (symmetry; apply Nat.ltb_ge; lia).
  replace (length x - (0 + 6))%nat with 0%nat by lia. cbn [GoSort.for_up].
  destruct (1 <? length x - 0)%nat eqn:Hone; [reflexivity|].
  apply Nat.ltb_ge in Hone.
  destruct x as [|x0 [|x1 rest]]; [reflexivity|reflexivity|cbn in Hone; lia].
Qed.

End Stable.

(** X17.  With at most six findings in a file, the sort of the Go library
    emits them in ascending order of their message texts with ties in
    production order: the reports of one message text come out as they went
    in.  This holds for the library before release 1.19, whose sort is then
    the insertion sort, and for the insertion sort that the later library runs
    on a short slice; both give the same warnings.  (Seven findings are
    enough to lose this under the earlier library.) *)
Theorem X17_ties_keep_production_order_up_to_six_findings :
  forall (w : World) (c : ruleguardChecker w) (f : File w) (e : Engine w)
         (calls : list (Callback (GoRuleInfo w) (Node w) (Suggestion w)))
         (err : option goError),
    engine c = Some e ->
    Run w e (runContext w c) f = (calls, err) ->
    (length (reportsOf calls) <= 6)%nat ->
    exists emitted : list (ruleguardReport w),
      WalkFile w GoSort.sort_Slice c f =
        debugLinesOf calls ++ executionWarning w f err ++ warnings emitted /\
      WalkFile w GoSort.insertionSort c f =
        debugLinesOf calls ++ executionWarning w f err ++ warnings emitted /\
      emitted ≡ₚ reportsOf calls /\
      ascendingByMessage emitted /\
      tiesInProductionOrder emitted (reportsOf calls).
Proof.
  intros w c f e calls err He HR Hlen.
  exists (GoSort.insertionSort _ (reportsOf calls) report_less).
  assert (Hsame : order w GoSort.sort_Slice (reportsOf calls) =
                  GoSort.insertionSort _ (reportsOf calls) report_less).
  { unfold order, GoSort.sort_Slice. rewrite (Slice_short report_less _ Hlen). reflexivity. }
  destruct (insertionSort_sortsReports w (reportsOf calls)) as [Hperm Hsorted].
  splits.
  - rewrite (WalkFile_bound w GoSort.sort_Slice c f e calls err He HR), Hsame. reflexivity.
  - apply (WalkFile_bound w GoSort.insertionSort c f e calls err He HR).
  - exact Hperm.
  - apply sortedByMessage_ascending. exact Hsorted.
  - intros msg. apply insertionSort_filter.
    intros x y Hless Hx Hy. unfold report_less in Hless. rewrite Hx, Hy in Hless.
    rewrite lt_irrefl in Hless. discriminate Hless.
Qed.

Lemma X17_witness :
  exists emitted : list (ruleguardReport Example.world),
    WalkFile Example.world GoSort.sort_Slice Example.checker 0 =
      debugLinesOf (w := Example.world) Example.scenarioE ++
      executionWarning Example.world 0 None ++ warnings emitted /\
    WalkFile Example.world GoSort.insertionSort Example.checker 0 =
      debugLinesOf (w := Example.world) Example.scenarioE ++
      executionWarning Example.world 0 None ++ warnings emitted /\
    emitted ≡ₚ reportsOf (w := Example.world) Example.scenarioE /\
    ascendingByMessage emitted /\
    tiesInProductionOrder emitted (reportsOf (w := Example.world) Example.scenarioE).
Proof.
  apply (X17_ties_keep_production_order_up_to_six_findings Example.world Example.checker 0
           ["rules-a.txt"] Example.scenarioE None).
  - reflexivity.
  - reflexivity.
  - cbn. lia.
Defined.

(** *** The errors of a construction *)

Section Errors.

Context (w : World).

Lemma forEach_Return {A} (body : A -> Init w unit) xs st err st' :
  forEach body xs st = (Return err, st') ->
  exists x st1, x ∈ xs /\ body x st1 = (Return err, st').
Proof.
  revert st. induction xs as [|x xs IH]; intros st Hrun; [discriminate|].
  apply forEach_cons_run in Hrun as [(st1 & _ & Hrest)|(err' & Hx & [= <-])].
  - destruct (IH _ Hrest) as (y & st2 & Hin & Hy). exists y, st2. split; [right|]; assumption.
  - exists x, st. split; [left|assumption].
Qed.

Lemma loadFile_Return h filename st err st' :
  loadFile w h filename st = (Return err, st') ->
  exists e,
    failOnParseError (range w) h e = true /\
    ((ReadFile w filename).2 = Some e \/
     exists eng, (Load w eng filename (ReadFile w filename).1).2 = Some e) /\
    err = fmt_Errorf ("ruleguard init error: " +:+ Error e) /\
    filename ∈ readsOf (st_events st').
Proof.
  unfold loadFile, ioutil_ReadFile, engine_Load, onLoadError, loaded_incr,
    log_Printf, bind, emit, ret, exit. simpl.
  destruct (ReadFile w filename) as [data [e|]]; simpl.
  - destruct (failOnParseError (range w) h e) eqn:F; simpl.
    + intros [= <- <-]. exists e. cbn. rewrite readsOf_app.
      splits; auto. apply elem_of_app. right. left.
    + destruct (Load w (st_engine st) filename data) as [e' [e2|]] eqn:HL; simpl;
        [|discriminate].
      destruct (failOnParseError (range w) h e2) eqn:F2; simpl; [|discriminate].
      intros [= <- <-]. exists e2. cbn. rewrite !readsOf_app.
      splits; auto.
      * right. exists (st_engine st). rewrite HL. reflexivity.
      * apply elem_of_app. left. apply elem_of_app. left. apply elem_of_app. right. left.
  - destruct (Load w (st_engine st) filename data) as [e' [e2|]] eqn:HL; simpl;
      [|discriminate].
    destruct (failOnParseError (range w) h e2) eqn:F2; simpl; [|discriminate].
    intros [= <- <-]. exists e2. cbn. rewrite !readsOf_app.
    splits; auto.
    * right. exists (st_engine st). rewrite HL. reflexivity.
    * apply elem_of_app. left. apply elem_of_app. right. left.
Qed.

Lemma loadPatterns_Return h filePatterns st err st' :
  loadPatterns w h filePatterns st = (Return err, st') ->
  (exists p, p ∈ filePatterns /\ Glob w (TrimSpace w p) = ([], None) /\
     err = fmt_Errorf ("ruleguard init error: no file matching '" +:+
                       TrimSpace w p +:+ "'")) \/
  (exists filename e,
     filename ∈ readsOf (st_events st') /\
     failOnParseError (range w) h e = true /\
     ((ReadFile w filename).2 = Some e \/
      exists eng, (Load w eng filename (ReadFile w filename).1).2 = Some e) /\
     err = fmt_Errorf ("ruleguard init error: " +:+ Error e)).
Proof.
  intros Hrun. apply forEach_Return in Hrun as (p & st1 & Hin & Hp). revert Hp.
  unfold loadPattern, filepath_Glob. unfold bind at 1 2. unfold emit, ret.
  destruct (Glob w (TrimSpace w p)) as [filenames [e|]] eqn:HG; [discriminate|].
  destruct filenames as [|f0 fs]; cbn [length Nat.eqb].
  - intros [= <- <-]. left. exists p. auto.
  - intros Hfiles. apply forEach_Return in Hfiles as (f & st2 & _ & Hf).
    destruct (loadFile_Return _ _ _ _ _ Hf) as (e & Hfatal & Hsrc & -> & Hread).
    right. exists f, e. auto.
Qed.

End Errors.

(** X18.  The constructor returns an error in three cases and no other: the
    flag [failOnError] is rejected (nothing has happened yet); a well-formed
    pattern matched no file; or the read or the load of a file that was read
    failed with an error the policy makes fatal, and the text is that error's
    after [ruleguard init error: ]. *)
Theorem X18_the_three_errors_of_a_construction :
  forall (w : World) (params : CheckerParams) (ctx0 : CheckerContext w)
         (err : goError) (events : list Event),
    newRuleguardChecker w params ctx0 = (Return err, events) ->
    rules params <> "" /\
    ((events = [] /\
      exists k, k ∈ GoStrings.Split_comma (failOnError params) /\ k <> "" /\
                (k ∉ policyNames) /\
                err = initErrorInvalidFlag k ((range w _ failOnErrorPredicates).*1)) \/
     (exists p, p ∈ GoStrings.Split_comma (rules params) /\
        Glob w (TrimSpace w p) = ([], None) /\
        err = fmt_Errorf ("ruleguard init error: no file matching '" +:+
                          TrimSpace w p +:+ "'")) \/
     (exists h filename e,
        newErrorHandler (range w) (failOnError params) = inl h /\
        filename ∈ readsOf events /\
        failOnParseError (range w) h e = true /\
        ((ReadFile w filename).2 = Some e \/
         exists eng, (Load w eng filename (ReadFile w filename).1).2 = Some e) /\
        err = fmt_Errorf ("ruleguard init error: " +:+ Error e))).
Proof.
  intros w params ctx0 err events Hrun.
  apply newRuleguardChecker_run in Hrun
    as [(_ & _ & [=])|[(Hr & -> & err' & Hh & [= <-])|(Hr & h & r & st & Hh & Hl & Ho & ->)]];
    (split; [exact Hr|]).
  - left. split; [reflexivity|].
    destruct (newErrorHandler_first (range w) _ _ _ Hh) as (before & k & rest & E & _ & Hk & Hn & ->).
    exists k. splits; try assumption; [|reflexivity].
    rewrite E. apply elem_of_app. right. left.
  - destruct r as [[]|err']; [discriminate Ho|]. injection Ho as <-.
    destruct (loadPatterns_Return w h _ _ _ _ Hl) as [Hnone|(f & e & Hf)].
    + right; left. exact Hnone.
    + right; right. exists h, f, e. split; [exact Hh|exact Hf].
Qed.

Lemma X18_witness :
  rules Scenario.dslPolicy <> "" /\
  (([EvGlob "rules-a.txt"; EvReadFile "rules-a.txt"; EvLoad "rules-a.txt" "rule a";
     EvGlob "bad.go"; EvReadFile "bad.go"; EvLoad "bad.go" "func {"] = [] /\
    exists k, k ∈ GoStrings.Split_comma (failOnError Scenario.dslPolicy) /\ k <> "" /\
              (k ∉ policyNames) /\
              errorString "ruleguard init error: bad.go: syntax error" =
                initErrorInvalidFlag k ((range Example.world _ failOnErrorPredicates).*1)) \/
   (exists p, p ∈ GoStrings.Split_comma (rules Scenario.dslPolicy) /\
      Glob Example.world (TrimSpace Example.world p) = ([], None) /\
      errorString "ruleguard init error: bad.go: syntax error" =
        fmt_Errorf ("ruleguard init error: no file matching '" +:+
                    TrimSpace Example.world p +:+ "'")) \/
   (exists h filename e,
      newErrorHandler (range Example.world) (failOnError Scenario.dslPolicy) = inl h /\
      filename ∈ readsOf [EvGlob "rules-a.txt"; EvReadFile "rules-a.txt";
                          EvLoad "rules-a.txt" "rule a"; EvGlob "bad.go";
                          EvReadFile "bad.go"; EvLoad "bad.go" "func {"] /\
      failOnParseError (range Example.world) h e = true /\
      ((ReadFile Example.world filename).2 = Some e \/
       exists eng, (Load Example.world eng filename (ReadFile Example.world filename).1).2 =
                   Some e) /\
      errorString "ruleguard init error: bad.go: syntax error" =
        fmt_Errorf ("ruleguard init error: " +:+ Error e))).
Proof.
  apply (X18_the_three_errors_of_a_construction Example.world Scenario.dslPolicy
           Example.context).
  vm_compute; reflexivity.
Defined.

(** X19.  When [failOnError] names no policy (it is empty, or commas only),
    the one error the constructor can return is that of a well-formed pattern
    without a matching file: no failure of a read or of a load is fatal. *)
Theorem X19_without_policy_only_a_missing_file_is_fatal :
  forall (w : World), range_ok (range w) ->
  forall (params : CheckerParams) (ctx0 : CheckerContext w)
         (err : goError) (events : list Event),
    (forall k, k ∈ GoStrings.Split_comma (failOnError params) -> k = "") ->
    newRuleguardChecker w params ctx0 = (Return err, events) ->
    exists p, p ∈ GoStrings.Split_comma (rules params) /\
      Glob w (TrimSpace w p) = ([], None) /\
      err = fmt_Errorf ("ruleguard init error: no file matching '" +:+
                        TrimSpace w p +:+ "'").
Proof.
  intros w Hrange params ctx0 err events Hempty Hrun.
  apply newRuleguardChecker_run in Hrun
    as [(_ & _ & [=])|[(Hr & -> & err' & Hh & [= <-])|(Hr & h & r & st & Hh & Hl & Ho & ->)]].
  - destruct (newErrorHandler_first (range w) _ _ _ Hh) as (before & k & rest & E & _ & Hk & _).
    exfalso. apply Hk, Hempty. unfold newErrorHandler in E.
    rewrite E. apply elem_of_app. right. left.
  - destruct r as [[]|err']; [discriminate Ho|]. injection Ho as <-.
    destruct (loadPatterns_Return w h _ _ _ _ Hl) as [Hnone|(f & e & _ & Hfatal & _)];
      [exact Hnone|].
    apply (failOnParseError_named (range w) Hrange _ h e Hh) in Hfatal.
    destruct Hfatal as [[Hin _]|[[Hin _]|Hin]]; apply Hempty in Hin; discriminate Hin.
Qed.

Lemma X19_witness :
  exists p, p ∈ GoStrings.Split_comma "rules-a.txt,missing-*.txt" /\
    Glob Example.world (TrimSpace Example.world p) = ([], None) /\
    errorString "ruleguard init error: no file matching 'missing-*.txt'" =
      fmt_Errorf ("ruleguard init error: no file matching '" +:+
                  TrimSpace Example.world p +:+ "'").
Proof.
  apply (X19_without_policy_only_a_missing_file_is_fatal Example.world Example_range_ok
           Scenario.missing Example.context
           (errorString "ruleguard init error: no file matching 'missing-*.txt'")
           (newRuleguardChecker Example.world Scenario.missing Example.context).2).
  - intros k Hin. change (k ∈ [""; ""]) in Hin.
    rewrite !elem_of_cons, elem_of_nil in Hin. destruct Hin as [?|[?|[]]]; assumption.
  - vm_compute; reflexivity.
Defined.

(** *** Registration *)

(** X20.  As long as the three parameters [init] registers are there, the
    registered constructor does not fail on a missing parameter; and as long
    as [rules] has its registered value, the empty string, it does nothing:
    it returns a checker without engine and no error, it globs, reads, loads
    and logs nothing, and the checker's [WalkFile] has no effect on any
    file.  With the [info] of [init] untouched this is what happens. *)
Theorem X20_as_registered_the_checker_is_idle :
  forall (w : World) (sort_Slice : forall A : Type, list A -> (A -> A -> bool) -> list A)
         (i : Registration.CheckerInfo) (ctx0 : CheckerContext w),
    Registration.registered i ->
    (exists r, Registration.constructor w i ctx0 = Some r) /\
    (Registration.Params_String i "rules" = Some "" ->
     exists c : ruleguardChecker w,
       Registration.constructor w i ctx0 = Some (Continue c, []) /\
       engine c = None /\
       forall f : File w, WalkFile w sort_Slice c f = []) /\
    Registration.registered Registration.info /\
    Registration.constructor w Registration.info ctx0 =
      Some (Continue {| ctx := ctx0; debugGroup := ""; engine := None |}, []).
Proof.
  intros w sort_Slice i ctx0 Hreg.
  assert (Hkey : forall key, is_Some (Registration.Params Registration.info !! key) ->
                   exists v, Registration.Params_String i key = Some v).
  { intros key Hk. destruct (Hreg key Hk) as [p Hp].
    unfold Registration.Params_String. rewrite Hp. cbn. eauto. }
  destruct (Hkey "debug") as [d Hd]; [vm_compute; eauto|].
  destruct (Hkey "rules") as [r Hr]; [vm_compute; eauto|].
  destruct (Hkey "failOnError") as [p Hp]; [vm_compute; eauto|].
  splits.
  - unfold Registration.constructor. rewrite Hd, Hr, Hp.
    destruct (String.eqb r ""); eauto.
  - intros Hrules. unfold Registration.constructor. rewrite Hd, Hrules.
    cbn [String.eqb]. eexists. split; [reflexivity|]. split; reflexivity.
  - intros key Hk. exact Hk.
  - reflexivity.
Qed.

Lemma X20_witness :
  (exists r, Registration.constructor Example.world Registration.info Example.context =
             Some r) /\
  (Registration.Params_String Registration.info "rules" = Some "" ->
   exists c : ruleguardChecker Example.world,
     Registration.constructor Example.world Registration.info Example.context =
       Some (Continue c, []) /\
     engine c = None /\
     forall f : File Example.world, WalkFile Example.world GoSort.sort_Slice c f = []) /\
  Registration.registered Registration.info /\
  Registration.constructor Example.world Registration.info Example.context =
    Some (Continue {| ctx := Example.context; debugGroup := ""; engine := None |}, []).
Proof.
  apply (X20_as_registered_the_checker_is_idle Example.world GoSort.sort_Slice
           Registration.info Example.context).
  intros key Hk. exact Hk.
Defined.

(** X21.  The [debug] parameter plays no part in the construction: with
    another value for it the same events happen and the same error is
    returned, or a checker with the same engine; the checker returned carries
    the context it was given and the [debug] value as its group. *)
Theorem X21_debug_plays_no_part_in_the_construction :
  forall (w : World) (rulesFlag failOnErrorFlag d1 d2 : string) (ctx0 : CheckerContext w)
         (o1 : outcome (ruleguardChecker w)) (events : list Event),
    newRuleguardChecker w
      {| rules := rulesFlag; debug := d1; failOnError := failOnErrorFlag |} ctx0
      = (o1, events) ->
    exists o2,
      newRuleguardChecker w
        {| rules := rulesFlag; debug := d2; failOnError := failOnErrorFlag |} ctx0
        = (o2, events) /\
      match o1, o2 with
      | Continue c1, Continue c2 =>
          engine c1 = engine c2 /\ ctx c1 = ctx0 /\ ctx c2 = ctx0 /\
          debugGroup c1 = d1 /\ debugGroup c2 = d2
      | Return err1, Return err2 => err1 = err2
      | _, _ => False
      end.
Proof.
  intros w rulesFlag failOnErrorFlag d1 d2 ctx0 o1 events.
  unfold newRuleguardChecker. cbn [rules debug failOnError].
  destruct (String.eqb rulesFlag "").
  - intros [= <- <-]. eexists. split; [reflexivity|]. cbn. auto.
  - destruct (newErrorHandler (range w) failOnErrorFlag) as [h|err].
    + destruct (loadPatterns w h (GoStrings.Split_comma rulesFlag) (initialState w))
        as [[[]|err] st].
      * destruct (negb (st_loaded st =? 0)%Z); intros [= <- <-];
          (eexists; split; [reflexivity|]); cbn; auto.
      * intros [= <- <-]. eexists. split; [reflexivity|]. reflexivity.
    + intros [= <- <-]. eexists. split; [reflexivity|]. reflexivity.
Qed.

Lemma X21_witness :
  exists o2,
    newRuleguardChecker Example.world
      {| rules := " rules-a.txt ,[,bad.go"; debug := "other"; failOnError := "" |}
      Example.context
      = (o2, (newRuleguardChecker Example.world Scenario.lenient Example.context).2) /\
    match Continue (Build_ruleguardChecker Example.world Example.context "g"
                      (Some ["rules-a.txt"])), o2 with
    | Continue c1, Continue c2 =>
        engine c1 = engine c2 /\ ctx c1 = Example.context /\ ctx c2 = Example.context /\
        debugGroup c1 = "g" /\ debugGroup c2 = "other"
    | Return err1, Return err2 => err1 = err2
    | _, _ => False
    end.
Proof.
  apply (X21_debug_plays_no_part_in_the_construction Example.world
           " rules-a.txt ,[,bad.go" "" "g" "other" Example.context).
  vm_compute; reflexivity.
Defined.
